(** * WireState: the semantic analyzer, the generator dispatcher and the
    command line, embedded from [src/analyzer.js], [lib/generator/index.js]
    and the [bin] script.

    Conventions of the embedding.
    - A JavaScript string is a [string]: a sequence of code units, here the
      code units below 256.  [String.compare] orders them the way the default
      comparator of [Array.prototype.sort] does.
    - A promise is identified with the way it settles ([Outcome]): fulfilled
      with a value, rejected with an error, or pending for ever.
    - [Promise.all] rejects with the member that rejects first in time; the
      embedding takes the first rejected member in list order.  No theorem
      below depends on which rejected member is chosen.
    - The floating call of [requireWireStateFile] inside [analyzeImportNode]
      is run where it is started. *)

From Stdlib Require Import String Ascii List Bool Arith Lia Sorted.
From stdpp Require Import base option list gmap strings.
Import ListNotations.

Local Open Scope string_scope.
Local Open Scope list_scope.

(** ** Strings *)

Module Str.

(** The characters [String.prototype.trim] removes (WhiteSpace and
    LineTerminator) among the code units below 256. *)
Definition isWhiteSpace (c : ascii) : bool :=
  match nat_of_ascii c with
  | 9 | 10 | 11 | 12 | 13 | 32 | 160 => true
  | _ => false
  end.

Fixpoint trimStart (s : string) : string :=
  match s with
  | EmptyString => EmptyString
  | String c r => if isWhiteSpace c then trimStart r else s
  end.

Fixpoint trimEnd (s : string) : string :=
  match s with
  | EmptyString => EmptyString
  | String c r =>
      match trimEnd r with
      | EmptyString => if isWhiteSpace c then EmptyString else String c EmptyString
      | r' => String c r'
      end
  end.

(** [s.trim()] *)
Definition trim (s : string) : string := trimEnd (trimStart s).

(** [s.split(sep)] for a separator of one character: never the empty list. *)
Fixpoint split (sep : ascii) (s : string) : list string :=
  match s with
  | EmptyString => [EmptyString]
  | String c r =>
      if Ascii.eqb c sep then EmptyString :: split sep r
      else match split sep r with
           | h :: t => String c h :: t
           | [] => [String c EmptyString]
           end
  end.

(** [parts.join(sep)] *)
Definition join (sep : string) (parts : list string) : string :=
  String.concat sep parts.

Fixpoint contains (c : ascii) (s : string) : bool :=
  match s with
  | EmptyString => false
  | String d r => Ascii.eqb d c || contains c r
  end.

(** [s.startsWith(p)] *)
Definition startsWith (s p : string) : bool := String.prefix p s.

(** [s.indexOf(c) >= 0] for a character [c]. *)
Definition hasChar (s : string) (c : ascii) : bool := contains c s.

Fixpoint insertSorted (x : string) (l : list string) : list string :=
  match l with
  | [] => [x]
  | y :: r => if String.leb x y then x :: l else y :: insertSorted x r
  end.

(** [parts.sort()] with the default comparator: ascending in code unit order.
    The order is total and antisymmetric on strings, so every sorting
    algorithm returns this list. *)
Definition sort (l : list string) : list string :=
  fold_right insertSorted [] l.

(** The order [sort] sorts by. *)
Definition leS (a b : string) : Prop := String.leb a b = true.

End Str.

(** [normalizeEventName], analyzer.js lines 33-35. *)
Definition normalizeEventName (eventName : string) : string :=
  Str.join "," (Str.sort (map Str.trim (Str.split "," eventName))).

(** The expression the event protocol checks repeat in place,
    analyzer.js lines 208, 217, 325 and 334. *)
Definition normalizeProtocolName (eventName : string) : string :=
  Str.join "," (Str.sort (map (fun e => Str.trim e) (Str.split "," eventName))).

(** ** Errors, promises *)

(** The double quote and the line feed of the message templates. *)
Definition dq : string := String (ascii_of_nat 34) EmptyString.
Definition nl : string := String (ascii_of_nat 10) EmptyString.

(** The exceptions the code throws or passes on.  [Error message code] is a
    plain [Error] object, with the [code] property when it has one (the
    errors of [fs] and the ENOENT error of line 77).  The message of a
    [TypeError] raised by the engine on a property read of [undefined] names
    the property only. *)
Inductive JsError : Type :=
| Error (message : string) (code : option string)
| TypeError (property : string)
| SemanticError (message fileName : string) (line column : nat)
| SyntaxError (message fileName : string) (line column : nat)
| LexicalError (message fileName : string) (line column : nat).

Definition errorCode (e : JsError) : option string :=
  match e with
  | Error _ code => code
  | _ => None
  end.

(** How a promise settles. *)
Inductive Outcome (A : Type) : Type :=
| Fulfilled (a : A)
| Rejected (e : JsError)
| Pending.

Arguments Fulfilled {A} a.
Arguments Rejected {A} e.
Arguments Pending {A}.

(** [await p] followed by the rest of an async function. *)
Definition await {A B : Type} (p : Outcome A) (k : A -> Outcome B) : Outcome B :=
  match p with
  | Fulfilled a => k a
  | Rejected e => Rejected e
  | Pending => Pending
  end.

Notation "'let/await' x ':=' p 'in' k" := (await p (fun x => k))
  (at level 10, x name, p at level 100, k at level 200).

(** A synchronous check that may throw before the rest runs. *)
Definition check {A : Type} (thrown : option JsError) (k : Outcome A) : Outcome A :=
  match thrown with
  | Some e => Rejected e
  | None => k
  end.

Fixpoint firstRejected {A : Type} (ps : list (Outcome A)) : option JsError :=
  match ps with
  | [] => None
  | Rejected e :: _ => Some e
  | _ :: r => firstRejected r
  end.

Fixpoint allFulfilled {A : Type} (ps : list (Outcome A)) : option (list A) :=
  match ps with
  | [] => Some []
  | Fulfilled a :: r => option_map (cons a) (allFulfilled r)
  | _ :: _ => None
  end.

(** [Promise.all(ps)] *)
Definition promiseAll {A : Type} (ps : list (Outcome A)) : Outcome (list A) :=
  match firstRejected ps with
  | Some e => Rejected e
  | None =>
      match allFulfilled ps with
      | Some vs => Fulfilled vs
      | None => Pending
      end
  end.

(** ** The syntax tree (ast-nodes), as far as the analyzer reads it *)

(** The classes of ast-nodes are not among the sources; the records hold the
    properties the analyzer reads and writes.  A node is changed in place:
    the analyzed children are the objects the node already holds, so the
    list assigned to [_states] (lines 255 and 372) and to [_machines] (line
    134) is the list [states] and [machines] give, read here as one field.
    The scope of a node ([parent], [scopeNode]) is passed along instead of
    being stored in the node. *)

Inductive StateKind : Type := Atomic | Compound | Parallel | Transient | Final.

Definition StateKind_eqb (a b : StateKind) : bool :=
  match a, b with
  | Atomic, Atomic | Compound, Compound | Parallel, Parallel
  | Transient, Transient | Final, Final => true
  | _, _ => false
  end.

Record TransitionNode : Type := mkTransitionNode {
  tn_event : string;
  tn_target : string;
  tn_line : nat;
  tn_column : nat
}.

Record EventProtocolNode : Type := mkEventProtocolNode {
  ep_eventName : string;
  ep_line : nat;
  ep_column : nat
}.

Record UseDirectiveNode : Type := mkUseDirectiveNode {
  ud_machineId : string;
  ud_line : nat;
  ud_column : nat
}.

Unset Elimination Schemes.
Inductive StateNode : Type := mkStateNode {
  sn_id : string;
  sn_stateType : StateKind;
  sn_initial : bool;
  sn_states : list StateNode;
  sn_transitions : list TransitionNode;
  sn_eventProtocols : list EventProtocolNode;
  sn_useDirective : option UseDirectiveNode;
  sn_line : nat;
  sn_column : nat
}.
Set Elimination Schemes.

Record MachineNode : Type := mkMachineNode {
  mn_id : string;
  mn_states : list StateNode;
  mn_transitions : list TransitionNode;
  mn_eventProtocols : list EventProtocolNode;
  mn_line : nat;
  mn_column : nat
}.

(** [in__file] is the [_file] property line 154 assigns. *)
Record ImportNode : Type := mkImportNode {
  in_file : string;
  in__file : option string;
  in_line : nat;
  in_column : nat
}.

Record ScopeNode : Type := mkScopeNode {
  sc_fileName : string;
  sc_imports : list ImportNode;
  sc_machines : list MachineNode
}.

(** ** The import cache *)

(** Modelled from the spec: the class [Cache] of [./internal] is not among the
    sources.  Section 4.6 of the specification describes it as a mapping from
    a file key to a promise of an analyzed scope, with [has], [set] and
    [get]; reading a key that was never set gives [undefined]. *)
Module Cache.

Abbreviation t := (gmap string (Outcome ScopeNode)).

Definition has (c : t) (key : string) : bool := bool_decide (is_Some (c !! key)).
Definition set (c : t) (key : string) (future : Outcome ScopeNode) : t :=
  <[key := future]> c.
Definition get (c : t) (key : string) : option (Outcome ScopeNode) := c !! key.

End Cache.

(** ** What the analyzer takes from its environment *)

(** [path_join] is [Path.join]; [fs_stat] is [FS.stat] followed by
    [stats.isFile()]; [fs_readFile] is [FS.readFile] with 'utf8';
    [parseSource fileName text] is [tokenizer.tokenize] followed by
    [parser.parse] for the tokenizer and parser made for [fileName], either
    of which may throw; [resolveState] tells whether [resolveState] of
    ast-nodes returns a state for the transition. *)
Record Host : Type := mkHost {
  path_join : string -> string -> string;
  fs_stat : string -> JsError + bool;
  fs_readFile : string -> JsError + string;
  parseSource : string -> string -> JsError + ScopeNode;
  resolveState : TransitionNode -> bool
}.

(** ** Arrays *)

Module Arr.

(** The iteration order of [new Set(keys)]: first occurrences. *)
Fixpoint setOf (keys : list string) : list string :=
  match keys with
  | [] => []
  | k :: r => k :: List.filter (fun x => negb (String.eqb x k)) (setOf r)
  end.

(** [keys.indexOf(k)]; [None] is -1. *)
Fixpoint indexOf (k : string) (keys : list string) : option nat :=
  match keys with
  | [] => None
  | x :: r => if String.eqb x k then Some 0 else option_map S (indexOf k r)
  end.

(** [keys.lastIndexOf(k)]; [None] is -1. *)
Fixpoint lastIndexOf (k : string) (keys : list string) : option nat :=
  match keys with
  | [] => None
  | x :: r =>
      match lastIndexOf k r with
      | Some i => Some (S i)
      | None => if String.eqb x k then Some 0 else None
      end
  end.

Definition sameIndex (a b : option nat) : bool :=
  match a, b with
  | Some i, Some j => Nat.eqb i j
  | None, None => true
  | _, _ => false
  end.

(** [xs.findIndex(p)]; [None] is -1. *)
Fixpoint findIndex {A : Type} (p : A -> bool) (xs : list A) : option nat :=
  match xs with
  | [] => None
  | x :: r => if p x then Some 0 else option_map S (findIndex p r)
  end.

End Arr.

(** The loop the analyzer writes out for machine IDs, state IDs, transition
    events and event protocols (lines 110-124, 169-183, 186-204, 207-225,
    286-300, 303-321, 324-342): walk the set of keys in insertion order, stop
    at the first key whose first and last index differ, and look up the first
    node carrying that key.  The result is that key with the node found. *)
Definition findDuplicate {A : Type} (key : A -> string) (nodes : list A)
  : option (string * option A) :=
  let keys := map key nodes in
  match find (fun k => negb (Arr.sameIndex (Arr.indexOf k keys) (Arr.lastIndexOf k keys)))
             (Arr.setOf keys) with
  | Some k => Some (k, find (fun n => String.eqb (key n) k) nodes)
  | None => None
  end.

(** The [throw] inside that loop; reading [line] of a node that was not found
    would be a [TypeError]. *)
Definition duplicateError {A : Type} (key : A -> string) (nodes : list A)
  (mkError : string -> A -> JsError) : option JsError :=
  match findDuplicate key nodes with
  | Some (k, Some n) => Some (mkError k n)
  | Some (_, None) => Some (TypeError "line")
  | None => None
  end.

(** ** The analyzer *)

(** The messages of the errors the analyzer throws. *)
Module Msg.

Definition duplicateMachine (machineId : string) : string :=
  "Duplicate machine" +:+ nl +:+ "  Machine ID: " +:+ dq +:+ machineId +:+ dq.

Definition duplicateState (stateId : string) : string :=
  "Duplicate state" +:+ nl +:+ "  State ID: " +:+ dq +:+ stateId +:+ dq.

Definition duplicateTransition (event : string) : string :=
  "Duplicate transition" +:+ nl +:+ "  Transition Event: " +:+ dq +:+ event +:+ dq.

Definition duplicateEventProtocol (eventName : string) : string :=
  "Duplicate event protocol" +:+ nl +:+ "  Event Protocol: " +:+ dq +:+ eventName +:+ dq.

Definition unresolvedTarget (target : string) : string :=
  "Transition target cannot be resolved" +:+ nl +:+ "  Transition Target: " +:+ target.

Definition manyInitialInMachine (machineId : string) : string :=
  "Only one child state can be marked as initial" +:+ nl
  +:+ "  Machine ID: " +:+ dq +:+ machineId +:+ dq.

Definition manyInitialInState (stateId : string) : string :=
  "Only one child state can be marked as initial" +:+ nl
  +:+ "  State ID: " +:+ dq +:+ stateId +:+ dq.

Definition transientWithChildren (stateId : string) : string :=
  "Transient states cannot have child states" +:+ nl +:+ "  State ID: " +:+ stateId +:+ dq.

Definition machineNotFound (machineId : string) : string :=
  "Machine not found" +:+ nl +:+ "  Machine ID: " +:+ machineId.

Definition fileNotFound (wireStateFile : string) : string :=
  "WireState file not found" +:+ nl +:+ "  File: " +:+ wireStateFile.

Definition notAScopeNode : string := "Can only analyzie ScopeNode instances".

End Msg.

Definition hasMachine (machineId : string) (scopeNode : ScopeNode) : option MachineNode :=
  find (fun machineNode => String.eqb (mn_id machineNode) machineId) (sc_machines scopeNode).

(** The callback of [importedScopeNodes.some] (lines 402-407); an entry that
    is [undefined] makes the read of [machines] throw. *)
Fixpoint someImported (machineId : string) (importedScopeNodes : list (option ScopeNode))
  : JsError + option MachineNode :=
  match importedScopeNodes with
  | [] => inr None
  | None :: _ => inl (TypeError "machines")
  | Some scopeNode :: r =>
      match hasMachine machineId scopeNode with
      | Some machineNode => inr (Some machineNode)
      | None => someImported machineId r
      end
  end.

(** What [Promise.all] makes of one result of [cache.get]: [undefined] is a
    value, a promise is awaited. *)
Definition awaited (entry : option (Outcome ScopeNode)) : Outcome (option ScopeNode) :=
  match entry with
  | None => Fulfilled None
  | Some future => let/await scopeNode := future in Fulfilled (Some scopeNode)
  end.

(** [analyzeUseDirectiveNode], lines 390-422.  [scopeNode] is
    [useDirectiveNode.parent.scopeNode]; [cache] is [None] when the caller
    passed none. *)
Definition analyzeUseDirectiveNode (cache : option Cache.t) (scopeNode : ScopeNode)
  (useDirectiveNode : option UseDirectiveNode) : Outcome (option UseDirectiveNode) :=
  match useDirectiveNode with
  | None => Fulfilled None
  | Some u =>
      let machineId := ud_machineId u in
      let notFound :=
        Rejected (SemanticError (Msg.machineNotFound machineId)
                    (sc_fileName scopeNode) (ud_line u) (ud_column u)) in
      match hasMachine machineId scopeNode with
      | Some _ => Fulfilled (Some u)
      | None =>
          match sc_imports scopeNode, cache with
          | [], _ => notFound
          | _ :: _, None => Rejected (TypeError "get")
          | imports, Some c =>
              let/await importedScopeNodes :=
                promiseAll (map (fun importNode => awaited (Cache.get c (in_file importNode))) imports) in
              match someImported machineId importedScopeNodes with
              | inl e => Rejected e
              | inr (Some _) => Fulfilled (Some u)
              | inr None => notFound
              end
          end
      end
  end.

Section Nodes.

Context (host : Host) (cache : option Cache.t) (scopeNode : ScopeNode).

Definition duplicateStateError (states : list StateNode) : option JsError :=
  duplicateError sn_id states (fun stateId n =>
    SemanticError (Msg.duplicateState stateId)
      (sc_fileName scopeNode) (sn_line n) (sn_column n)).

Definition duplicateTransitionError (transitions : list TransitionNode) : option JsError :=
  duplicateError (fun transitionNode => normalizeEventName (tn_event transitionNode)) transitions
    (fun _ n =>
       SemanticError (Msg.duplicateTransition (tn_event n))
         (sc_fileName scopeNode) (tn_line n) (tn_column n)).

Definition duplicateEventProtocolError (eventProtocols : list EventProtocolNode) : option JsError :=
  duplicateError (fun eventProtocolNode => normalizeProtocolName (ep_eventName eventProtocolNode))
    eventProtocols
    (fun _ n =>
       SemanticError (Msg.duplicateEventProtocol (ep_eventName n))
         (sc_fileName scopeNode) (ep_line n) (ep_column n)).

(** The [forEach] over the transitions (lines 228-237 and 345-354): the first
    transition whose target does not resolve throws. *)
Definition unresolvedTargetError (transitions : list TransitionNode) : option JsError :=
  match find (fun transitionNode => negb (resolveState host transitionNode)) transitions with
  | Some n =>
      Some (SemanticError (Msg.unresolvedTarget (tn_target n))
              (sc_fileName scopeNode) (tn_line n) (tn_column n))
  | None => None
  end.

(** Lines 240-247 and 357-364; [message] names the machine or the state. *)
Definition manyInitialError (message : string) (states : list StateNode) : option JsError :=
  if Nat.ltb 1 (length (List.filter sn_initial states)) then
    match nth_error (List.filter sn_initial states) 1 with
    | Some s =>
        Some (SemanticError message (sc_fileName scopeNode) (sn_line s) (sn_column s))
    | None => Some (TypeError "line")
    end
  else None.

(** The condition of lines 250 and 367: [states[0].initial = true] runs. *)
Definition marksFirst (states : list StateNode) : bool :=
  negb (Nat.eqb (length states) 0) && negb (existsb sn_initial states).

(** [analyzeStateNode], lines 270-382.  The node is changed in place by its
    caller (lines 251 and 368) and by the function itself; [markedInitial]
    tells that the caller has just assigned [initial = true] to this node,
    so the node analyzed has [initial] equal to
    [markedInitial || sn_initial stateNode].  The children are analyzed after
    the first of them has been marked. *)
Fixpoint analyzeStateNode (markedInitial : bool) (stateNode : StateNode) {struct stateNode}
  : Outcome StateNode :=
  let states := sn_states stateNode in
  if StateKind_eqb (sn_stateType stateNode) Transient && Nat.ltb 0 (length states) then
    Rejected (SemanticError (Msg.transientWithChildren (sn_id stateNode))
      (sc_fileName scopeNode)
      (from_option sn_line 0 (head states)) (from_option sn_column 0 (head states)))
  else
    let stateType :=
      if StateKind_eqb (sn_stateType stateNode) Atomic && Nat.ltb 0 (length states)
      then Compound else sn_stateType stateNode in
    check (duplicateStateError states) (
    check (duplicateTransitionError (sn_transitions stateNode)) (
    check (duplicateEventProtocolError (sn_eventProtocols stateNode)) (
    check (unresolvedTargetError (sn_transitions stateNode)) (
    check (manyInitialError (Msg.manyInitialInState (sn_id stateNode)) states) (
    let/await states' :=
      promiseAll
        match states with
        | [] => []
        | first :: rest =>
            analyzeStateNode (marksFirst states) first :: map (analyzeStateNode false) rest
        end in
    let/await useDirective := analyzeUseDirectiveNode cache scopeNode (sn_useDirective stateNode) in
    Fulfilled (mkStateNode (sn_id stateNode) stateType
                 (markedInitial || sn_initial stateNode) states'
                 (sn_transitions stateNode) (sn_eventProtocols stateNode)
                 useDirective (sn_line stateNode) (sn_column stateNode))))))).

(** [analyzeMachineNode], lines 167-262. *)
Definition analyzeMachineNode (machineNode : MachineNode) : Outcome MachineNode :=
  let states := mn_states machineNode in
  check (duplicateStateError states) (
  check (duplicateTransitionError (mn_transitions machineNode)) (
  check (duplicateEventProtocolError (mn_eventProtocols machineNode)) (
  check (unresolvedTargetError (mn_transitions machineNode)) (
  check (manyInitialError (Msg.manyInitialInMachine (mn_id machineNode)) states) (
  let/await states' :=
    promiseAll
      match states with
      | [] => []
      | first :: rest =>
          analyzeStateNode (marksFirst states) first :: map (analyzeStateNode false) rest
      end in
  Fulfilled (mkMachineNode (mn_id machineNode) states'
               (mn_transitions machineNode) (mn_eventProtocols machineNode)
               (mn_line machineNode) (mn_column machineNode))))))).

End Nodes.

(** The functions of lines 44-159 call one another through the promise of
    lines 88-97, which analyzes the imported file with [analyze(scopeNode,
    { dirs })]: no cache is passed.  [Open] has them with that one call left
    open as [analyzeImported]. *)
Module Open.
Section Imports.

Context (host : Host) (analyzeImported : ScopeNode -> list string -> Outcome ScopeNode).

(** The callback of lines 64-72. *)
Definition statIsFile (fileName : string) : Outcome bool :=
  match fs_stat host fileName with
  | inr isFile => Fulfilled isFile
  | inl error =>
      match errorCode error with
      | Some code => if String.eqb code "ENOENT" then Fulfilled false else Rejected error
      | None => Rejected error
      end
  end.

(** The promise of lines 88-97.  An exception of the tokenizer or the parser
    is thrown inside the [then] callback, so neither [resolve] nor [reject]
    is ever called. *)
Definition readAndAnalyze (firstMatchedFileName : string) (dirs : list string)
  : Outcome ScopeNode :=
  match fs_readFile host firstMatchedFileName with
  | inl error => Rejected error
  | inr text =>
      match parseSource host firstMatchedFileName text with
      | inl _ => Pending
      | inr scopeNode => analyzeImported scopeNode dirs
      end
  end.

Definition notFoundError (wireStateFile : string) : JsError :=
  Error (Msg.fileNotFound wireStateFile) (Some "ENOENT").

(** Line 60. *)
Definition searchDirs (dirs : list string) : list string :=
  if Nat.eqb (length dirs) 0 then ["."] else dirs.

(** Line 62. *)
Definition fileNames (wireStateFile : string) (dirs : list string) : list string :=
  map (fun dir => path_join host dir wireStateFile) (searchDirs dirs).

(** Lines 60-81 of [requireWireStateFile]: the first of [fileNames] that is a
    regular file, or the exception thrown. *)
Definition firstMatchedFileName (wireStateFile : string) (dirs : list string)
  : Outcome string :=
  let/await matchResults := promiseAll (map statIsFile (fileNames wireStateFile dirs)) in
  let firstMatchedFileName :=
    match Arr.findIndex (fun result => result) matchResults with
    | Some i => nth_error (fileNames wireStateFile dirs) i
    | None => None
    end in
  match firstMatchedFileName with
  | None | Some EmptyString => Rejected (notFoundError wireStateFile)
  | Some firstMatchedFileName => Fulfilled firstMatchedFileName
  end.

(** [requireWireStateFile], lines 59-100.  The result pairs the cache after
    the call with the way the returned promise settles; a fulfilled promise
    carries what [cache.get] returned. *)
Definition requireWireStateFile (wireStateFile : string) (cache : option Cache.t)
  (dirs : list string) : option Cache.t * Outcome (option (Outcome ScopeNode)) :=
  match firstMatchedFileName wireStateFile dirs with
  | Rejected e => (cache, Rejected e)
  | Pending => (cache, Pending)
  | Fulfilled firstMatchedFileName =>
      match cache with
      | None => (None, Rejected (TypeError "has"))
      | Some c =>
          if Cache.has c wireStateFile then
            (Some c, Fulfilled (Cache.get c firstMatchedFileName))
          else
            let c' :=
              Cache.set c wireStateFile
                (readAndAnalyze firstMatchedFileName (searchDirs dirs)) in
            (Some c', Fulfilled (Cache.get c' firstMatchedFileName))
      end
  end.

Definition backslash : string := String (ascii_of_nat 92) EmptyString.

(** The path of lines 150-152. *)
Definition importedFile (parent : ScopeNode) (importNode : ImportNode) : string :=
  if Str.startsWith (in_file importNode) "./"
     || Str.startsWith (in_file importNode) ("." +:+ backslash)
  then path_join host (sc_fileName parent) (in_file importNode)
  else in_file importNode.

(** [analyzeImportNode], lines 149-159.  The promise of
    [requireWireStateFile] is neither awaited nor returned: only its effect
    on the cache remains. *)
Definition analyzeImportNode (parent : ScopeNode) (importNode : ImportNode)
  (cache : option Cache.t) (dirs : list string) : option Cache.t * ImportNode :=
  let file := importedFile parent importNode in
  let importNode' :=
    mkImportNode (in_file importNode) (Some file) (in_line importNode) (in_column importNode) in
  (fst (requireWireStateFile file cache dirs), importNode').

(** Lines 127-131. *)
Fixpoint analyzeImports (parent : ScopeNode) (imports : list ImportNode)
  (cache : option Cache.t) (dirs : list string) : option Cache.t * list ImportNode :=
  match imports with
  | [] => (cache, [])
  | importNode :: rest =>
      let '(cache1, importNode') := analyzeImportNode parent importNode cache dirs in
      let '(cache2, rest') := analyzeImports parent rest cache1 dirs in
      (cache2, importNode' :: rest')
  end.

Definition duplicateMachineError (scopeNode : ScopeNode) : option JsError :=
  duplicateError mn_id (sc_machines scopeNode) (fun machineId n =>
    SemanticError (Msg.duplicateMachine machineId)
      (sc_fileName scopeNode) (mn_line n) (mn_column n)).

(** [analyzeScopeNode], lines 108-141.  The lookups that line 156 starts are
    not awaited, and each of them reaches [cache.set] (line 88) only after
    [FS.stat] has called back (lines 63-73).  Lines 127-138 run before any
    such callback: the use-directives of the machines read the cache as it
    was passed, its promises taken as they settle.  The cache of the result
    is the one the lookups leave behind once they have settled. *)
Definition analyzeScopeNode (scopeNode : ScopeNode) (cache : option Cache.t)
  (dirs : list string) : option Cache.t * Outcome ScopeNode :=
  match duplicateMachineError scopeNode with
  | Some e => (cache, Rejected e)
  | None =>
      let '(cache', imports') := analyzeImports scopeNode (sc_imports scopeNode) cache dirs in
      let scopeNode' := mkScopeNode (sc_fileName scopeNode) imports' (sc_machines scopeNode) in
      (cache',
       let/await machines' :=
         promiseAll (map (analyzeMachineNode host cache scopeNode') (sc_machines scopeNode)) in
       Fulfilled (mkScopeNode (sc_fileName scopeNode) imports' machines'))
  end.

End Imports.
End Open.

(** The analysis line 95 starts for an imported file: [analyze] is given the
    scope the parser has just built and no cache.  Without a cache
    [requireWireStateFile] ends at line 83 at the latest, so this analysis
    never starts another one (lemma [requireWireStateFile_without_cache]). *)
Definition analyzeImported (host : Host) (scopeNode : ScopeNode) (dirs : list string)
  : Outcome ScopeNode :=
  snd (Open.analyzeScopeNode host (fun _ _ => Pending) scopeNode None dirs).

Definition requireWireStateFile (host : Host) :=
  Open.requireWireStateFile host (analyzeImported host).

Definition analyzeImportNode (host : Host) :=
  Open.analyzeImportNode host (analyzeImported host).

Definition analyzeScopeNode (host : Host) :=
  Open.analyzeScopeNode host (analyzeImported host).

(** ** Objects: the argument of [analyze] and its clone *)

Inductive JsObject : Type :=
| ScopeNodeObject (scopeNode : ScopeNode)
| OtherObject.

Inductive JsValue : Type :=
| VUndefined
| VNull
| VBoolean (b : bool)
| VNumber (n : nat)
| VString (s : string)
| VObject (address : nat).

(** How a call ends: with a value or with an exception thrown to the caller. *)
Inductive Completion (A : Type) : Type :=
| Returns (a : A)
| Throws (e : JsError).

Arguments Returns {A} a.
Arguments Throws {A} e.

(** Modelled from the spec: [ScopeNode.clone] of ast-nodes is not among the
    sources.  Section 3 of the specification: the parser creates a scope
    "which the analyzer clones and then mutates"; the clone is a new object
    holding a copy of the tree. *)
Definition clone (heap : gmap nat JsObject) (scopeNode : ScopeNode)
  : nat * gmap nat JsObject :=
  let address := fresh (dom heap) in
  (address, <[address := ScopeNodeObject scopeNode]> heap).

(** [analyze], lines 44-50.  [analyzeScopeNode] changes the object it is
    given in place: the analyzed tree is written at the address of the clone.
    When the promise is rejected or stays pending the clone is out of reach,
    and what it holds is not tracked. *)
Definition analyze (host : Host) (heap : gmap nat JsObject) (scopeNode : JsValue)
  (cache : option Cache.t) (dirs : list string)
  : gmap nat JsObject * option Cache.t * Completion (Outcome nat) :=
  let throws :=
    (heap, cache, Throws (Error Msg.notAScopeNode None)) in
  match scopeNode with
  | VObject address =>
      match heap !! address with
      | Some (ScopeNodeObject tree) =>
          let '(cloned, heap1) := clone heap tree in
          let '(cache', promise) := analyzeScopeNode host tree cache dirs in
          match promise with
          | Fulfilled tree' =>
              (<[cloned := ScopeNodeObject tree']> heap1, cache', Returns (Fulfilled cloned))
          | Rejected e => (heap1, cache', Returns (Rejected e))
          | Pending => (heap1, cache', Returns Pending)
          end
      | _ => throws
      end
  | _ => throws
  end.

(** ** The generator dispatcher, lib/generator/index.js *)

Module Generator.

(** The two backends of [./internal]; either may read and change the cache
    of type [C] it is given. *)
Record Backends (C : Type) : Type := mkBackends {
  jsonGenerator : C -> C * Outcome string;
  xstateGenerator : C -> bool -> C * Outcome string
}.

Arguments jsonGenerator {C} _ _.
Arguments xstateGenerator {C} _ _ _.

Definition nameMissing : JsError := Error "Generator name must be provided" None.

Definition notFound (generatorName : string) : JsError :=
  Error ("Generator " +:+ dq +:+ generatorName +:+ dq +:+ " not found") None.

(** [generate], lines 13-22.  [None] is a property left out of the options;
    the empty string is the one string that is falsy on line 14. *)
Definition generate {C : Type} (backends : Backends C) (cache : C)
  (generatorName : option string) (disableCallbacks : option bool) : C * Outcome string :=
  let generatorName := default "json" generatorName in
  let disableCallbacks := default false disableCallbacks in
  if String.eqb generatorName "" then (cache, Rejected nameMissing)
  else if String.eqb generatorName "json" then jsonGenerator backends cache
  else if String.eqb generatorName "xstate" then xstateGenerator backends cache disableCallbacks
  else (cache, Rejected (notFound generatorName)).

End Generator.

(** ** The command line, the [bin] script *)

Module Cli.

Unset Elimination Schemes.
Inductive Value : Type :=
| Null
| Undefined
| Bool (b : bool)
| Str (s : string)
| Arr (items : list Value).
Set Elimination Schemes.

(** [values.concat(v)] *)
Definition concat (values : list Value) (v : Value) : list Value :=
  match v with
  | Arr items => values ++ items
  | _ => values ++ [v]
  end.

Definition mustHaveValue (name : string) : JsError :=
  Error ("Option " +:+ name +:+ " must have a value") None.

Definition isRequired (names : list string) : JsError :=
  Error ("Option " +:+ Str.join "," names +:+ " is required") None.

Definition onlyOneValue (names : list string) : JsError :=
  Error ("Option " +:+ Str.join "," names +:+ " only allows one value") None.

(** The value of lines 30-38 for the argument found at [index]. *)
Definition optionValue (name : string) (args : list string) (index : nat)
  (defaultValue : Value) : Completion Value :=
  let arg := nth index args EmptyString in
  let value :=
    if Str.hasChar arg "="
    then Some (Str.join "=" (tail (Str.split "=" arg)))
    else nth_error args (S index) in
  match defaultValue with
  | Bool _ => Returns (Bool true)
  | _ =>
      match value with
      | None | Some EmptyString => Throws (mustHaveValue name)
      | Some v => if Str.startsWith v "-" then Throws (mustHaveValue name) else Returns (Str v)
      end
  end.

(** The [forEach] of lines 26-48 over [names], on [argValues] and [argCount]. *)
Fixpoint readNames (names args : list string) (defaultValue : Value)
  (argValues : list Value) (argCount : nat) : Completion (list Value * nat) :=
  match names with
  | [] => Returns (argValues, argCount)
  | name :: rest =>
      match Arr.findIndex (fun arg => Str.startsWith arg name) args with
      | None => readNames rest args defaultValue argValues argCount
      | Some index =>
          match optionValue name args index defaultValue with
          | Throws e => Throws e
          | Returns value =>
              readNames rest args defaultValue
                (if Nat.eqb argCount 0 then [value] else concat argValues value)
                (S argCount)
          end
      end
  end.

(** [readOption], lines 22-61. *)
Definition readOption (names args : list string) (defaultValue : Value) : Completion Value :=
  match readNames names args defaultValue (concat [] defaultValue) 0 with
  | Throws e => Throws e
  | Returns (argValues, argCount) =>
      match defaultValue with
      | Arr _ => Returns (Arr argValues)
      | _ =>
          if Nat.eqb argCount 1 then Returns (nth 0 argValues Undefined)
          else
            match argCount, defaultValue with
            | 0, Null | 0, Undefined => Throws (isRequired names)
            | _, _ => Throws (onlyOneValue names)
            end
      end
  end.

(** How [main] ends: [process.exit(code)], an exception, or the call
    [generate(inputFileName, { dir, generatorName, cacheDir })] of line 90,
    which hands the options to [WireState.compile]. *)
Inductive MainResult : Type :=
| Exit (code : nat)
| Thrown (e : JsError)
| Compile (inputFileName : string) (dir generatorName cacheDir : Value).

Definition isHelp (arg : string) : bool :=
  String.eqb arg "--help" || String.eqb arg "-h".

(** [main], lines 67-91, on [process.argv.slice(2)]. *)
Definition main (args : list string) : MainResult :=
  if existsb isHelp args then Exit 0
  else
    let inputFileName := find (fun arg => negb (Str.startsWith arg "-")) args in
    match readOption ["--dir"] args (Str "") with
    | Throws e => Thrown e
    | Returns dir =>
        match readOption ["--generator"] args (Str "json") with
        | Throws e => Thrown e
        | Returns generatorName =>
            match readOption ["--cacheDir"] args (Str ".wirestate") with
            | Throws e => Thrown e
            | Returns cacheDir =>
                match inputFileName with
                | None | Some EmptyString => Exit 20
                | Some file => Compile file dir generatorName cacheDir
                end
            end
        end
    end.

End Cli.

(** ** [Path.join] on POSIX *)

(** [path.posix.join] of Node for two arguments, used by the examples; the
    theorems hold for every [path_join]. *)
Module Posix.

(** [normalizeString]: the segments kept, last one first in [kept]. *)
Fixpoint normalizeSegments (allowAboveRoot : bool) (kept segments : list string)
  : list string :=
  match segments with
  | [] => rev kept
  | segment :: rest =>
      if String.eqb segment "" || String.eqb segment "." then
        normalizeSegments allowAboveRoot kept rest
      else if String.eqb segment ".." then
        match kept with
        | last :: kept' =>
            if String.eqb last ".." then
              normalizeSegments allowAboveRoot
                (if allowAboveRoot then ".." :: kept else kept) rest
            else normalizeSegments allowAboveRoot kept' rest
        | [] =>
            normalizeSegments allowAboveRoot
              (if allowAboveRoot then [".."] else []) rest
        end
      else normalizeSegments allowAboveRoot (segment :: kept) rest
  end.

Definition endsWithSlash (path : string) : bool :=
  match rev (Str.split "/" path) with
  | EmptyString :: _ :: _ => true
  | _ => false
  end.

Definition normalize (path : string) : string :=
  if String.eqb path "" then "."
  else
    let isAbsolute := Str.startsWith path "/" in
    let trailingSeparator := endsWithSlash path in
    let body := Str.join "/" (normalizeSegments (negb isAbsolute) [] (Str.split "/" path)) in
    if String.eqb body "" then
      if isAbsolute then "/" else if trailingSeparator then "./" else "."
    else
      let body := if trailingSeparator then body +:+ "/" else body in
      if isAbsolute then "/" +:+ body else body.

Definition join (a b : string) : string :=
  let joined :=
    if String.eqb a "" then b
    else if String.eqb b "" then a
    else a +:+ "/" +:+ b in
  if String.eqb joined "" then "." else normalize joined.

End Posix.

(** ** Notions the theorems are stated with *)

Section Keys.

Context {A : Type} (key : A -> string).

(** The first node whose key comes again later in the list. *)
Fixpoint firstRepeated (nodes : list A) : option A :=
  match nodes with
  | [] => None
  | n :: r =>
      if existsb (fun m => String.eqb (key m) (key n)) r then Some n
      else firstRepeated r
  end.

End Keys.

(** [k] occurs at two positions of [keys]. *)
Fixpoint twice (k : string) (keys : list string) : bool :=
  match keys with
  | [] => false
  | x :: r => if String.eqb x k then existsb (fun y => String.eqb y k) r else twice k r
  end.

Definition transitionKey (transitionNode : TransitionNode) : string :=
  normalizeEventName (tn_event transitionNode).

Definition protocolKey (eventProtocolNode : EventProtocolNode) : string :=
  normalizeProtocolName (ep_eventName eventProtocolNode).

(** The number of children marked initial. *)
Definition initialCount (states : list StateNode) : nat :=
  length (List.filter sn_initial states).

(** Every state below and including [stateNode] that has children has exactly
    one child marked initial. *)
Fixpoint initialComplete (stateNode : StateNode) : bool :=
  match sn_states stateNode with
  | [] => true
  | _ :: _ => Nat.eqb (initialCount (sn_states stateNode)) 1
  end && forallb initialComplete (sn_states stateNode).

(** [scopeNode instanceof ScopeNode] *)
Definition isScopeNode (heap : gmap nat JsObject) (v : JsValue) : bool :=
  match v with
  | VObject address =>
      match heap !! address with
      | Some (ScopeNodeObject _) => true
      | _ => false
      end
  | _ => false
  end.

(** [machineId] names a machine of [scopeNode]. *)
Definition namesMachine (machineId : string) (scopeNode : ScopeNode) : Prop :=
  exists machineNode, In machineNode (sc_machines scopeNode) /\ mn_id machineNode = machineId.




(** [scopes] are the scopes the cache holds, fulfilled, for the imports of
    [scopeNode] under the file each import names as written. *)
Definition importedScopes (cache : option Cache.t) (scopeNode : ScopeNode)
  (scopes : list ScopeNode) : Prop :=
  Forall2 (fun importNode imported =>
             exists c, cache = Some c /\
                       Cache.get c (in_file importNode) = Some (Fulfilled imported))
          (sc_imports scopeNode) scopes.

Definition importsDirectly (c : Cache.t) (a b : ScopeNode) : Prop :=
  exists importNode,
    In importNode (sc_imports a) /\ Cache.get c (in_file importNode) = Some (Fulfilled b).

Inductive importsTransitively (c : Cache.t) : ScopeNode -> ScopeNode -> Prop :=
| imports_one a b : importsDirectly c a b -> importsTransitively c a b
| imports_more a b d :
    importsDirectly c a b -> importsTransitively c b d -> importsTransitively c a d.

(** The children as lines 372-376 (and 255-259) analyze them, after line 368
    (251) has marked the first one when none was marked. *)
Definition analyzeStates (host : Host) (cache : option Cache.t) (scopeNode : ScopeNode)
  (states : list StateNode) : list (Outcome StateNode) :=
  match states with
  | [] => []
  | first :: rest =>
      analyzeStateNode host cache scopeNode (marksFirst states) first
        :: map (analyzeStateNode host cache scopeNode false) rest
  end.

(** ** Examples *)

Module Sample.

Definition leaf (id : string) (kind : StateKind) (initial : bool) (line column : nat)
  : StateNode :=
  mkStateNode id kind initial [] [] [] None line column.

Definition appScope : ScopeNode := mkScopeNode "app.state" [] [].

(** Scenario S3 of the specification: state A with [x -> B] on lines 2 and 3. *)
Definition stateS3 : StateNode :=
  mkStateNode "A" Atomic true []
    [mkTransitionNode "x" "B" 2 3; mkTransitionNode "x" "B" 3 3] [] None 1 1.

(** A machine with the events "a,b" and "b, a" of scenario S4. *)
Definition machineS4 : MachineNode :=
  mkMachineNode "s4" [leaf "A" Atomic true 2 1; leaf "B" Atomic false 3 1]
    [mkTransitionNode "a,b" "B" 4 1; mkTransitionNode "b, a" "B" 5 1] [] 1 1.

(** Machine M on lines 1 and 7, machine N between them. *)
Definition scopeTwice : ScopeNode :=
  mkScopeNode "app.state" []
    [mkMachineNode "M" [] [] [] 1 1; mkMachineNode "N" [] [] [] 4 1;
     mkMachineNode "M" [] [] [] 7 1].

Definition emptyMachine : MachineNode := mkMachineNode "M" [] [] [] 1 1.

(** Two children marked initial that also share their ID. *)
Definition machineTwoInitialSameId : MachineNode :=
  mkMachineNode "M" [leaf "A" Atomic true 2 3; leaf "A" Atomic true 3 3] [] [] 1 1.

(** Children A*, B, C*. *)
Definition machineTwoInitial : MachineNode :=
  mkMachineNode "M"
    [leaf "A" Atomic true 2 3; leaf "B" Atomic false 3 3; leaf "C" Atomic true 4 3]
    [] [] 1 1.

(** Scenario S2 of the specification: A* with child B, then C. *)
Definition stateS2 : StateNode :=
  mkStateNode "A" Atomic true [leaf "B" Atomic false 2 3] [] [] None 1 1.

Definition machineS2 : MachineNode :=
  mkMachineNode "s2" [stateS2; leaf "C" Atomic false 3 1] [] [] 1 1.

Definition transientParent : StateNode :=
  mkStateNode "T" Transient false [leaf "B" Atomic false 2 3] [] [] None 1 1.

Definition noEntry : JsError := Error "ENOENT: no such file or directory" (Some "ENOENT").
Definition noAccess : JsError := Error "EACCES: permission denied" (Some "EACCES").

(** A file system with the regular file lib/m.state, the directory
    lib/dir.state and the unreadable directory locked. *)
Definition stat (fileName : string) : JsError + bool :=
  if String.eqb fileName "lib/m.state" then inr true
  else if String.eqb fileName "lib/dir.state" then inr false
  else if Str.startsWith fileName "locked/" then inl noAccess
  else inl noEntry.

Definition readFile (fileName : string) : JsError + string :=
  if String.eqb fileName "lib/m.state" then inr "@machine M" else inl noEntry.

(** Stands for the tokenizer and the parser: every text is read as one
    machine M without states. *)
Definition parse (fileName text : string) : JsError + ScopeNode :=
  inr (mkScopeNode fileName [] [mkMachineNode "M" [] [] [] 1 1]).

Definition host : Host := mkHost Posix.join stat readFile parse (fun _ => true).

(** What [parse] reads from lib/m.state, analyzed. *)
Definition scopeM : ScopeNode :=
  mkScopeNode "lib/m.state" [] [mkMachineNode "M" [] [] [] 1 1].

(** a.state includes b.state, b.state includes c.state, c.state has machine
    M; state S of a.state carries [@use M]. *)
Definition scopeC : ScopeNode :=
  mkScopeNode "c.state" [] [mkMachineNode "M" [] [] [] 1 1].

Definition scopeB : ScopeNode :=
  mkScopeNode "b.state" [mkImportNode "c.state" (Some "c.state") 1 1] [].

Definition scopeA : ScopeNode :=
  mkScopeNode "a.state" [mkImportNode "b.state" (Some "b.state") 1 1]
    [mkMachineNode "Main" [] [] [] 2 1].

Definition cacheABC : gmap string (Outcome ScopeNode) :=
  <["c.state" := Fulfilled scopeC]> (<["b.state" := Fulfilled scopeB]> ∅).

(** Backends that leave the cache alone. *)
Definition backends : Generator.Backends (gmap string (Outcome ScopeNode)) :=
  Generator.mkBackends _
    (fun cache => (cache, Fulfilled "{}"))
    (fun cache disableCallbacks => (cache, Fulfilled "export function wirestate () {}")).

Definition useM : UseDirectiveNode := mkUseDirectiveNode "M" 4 3.
Definition useMain : UseDirectiveNode := mkUseDirectiveNode "Main" 4 3.

(** a.state with a direct include of c.state as well. *)
Definition scopeA' : ScopeNode :=
  mkScopeNode "a.state"
    [mkImportNode "b.state" (Some "b.state") 1 1; mkImportNode "c.state" (Some "c.state") 2 1]
    [mkMachineNode "Main" [] [] [] 3 1].

End Sample.

(** ** What a fulfilled analysis accepts and returns *)

(** No key comes twice. *)
Fixpoint distinct (keys : list string) : bool :=
  match keys with
  | [] => true
  | k :: r => negb (existsb (fun y => String.eqb y k) r) && distinct r
  end.

Definition isFulfilled {A : Type} (p : Outcome A) : bool :=
  match p with
  | Fulfilled _ => true
  | _ => false
  end.

(** The five checks a machine and a state share, all passed. *)
Definition checksPass (host : Host) (states : list StateNode)
  (transitions : list TransitionNode) (eventProtocols : list EventProtocolNode) : bool :=
  distinct (map sn_id states)
  && distinct (map transitionKey transitions)
  && distinct (map protocolKey eventProtocols)
  && forallb (resolveState host) transitions
  && Nat.leb (initialCount states) 1.

(** Every check of [analyzeStateNode] passes on the state and below it. *)
Fixpoint accepted (host : Host) (cache : option Cache.t) (scopeNode : ScopeNode)
  (stateNode : StateNode) : bool :=
  negb (StateKind_eqb (sn_stateType stateNode) Transient
        && Nat.ltb 0 (length (sn_states stateNode)))
  && checksPass host (sn_states stateNode) (sn_transitions stateNode)
       (sn_eventProtocols stateNode)
  && isFulfilled (analyzeUseDirectiveNode cache scopeNode (sn_useDirective stateNode))
  && forallb (accepted host cache scopeNode) (sn_states stateNode).

Definition acceptedMachine (host : Host) (cache : option Cache.t) (scopeNode : ScopeNode)
  (machineNode : MachineNode) : bool :=
  checksPass host (mn_states machineNode) (mn_transitions machineNode)
    (mn_eventProtocols machineNode)
  && forallb (accepted host cache scopeNode) (mn_states machineNode).

(** The state with the kind of an atomic parent rewritten and the initial
    flags completed, on the state and below it. *)
Fixpoint completed (markedInitial : bool) (stateNode : StateNode) : StateNode :=
  mkStateNode (sn_id stateNode)
    (if StateKind_eqb (sn_stateType stateNode) Atomic
        && Nat.ltb 0 (length (sn_states stateNode))
     then Compound else sn_stateType stateNode)
    (markedInitial || sn_initial stateNode)
    match sn_states stateNode with
    | [] => []
    | first :: rest =>
        completed (marksFirst (sn_states stateNode)) first :: map (completed false) rest
    end
    (sn_transitions stateNode) (sn_eventProtocols stateNode)
    (sn_useDirective stateNode) (sn_line stateNode) (sn_column stateNode).

Definition completedStates (states : list StateNode) : list StateNode :=
  match states with
  | [] => []
  | first :: rest => completed (marksFirst states) first :: map (completed false) rest
  end.

Definition completedMachine (machineNode : MachineNode) : MachineNode :=
  mkMachineNode (mn_id machineNode) (completedStates (mn_states machineNode))
    (mn_transitions machineNode) (mn_eventProtocols machineNode)
    (mn_line machineNode) (mn_column machineNode).

(** The analysis of [stateNode] is fulfilled exactly when the state is
    accepted, and then with the completed state. *)
Definition specified (host : Host) (cache : option Cache.t) (scopeNode : ScopeNode)
  (stateNode : StateNode) : Prop :=
  forall markedInitial stateNode',
    analyzeStateNode host cache scopeNode markedInitial stateNode = Fulfilled stateNode' <->
    accepted host cache scopeNode stateNode = true /\
    stateNode' = completed markedInitial stateNode.



(** The parts of an event, trimmed, in the order written. *)
Definition eventParts (eventName : string) : list string :=
  map Str.trim (Str.split "," eventName).

(** ** Further examples *)

Module Cases.

(** Children B, C, B of a machine, on lines 2, 3 and 4. *)
Definition machineStateTwice : MachineNode :=
  mkMachineNode "M"
    [Sample.leaf "B" Atomic true 2 3; Sample.leaf "C" Atomic false 3 3;
     Sample.leaf "B" Atomic false 4 3] [] [] 1 1.

(** Event protocols "b , a" and "a,b" on lines 3 and 4. *)
Definition machineProtocolTwice : MachineNode :=
  mkMachineNode "M" [Sample.leaf "A" Atomic true 2 3] []
    [mkEventProtocolNode "b , a" 3 3; mkEventProtocolNode "a,b" 4 3] 1 1.



(** A host whose parser throws on every text. *)
Definition brokenHost : Host :=
  mkHost Posix.join Sample.stat Sample.readFile
    (fun fileName text => inl (SyntaxError "Unexpected token" fileName 1 1))
    (fun _ => true).


(** Machines A, B, B, A on lines 1, 3, 5 and 7. *)
Definition scopeTwoTwice : ScopeNode :=
  mkScopeNode "app.state" []
    [mkMachineNode "A" [] [] [] 1 1; mkMachineNode "B" [] [] [] 3 1;
     mkMachineNode "B" [] [] [] 5 1; mkMachineNode "A" [] [] [] 7 1].



(** b.state failed with a syntax error; c.state, which holds machine M, is
    analyzed. *)
Definition cacheBroken : gmap string (Outcome ScopeNode) :=
  <["c.state" := Fulfilled Sample.scopeC]>
    (<["b.state" := Rejected (SyntaxError "Unexpected token" "b.state" 3 1)]> ∅).

(** Only c.state is in the cache. *)
Definition cacheOnlyC : gmap string (Outcome ScopeNode) :=
  <["c.state" := Fulfilled Sample.scopeC]> ∅.

End Cases.

(** ** Lemmas on strings *)

Module StrFacts.
Import Str.

Lemma trimStart_head c r :
  isWhiteSpace c = false -> trimStart (String c r) = String c r.
Proof. intros H; simpl; now rewrite H. Qed.

Lemma trimEnd_cons c r :
  trimEnd (String c r) =
  match trimEnd r with
  | EmptyString => if isWhiteSpace c then EmptyString else String c EmptyString
  | r' => String c r'
  end.
Proof. reflexivity. Qed.

Lemma trimEnd_idem s : trimEnd (trimEnd s) = trimEnd s.
Proof.
  induction s as [|c r IH]; [reflexivity|].
  rewrite (trimEnd_cons c r).
  destruct (trimEnd r) as [|d r'] eqn:E.
  - destruct (isWhiteSpace c) eqn:W; [reflexivity|].
    rewrite trimEnd_cons. simpl. now rewrite W.
  - rewrite trimEnd_cons, IH. reflexivity.
Qed.

Lemma trimEnd_keeps_head c r :
  isWhiteSpace c = false -> exists r', trimEnd (String c r) = String c r'.
Proof.
  intros W; simpl. destruct (trimEnd r); [rewrite W|]; eauto.
Qed.

Lemma trimStart_shape s :
  trimStart s = EmptyString \/
  exists c r, trimStart s = String c r /\ isWhiteSpace c = false.
Proof.
  induction s as [|c r IH]; simpl; [now left|].
  destruct (isWhiteSpace c) eqn:W; [exact IH|right; eauto].
Qed.

Lemma trim_idem s : trim (trim s) = trim s.
Proof.
  unfold trim. destruct (trimStart_shape s) as [->|(c & r & -> & W)].
  - reflexivity.
  - destruct (trimEnd_keeps_head c r W) as [r' E].
    rewrite E, (trimStart_head _ _ W), <- E. apply trimEnd_idem.
Qed.

Lemma split_nonempty sep s : split sep s <> [].
Proof.
  destruct s as [|c r]; simpl; [discriminate|].
  destruct (Ascii.eqb c sep); [discriminate|].
  destruct (split sep r); discriminate.
Qed.

Lemma split_no_sep sep s : Forall (fun p => contains sep p = false) (split sep s).
Proof.
  induction s as [|c r IH]; simpl.
  - constructor; [reflexivity|constructor].
  - destruct (Ascii.eqb c sep) eqn:E.
    + constructor; [reflexivity|exact IH].
    + destruct (split sep r) as [|h t].
      * constructor; [simpl; now rewrite E|constructor].
      * inversion IH; subst. constructor; [simpl; now rewrite E|assumption].
Qed.

Lemma trimEnd_no_sep c s : contains c s = false -> contains c (trimEnd s) = false.
Proof.
  induction s as [|d r IH]; simpl; [reflexivity|].
  intros H. apply orb_false_iff in H as [Hd Hr]. specialize (IH Hr).
  destruct (trimEnd r) as [|e r'].
  - destruct (isWhiteSpace d); simpl; [reflexivity|now rewrite Hd].
  - simpl in *. now rewrite Hd.
Qed.

Lemma trimStart_no_sep c s : contains c s = false -> contains c (trimStart s) = false.
Proof.
  induction s as [|d r IH]; simpl; [reflexivity|].
  intros H. destruct (isWhiteSpace d); [|exact H].
  apply orb_false_iff in H as [_ Hr]. auto.
Qed.

Lemma trim_no_sep c s : contains c s = false -> contains c (trim s) = false.
Proof. intros H. unfold trim. now apply trimEnd_no_sep, trimStart_no_sep. Qed.

Lemma split_app_no_sep sep p s :
  contains sep p = false ->
  split sep (String.append p (String sep s)) = p :: split sep s.
Proof.
  induction p as [|c r IH]; simpl; intros H.
  - now rewrite Ascii.eqb_refl.
  - apply orb_false_iff in H as [Hc Hr]. rewrite Hc, (IH Hr). reflexivity.
Qed.

Lemma split_single sep p : contains sep p = false -> split sep p = [p].
Proof.
  induction p as [|c r IH]; simpl; intros H; [reflexivity|].
  apply orb_false_iff in H as [Hc Hr]. now rewrite Hc, (IH Hr).
Qed.

(** Splitting undoes joining when no part holds the separator. *)
Lemma split_join sep parts :
  parts <> [] ->
  Forall (fun p => contains sep p = false) parts ->
  split sep (join (String sep EmptyString) parts) = parts.
Proof.
  induction parts as [|p rest IH]; [congruence|].
  intros _ HF. inversion HF as [|? ? Hp Hrest]; subst.
  destruct rest as [|q rest'].
  - simpl. now apply split_single.
  - change (join (String sep EmptyString) (p :: q :: rest'))
      with (String.append p (String sep (join (String sep EmptyString) (q :: rest')))).
    rewrite (split_app_no_sep _ _ _ Hp), IH; [reflexivity|discriminate|assumption].
Qed.

Lemma insertSorted_In x l y : In y (insertSorted x l) <-> y = x \/ In y l.
Proof.
  induction l as [|z r IH]; simpl; [intuition|].
  destruct (String.leb x z); simpl; [intuition|]. rewrite IH. intuition.
Qed.

Lemma sort_In l y : In y (sort l) <-> In y l.
Proof.
  induction l as [|x r IH]; simpl; [reflexivity|].
  rewrite insertSorted_In, IH. intuition.
Qed.

Lemma sort_nonempty l : l <> [] -> sort l <> [].
Proof.
  destruct l as [|x r]; [congruence|]. intros _ E.
  assert (H : In x (sort (x :: r))) by (apply sort_In; now left).
  rewrite E in H. exact H.
Qed.

Lemma insertSorted_Sorted x l : Sorted leS l -> Sorted leS (insertSorted x l).
Proof.
  induction 1 as [|y r Hs IH Hhd]; simpl.
  - repeat constructor.
  - destruct (String.leb x y) eqn:E.
    + constructor; [constructor; assumption|constructor; exact E].
    + constructor; [exact IH|].
      assert (Hyx : leS y x).
      { destruct (String.leb_total x y) as [H|H]; [congruence|exact H]. }
      destruct r as [|z r']; simpl; [constructor; exact Hyx|].
      destruct (String.leb x z); constructor; [exact Hyx|].
      now inversion Hhd.
Qed.

Lemma sort_Sorted l : Sorted leS (sort l).
Proof.
  induction l as [|x r IH]; simpl; [constructor|now apply insertSorted_Sorted].
Qed.

(** Sorting a sorted list changes nothing. *)
Lemma sort_of_Sorted l : Sorted leS l -> sort l = l.
Proof.
  induction 1 as [|x r Hs IH Hhd]; simpl; [reflexivity|].
  rewrite IH. destruct Hhd as [|y r' Hxy]; simpl; [reflexivity|].
  unfold leS in Hxy. now rewrite Hxy.
Qed.

Lemma sort_idem l : sort (sort l) = sort l.
Proof. apply sort_of_Sorted, sort_Sorted. Qed.

Lemma map_trim_fixed l :
  Forall (fun p => trim p = p) l -> map trim l = l.
Proof. induction 1; simpl; congruence. Qed.

Lemma normalize_parts_fixed s :
  let parts := sort (map trim (split "," s)) in
  parts <> [] /\
  Forall (fun p => contains "," p = false) parts /\
  Forall (fun p => trim p = p) parts.
Proof.
  cbv zeta. split; [|split].
  - apply sort_nonempty. intros E. apply map_eq_nil in E.
    now apply split_nonempty in E.
  - apply List.Forall_forall. intros p Hp. apply sort_In, in_map_iff in Hp.
    destruct Hp as (q & <- & Hq). apply trim_no_sep.
    exact (proj1 (List.Forall_forall _ _) (split_no_sep _ s) q Hq).
  - apply List.Forall_forall. intros p Hp. apply sort_In, in_map_iff in Hp.
    destruct Hp as (q & <- & _). apply trim_idem.
Qed.

Lemma normalizeEventName_idem s :
  normalizeEventName (normalizeEventName s) = normalizeEventName s.
Proof.
  unfold normalizeEventName at 1 2.
  destruct (normalize_parts_fixed s) as (Hne & Hsep & Htrim).
  rewrite (split_join "," _ Hne Hsep), (map_trim_fixed _ Htrim), sort_idem.
  reflexivity.
Qed.

End StrFacts.

(** ** Duplicates *)

Module DupFacts.
Import Arr.

Lemma indexOf_None k keys :
  indexOf k keys = None <-> existsb (fun y => String.eqb y k) keys = false.
Proof.
  induction keys as [|x r IH]; simpl; [tauto|].
  destruct (String.eqb x k); simpl; [split; discriminate|].
  destruct (indexOf k r); simpl in *; [|tauto].
  split; [discriminate|]. intros H. apply IH in H. discriminate.
Qed.

Lemma lastIndexOf_None k keys :
  lastIndexOf k keys = None <-> existsb (fun y => String.eqb y k) keys = false.
Proof.
  induction keys as [|x r IH]; simpl; [tauto|].
  destruct (lastIndexOf k r); simpl.
  - split; [discriminate|]. intros H. apply orb_false_iff in H as [_ H].
    apply IH in H. discriminate.
  - destruct (String.eqb x k); simpl; [split; discriminate|]. tauto.
Qed.

Lemma differ_twice k keys :
  negb (sameIndex (indexOf k keys) (lastIndexOf k keys)) = twice k keys.
Proof.
  induction keys as [|x r IH]; simpl; [reflexivity|].
  destruct (String.eqb x k) eqn:E.
  - destruct (lastIndexOf k r) eqn:L; simpl.
    + destruct (existsb _ r) eqn:X; [reflexivity|].
      apply lastIndexOf_None in X. congruence.
    + apply lastIndexOf_None in L. now rewrite L.
  - rewrite <- IH.
    destruct (indexOf k r), (lastIndexOf k r); reflexivity.
Qed.

Lemma find_pointwise {A : Type} (p q : A -> bool) l :
  (forall x, p x = q x) -> find p l = find q l.
Proof.
  intros H. induction l as [|x r IH]; simpl; [reflexivity|].
  rewrite <- H, IH. reflexivity.
Qed.

Lemma find_filter_other (p : string -> bool) k l :
  p k = false ->
  find p (List.filter (fun x => negb (String.eqb x k)) l) = find p l.
Proof.
  intros Hk. induction l as [|x r IH]; simpl; [reflexivity|].
  destruct (String.eqb x k) eqn:E; simpl.
  - apply String.eqb_eq in E. subst x. now rewrite Hk.
  - destruct (p x); [reflexivity|exact IH].
Qed.

(** Walking the set of the keys finds what walking the keys finds. *)
Lemma find_setOf (p : string -> bool) keys : find p (setOf keys) = find p keys.
Proof.
  induction keys as [|k r IH]; simpl; [reflexivity|].
  destruct (p k) eqn:Hk; [reflexivity|].
  now rewrite find_filter_other.
Qed.

Lemma twice_app_fresh k pre l :
  existsb (fun y => String.eqb y k) pre = false -> twice k (pre ++ l) = twice k l.
Proof.
  induction pre as [|x r IH]; simpl; [reflexivity|].
  intros H. apply orb_false_iff in H as [Hx Hr]. rewrite Hx. auto.
Qed.

Lemma existsb_eqb_In k l :
  existsb (fun y => String.eqb y k) l = true <-> In k l.
Proof.
  rewrite existsb_exists. split.
  - intros (y & Hy & E). apply String.eqb_eq in E. now subst.
  - intros H. exists k. split; [exact H|apply String.eqb_refl].
Qed.

Lemma existsb_eqb_not_In k l :
  existsb (fun y => String.eqb y k) l = false <-> ~ In k l.
Proof.
  rewrite <- existsb_eqb_In. destruct (existsb _ l); split; congruence.
Qed.

Lemma find_twice pre l :
  (forall x, In x l -> ~ In x pre) ->
  find (fun k => twice k (pre ++ l)) l = firstRepeated (fun k => k) l.
Proof.
  revert pre. induction l as [|k r IH]; intros pre Hpre; simpl; [reflexivity|].
  rewrite twice_app_fresh by (apply existsb_eqb_not_In, Hpre; now left).
  simpl. rewrite String.eqb_refl.
  destruct (existsb (fun y => String.eqb y k) r) eqn:X; [reflexivity|].
  change (pre ++ k :: r) with (pre ++ [k] ++ r). rewrite app_assoc.
  apply IH. intros x Hx Hin. apply in_app_or in Hin as [Hin|[->|[]]].
  - apply (Hpre x); [now right|exact Hin].
  - apply existsb_eqb_not_In in X. contradiction.
Qed.

Section Nodes.

Context {A : Type} (key : A -> string).

Lemma existsb_map_key k (nodes : list A) :
  existsb (fun y => String.eqb y k) (map key nodes)
  = existsb (fun m => String.eqb (key m) k) nodes.
Proof. induction nodes as [|n r IH]; simpl; congruence. Qed.

Lemma firstRepeated_map (nodes : list A) :
  firstRepeated (fun k => k) (map key nodes) = option_map key (firstRepeated key nodes).
Proof.
  induction nodes as [|n r IH]; simpl; [reflexivity|].
  rewrite existsb_map_key. destruct (existsb _ r); [reflexivity|exact IH].
Qed.

(** What [firstRepeated] returns is a first occurrence that comes again, and
    no key of a node before it comes again anywhere. *)
Lemma firstRepeated_Some (nodes : list A) n :
  firstRepeated key nodes = Some n ->
  exists pre post,
    nodes = pre ++ n :: post /\
    In (key n) (map key post) /\
    ~ In (key n) (map key pre) /\
    List.NoDup (map key pre) /\
    (forall m, In m pre -> ~ In (key m) (map key (n :: post))).
Proof.
  induction nodes as [|m r IH]; simpl; [discriminate|].
  destruct (existsb (fun x => String.eqb (key x) (key m)) r) eqn:X.
  - intros [= <-]. exists [], r. split; [reflexivity|]. split.
    + rewrite <- existsb_map_key in X. now apply existsb_eqb_In in X.
    + split; [simpl; tauto|]. split; [constructor|intros x []].
  - intros H. destruct (IH H) as (pre & post & -> & Hin & Hnot & Hnd & Hdis).
    rewrite <- existsb_map_key in X. apply existsb_eqb_not_In in X.
    rewrite List.map_app in X.
    exists (m :: pre), post. split; [reflexivity|]. split; [exact Hin|]. split; [|split].
    + simpl. intros [E|Hp]; [|contradiction]. apply X, in_or_app. right. left. now rewrite E.
    + simpl. constructor; [|exact Hnd]. intros Hm. apply X, in_or_app. now left.
    + intros x [<-|Hx]; [|now apply Hdis].
      intros Hm. apply X, in_or_app. now right.
Qed.

(** There is one such place in a list: the conditions name the first node
    whose key comes again later. *)
Lemma first_again_unique (pre : list A) n post pre' n' post' :
  pre ++ n :: post = pre' ++ n' :: post' ->
  In (key n) (map key post) -> List.NoDup (map key pre) ->
  (forall m, In m pre -> ~ In (key m) (map key (n :: post))) ->
  In (key n') (map key post') -> List.NoDup (map key pre') ->
  (forall m, In m pre' -> ~ In (key m) (map key (n' :: post'))) ->
  pre = pre' /\ n = n' /\ post = post'.
Proof.
  revert pre'. induction pre as [|a r IH]; intros [|a' r']; simpl.
  - intros [= -> ->]. auto.
  - intros [= <- ->] Hin _ _ _ Hnd Hdis. exfalso.
    rewrite List.map_app in Hin. apply in_app_or in Hin as [Hin|Hin].
    + inversion Hnd. contradiction.
    + apply (Hdis n); [now left|exact Hin].
  - intros [= -> <-] _ Hnd Hdis Hin _ _. exfalso.
    rewrite List.map_app in Hin. apply in_app_or in Hin as [Hin|Hin].
    + inversion Hnd. contradiction.
    + apply (Hdis n'); [now left|exact Hin].
  - intros [= <- E] Hin Hnd Hdis Hin' Hnd' Hdis'.
    assert (N : List.NoDup (map key r)) by (inversion Hnd; assumption).
    assert (N' : List.NoDup (map key r')) by (inversion Hnd'; assumption).
    destruct (IH r' E Hin N (fun m Hm => Hdis m (or_intror Hm)) Hin' N'
                (fun m Hm => Hdis' m (or_intror Hm))) as (-> & -> & ->).
    auto.
Qed.

Lemma firstRepeated_None (nodes : list A) :
  firstRepeated key nodes = None <-> List.NoDup (map key nodes).
Proof.
  induction nodes as [|m r IH]; simpl; [split; [constructor|reflexivity]|].
  destruct (existsb (fun x => String.eqb (key x) (key m)) r) eqn:X;
    rewrite <- existsb_map_key in X.
  - apply existsb_eqb_In in X. split; [discriminate|].
    intros H. inversion H; contradiction.
  - apply existsb_eqb_not_In in X. rewrite IH. split.
    + intros H. now constructor.
    + intros H. now inversion H.
Qed.

Lemma find_first_with_key pre n post :
  ~ In (key n) (map key pre) ->
  find (fun m => String.eqb (key m) (key n)) (pre ++ n :: post) = Some n.
Proof.
  induction pre as [|m r IH]; simpl; intros H.
  - now rewrite String.eqb_refl.
  - destruct (String.eqb (key m) (key n)) eqn:E.
    + apply String.eqb_eq in E. exfalso. apply H. now left.
    + apply IH. intros Hin. apply H. now right.
Qed.

(** The loop of the analyzer finds the first node whose key comes again. *)
Lemma findDuplicate_spec (nodes : list A) :
  findDuplicate key nodes
  = option_map (fun n => (key n, Some n)) (firstRepeated key nodes).
Proof.
  unfold findDuplicate. rewrite find_setOf.
  rewrite (find_pointwise _ (fun k => twice k ([] ++ map key nodes)))
    by (intros k; apply differ_twice).
  rewrite find_twice by (intros x _ []).
  rewrite firstRepeated_map.
  destruct (firstRepeated key nodes) as [n|] eqn:F; simpl; [|reflexivity].
  destruct (firstRepeated_Some _ _ F) as (pre & post & -> & _ & Hnot & _).
  now rewrite find_first_with_key.
Qed.

Lemma duplicateError_spec (nodes : list A) (mkError : string -> A -> JsError) :
  duplicateError key nodes mkError
  = option_map (fun n => mkError (key n) n) (firstRepeated key nodes).
Proof.
  unfold duplicateError. rewrite findDuplicate_spec.
  now destruct (firstRepeated key nodes).
Qed.

Lemma duplicateError_None (nodes : list A) mkError :
  duplicateError key nodes mkError = None <-> List.NoDup (map key nodes).
Proof.
  rewrite duplicateError_spec, <- firstRepeated_None.
  destruct (firstRepeated key nodes); simpl; split; congruence.
Qed.

(** When some key comes twice the error is made for the first node whose key
    comes again later. *)
Lemma duplicateError_first (nodes : list A) mkError :
  ~ List.NoDup (map key nodes) ->
  exists pre n post,
    nodes = pre ++ n :: post /\
    ~ In (key n) (map key pre) /\
    In (key n) (map key post) /\
    List.NoDup (map key pre) /\
    (forall m, In m pre -> ~ In (key m) (map key (n :: post))) /\
    duplicateError key nodes mkError = Some (mkError (key n) n).
Proof.
  intros H. rewrite duplicateError_spec.
  destruct (firstRepeated key nodes) as [n|] eqn:F.
  - destruct (firstRepeated_Some _ _ F) as (pre & post & E & Hin & Hnot & Hnd & Hdis).
    exists pre, n, post. repeat split; assumption.
  - apply firstRepeated_None in F. contradiction.
Qed.

Lemma repeated_not_NoDup l1 a l2 b l3 :
  key a = key b -> ~ List.NoDup (map key (l1 ++ a :: l2 ++ b :: l3)).
Proof.
  intros E H. rewrite List.map_app in H. simpl in H.
  apply List.NoDup_remove_2 in H. apply H, in_or_app. right.
  apply in_map_iff. exists b. split; [now rewrite E|].
  apply in_or_app. right. now left.
Qed.

End Nodes.
End DupFacts.

(** ** Promises *)

Module PromiseFacts.

Lemma promiseAll_Fulfilled {A : Type} (ps : list (Outcome A)) vs :
  promiseAll ps = Fulfilled vs <-> ps = map Fulfilled vs.
Proof.
  unfold promiseAll. revert vs. induction ps as [|p r IH]; intros vs; simpl.
  - split; [intros [= <-]; reflexivity|]. destruct vs; [reflexivity|discriminate].
  - destruct p as [a|e|]; simpl.
    + destruct (firstRejected r) as [e|] eqn:R.
      * split; [discriminate|]. destruct vs as [|v vs']; [discriminate|].
        intros [= -> ->]. specialize (IH vs'). apply proj2 in IH.
        specialize (IH eq_refl). discriminate.
      * destruct (allFulfilled r) as [ws|] eqn:F; simpl.
        -- split.
           ++ intros [= <-]. simpl. f_equal. now apply IH.
           ++ destruct vs as [|v vs']; [discriminate|]. intros [= -> E].
              apply IH in E. congruence.
        -- split; [discriminate|]. destruct vs as [|v vs']; [discriminate|].
           intros [= -> E]. apply IH in E. discriminate.
    + split; [discriminate|]. destruct vs; discriminate.
    + split.
      * destruct (firstRejected r); discriminate.
      * destruct vs; discriminate.
Qed.

Lemma promiseAll_Rejected_In {A : Type} (ps : list (Outcome A)) e :
  promiseAll ps = Rejected e -> In (Rejected e) ps.
Proof.
  unfold promiseAll. destruct (firstRejected ps) as [e'|] eqn:R.
  - intros [= <-]. induction ps as [|p r IH]; simpl in *; [discriminate|].
    destruct p; [right; auto| |right; auto]. injection R as ->. now left.
  - destruct (allFulfilled ps); discriminate.
Qed.


End PromiseFacts.

(** ** Machines and states *)

Module NodeFacts.
Import PromiseFacts DupFacts.

(** Induction on a state with the hypothesis for all its children. *)
Lemma StateNode_children_ind (P : StateNode -> Prop) :
  (forall s, Forall P (sn_states s) -> P s) -> forall s, P s.
Proof.
  intros step.
  exact (fix go (s : StateNode) : P s :=
           step s
             ((fix all (l : list StateNode) : Forall P l :=
                 match l with
                 | [] => @List.Forall_nil _ P
                 | c :: r => @List.Forall_cons _ P c r (go c) (all r)
                 end) (sn_states s))).
Qed.

Section Facts.

Context (host : Host) (cache : option Cache.t) (scopeNode : ScopeNode).

Local Abbreviation analyzeState := (analyzeStateNode host cache scopeNode).
Local Abbreviation analyzeMachine := (analyzeMachineNode host cache scopeNode).

Lemma analyzeStateNode_eq markedInitial stateNode :
  analyzeState markedInitial stateNode =
  let states := sn_states stateNode in
  if StateKind_eqb (sn_stateType stateNode) Transient && Nat.ltb 0 (length states) then
    Rejected (SemanticError (Msg.transientWithChildren (sn_id stateNode))
      (sc_fileName scopeNode)
      (from_option sn_line 0 (head states)) (from_option sn_column 0 (head states)))
  else
    check (duplicateStateError scopeNode states) (
    check (duplicateTransitionError scopeNode (sn_transitions stateNode)) (
    check (duplicateEventProtocolError scopeNode (sn_eventProtocols stateNode)) (
    check (unresolvedTargetError host scopeNode (sn_transitions stateNode)) (
    check (manyInitialError scopeNode (Msg.manyInitialInState (sn_id stateNode)) states) (
    let/await states' := promiseAll (analyzeStates host cache scopeNode states) in
    let/await useDirective := analyzeUseDirectiveNode cache scopeNode (sn_useDirective stateNode) in
    Fulfilled (mkStateNode (sn_id stateNode)
                 (if StateKind_eqb (sn_stateType stateNode) Atomic && Nat.ltb 0 (length states)
                  then Compound else sn_stateType stateNode)
                 (markedInitial || sn_initial stateNode) states'
                 (sn_transitions stateNode) (sn_eventProtocols stateNode)
                 useDirective (sn_line stateNode) (sn_column stateNode))))))).
Proof. destruct stateNode; reflexivity. Qed.

Lemma analyzeMachineNode_eq machineNode :
  analyzeMachine machineNode =
  let states := mn_states machineNode in
  check (duplicateStateError scopeNode states) (
  check (duplicateTransitionError scopeNode (mn_transitions machineNode)) (
  check (duplicateEventProtocolError scopeNode (mn_eventProtocols machineNode)) (
  check (unresolvedTargetError host scopeNode (mn_transitions machineNode)) (
  check (manyInitialError scopeNode (Msg.manyInitialInMachine (mn_id machineNode)) states) (
  let/await states' := promiseAll (analyzeStates host cache scopeNode states) in
  Fulfilled (mkMachineNode (mn_id machineNode) states'
               (mn_transitions machineNode) (mn_eventProtocols machineNode)
               (mn_line machineNode) (mn_column machineNode))))))).
Proof. reflexivity. Qed.

Lemma check_Fulfilled {A : Type} (thrown : option JsError) (k : Outcome A) a :
  check thrown k = Fulfilled a -> thrown = None /\ k = Fulfilled a.
Proof. destruct thrown; simpl; [discriminate|auto]. Qed.

Lemma await_Fulfilled {A B : Type} (p : Outcome A) (k : A -> Outcome B) b :
  await p k = Fulfilled b -> exists a, p = Fulfilled a /\ k a = Fulfilled b.
Proof. destruct p; simpl; [eauto|discriminate|discriminate]. Qed.

(** What a fulfilled analysis of a state says about its parts. *)
Lemma analyzeStateNode_Fulfilled markedInitial stateNode stateNode' :
  analyzeState markedInitial stateNode = Fulfilled stateNode' ->
  (StateKind_eqb (sn_stateType stateNode) Transient && Nat.ltb 0 (length (sn_states stateNode))) = false /\
  duplicateStateError scopeNode (sn_states stateNode) = None /\
  duplicateTransitionError scopeNode (sn_transitions stateNode) = None /\
  duplicateEventProtocolError scopeNode (sn_eventProtocols stateNode) = None /\
  unresolvedTargetError host scopeNode (sn_transitions stateNode) = None /\
  manyInitialError scopeNode (Msg.manyInitialInState (sn_id stateNode)) (sn_states stateNode) = None /\
  promiseAll (analyzeStates host cache scopeNode (sn_states stateNode)) = Fulfilled (sn_states stateNode') /\
  sn_initial stateNode' = markedInitial || sn_initial stateNode /\
  sn_stateType stateNode' =
    (if StateKind_eqb (sn_stateType stateNode) Atomic && Nat.ltb 0 (length (sn_states stateNode))
     then Compound else sn_stateType stateNode).
Proof.
  rewrite analyzeStateNode_eq. cbv zeta.
  destruct (StateKind_eqb (sn_stateType stateNode) Transient && _) eqn:T; [discriminate|].
  intros H.
  apply check_Fulfilled in H as [H1 H]. apply check_Fulfilled in H as [H2 H].
  apply check_Fulfilled in H as [H3 H]. apply check_Fulfilled in H as [H4 H].
  apply check_Fulfilled in H as [H5 H].
  apply await_Fulfilled in H as (states' & Hs & H).
  apply await_Fulfilled in H as (ud & Hud & H).
  injection H as <-. simpl. repeat split; assumption.
Qed.

Lemma analyzeMachineNode_Fulfilled machineNode machineNode' :
  analyzeMachine machineNode = Fulfilled machineNode' ->
  duplicateStateError scopeNode (mn_states machineNode) = None /\
  duplicateTransitionError scopeNode (mn_transitions machineNode) = None /\
  duplicateEventProtocolError scopeNode (mn_eventProtocols machineNode) = None /\
  unresolvedTargetError host scopeNode (mn_transitions machineNode) = None /\
  manyInitialError scopeNode (Msg.manyInitialInMachine (mn_id machineNode)) (mn_states machineNode) = None /\
  promiseAll (analyzeStates host cache scopeNode (mn_states machineNode)) = Fulfilled (mn_states machineNode').
Proof.
  rewrite analyzeMachineNode_eq. cbv zeta. intros H.
  apply check_Fulfilled in H as [H1 H]. apply check_Fulfilled in H as [H2 H].
  apply check_Fulfilled in H as [H3 H]. apply check_Fulfilled in H as [H4 H].
  apply check_Fulfilled in H as [H5 H].
  apply await_Fulfilled in H as (states' & Hs & H).
  injection H as <-. simpl. repeat split; assumption.
Qed.

End Facts.
End NodeFacts.

Module AnalysisFacts.
Import PromiseFacts DupFacts NodeFacts.

Section Facts.

Context (host : Host) (cache : option Cache.t) (scopeNode : ScopeNode).

Local Abbreviation analyzeState := (analyzeStateNode host cache scopeNode).

Lemma duplicateStateError_None states :
  duplicateStateError scopeNode states = None <-> List.NoDup (map sn_id states).
Proof. apply duplicateError_None. Qed.

Lemma duplicateTransitionError_None transitions :
  duplicateTransitionError scopeNode transitions = None
  <-> List.NoDup (map transitionKey transitions).
Proof. apply (duplicateError_None (fun t => normalizeEventName (tn_event t))). Qed.

Lemma duplicateEventProtocolError_None eventProtocols :
  duplicateEventProtocolError scopeNode eventProtocols = None
  <-> List.NoDup (map protocolKey eventProtocols).
Proof. apply (duplicateError_None (fun e => normalizeProtocolName (ep_eventName e))). Qed.

Lemma unresolvedTargetError_None transitions :
  unresolvedTargetError host scopeNode transitions = None
  <-> forallb (resolveState host) transitions = true.
Proof.
  unfold unresolvedTargetError.
  induction transitions as [|t r IH]; simpl; [tauto|].
  destruct (resolveState host t); simpl; [exact IH|split; discriminate].
Qed.

Lemma manyInitialError_None owner states :
  manyInitialError scopeNode owner states = None <-> initialCount states <= 1.
Proof.
  unfold manyInitialError, initialCount.
  destruct (Nat.ltb 1 (length (List.filter sn_initial states))) eqn:L.
  - apply Nat.ltb_lt in L.
    destruct (nth_error (List.filter sn_initial states) 1); split; try discriminate; lia.
  - apply Nat.ltb_ge in L. tauto.
Qed.

Lemma manyInitialError_second message states i1 i2 rest :
  List.filter sn_initial states = i1 :: i2 :: rest ->
  manyInitialError scopeNode message states =
  Some (SemanticError message (sc_fileName scopeNode) (sn_line i2) (sn_column i2)).
Proof. intros E. unfold manyInitialError. rewrite E. reflexivity. Qed.

Lemma existsb_initialCount states :
  existsb sn_initial states = false <-> initialCount states = 0.
Proof.
  unfold initialCount. induction states as [|s r IH]; simpl; [tauto|].
  destruct (sn_initial s); simpl; [split; discriminate|exact IH].
Qed.

Lemma initialCount_flags states :
  initialCount states = length (List.filter (fun b : bool => b) (map sn_initial states)).
Proof.
  unfold initialCount. induction states as [|s r IH]; simpl; [reflexivity|].
  destruct (sn_initial s); simpl; congruence.
Qed.

Lemma analyzed_rest_flags rest rest' :
  map (analyzeState false) rest = map Fulfilled rest' ->
  map sn_initial rest' = map sn_initial rest.
Proof.
  revert rest'. induction rest as [|c r IH]; intros [|c' r']; simpl; try discriminate.
  - reflexivity.
  - intros [= Hc Hr]. apply analyzeStateNode_Fulfilled in Hc.
    destruct Hc as (_ & _ & _ & _ & _ & _ & _ & Hi & _).
    rewrite Hi. simpl. f_equal. now apply IH.
Qed.

(** The flags of the children after a fulfilled analysis. *)
Lemma analyzeStates_flags states states' :
  promiseAll (analyzeStates host cache scopeNode states) = Fulfilled states' ->
  map sn_initial states' =
  match states with
  | [] => []
  | first :: rest => (marksFirst states || sn_initial first) :: map sn_initial rest
  end.
Proof.
  intros H. apply promiseAll_Fulfilled in H. destruct states as [|first rest].
  - destruct states'; [reflexivity|discriminate].
  - destruct states' as [|first' rest']; [discriminate|].
    cbn [analyzeStates map] in H. injection H as Hf Hr.
    apply analyzeStateNode_Fulfilled in Hf.
    destruct Hf as (_ & _ & _ & _ & _ & _ & _ & Hi & _).
    cbn [map]. rewrite Hi. f_equal. now apply analyzed_rest_flags.
Qed.

Lemma analyzeStates_length states states' :
  promiseAll (analyzeStates host cache scopeNode states) = Fulfilled states' ->
  length states' = length states.
Proof.
  intros H. apply analyzeStates_flags in H.
  apply (f_equal (@length bool)) in H. rewrite length_map in H. rewrite H.
  destruct states; simpl; [reflexivity|now rewrite length_map].
Qed.

(** One child is marked after a fulfilled analysis of the children. *)
Lemma analyzeStates_initialCount owner states states' :
  manyInitialError scopeNode owner states = None ->
  states <> [] ->
  promiseAll (analyzeStates host cache scopeNode states) = Fulfilled states' ->
  initialCount states' = 1.
Proof.
  intros Hmany Hne H. apply analyzeStates_flags in H.
  apply manyInitialError_None in Hmany.
  rewrite initialCount_flags, H. destruct states as [|first rest]; [congruence|].
  unfold marksFirst. cbn [length Nat.eqb negb andb].
  destruct (existsb sn_initial (first :: rest)) eqn:X.
  - cbn [negb orb]. change (sn_initial first :: map sn_initial rest)
      with (map sn_initial (first :: rest)).
    rewrite <- initialCount_flags.
    assert (initialCount (first :: rest) <> 0).
    { intros Z. apply existsb_initialCount in Z. congruence. }
    lia.
  - apply existsb_initialCount in X. rewrite initialCount_flags in X.
    cbn [negb orb]. simpl in X. simpl.
    destruct (sn_initial first); simpl in *; [discriminate|]. now rewrite X.
Qed.

Lemma analyzeStates_first_marked states first' rest' :
  initialCount states = 0 ->
  promiseAll (analyzeStates host cache scopeNode states) = Fulfilled (first' :: rest') ->
  sn_initial first' = true.
Proof.
  intros Z H. apply analyzeStates_flags in H.
  destruct states as [|first rest]; [discriminate|].
  apply existsb_initialCount in Z. unfold marksFirst in H. rewrite Z in H.
  cbn in H. now injection H.
Qed.

Lemma analyzeStates_children states states' :
  promiseAll (analyzeStates host cache scopeNode states) = Fulfilled states' ->
  Forall2 (fun c c' => exists b, analyzeState b c = Fulfilled c') states states'.
Proof.
  intros H. apply promiseAll_Fulfilled in H. destruct states as [|first rest].
  - destruct states'; [constructor|discriminate].
  - destruct states' as [|first' rest']; [discriminate|].
    cbn [analyzeStates map] in H. injection H as Hf Hr.
    constructor; [eauto|]. clear Hf. revert rest' Hr.
    induction rest as [|c r IH]; intros [|c' r']; simpl; try discriminate.
    + constructor.
    + intros [= Hc Hr]. constructor; [eauto|now apply IH].
Qed.

Lemma analyzeStates_complete states states' :
  Forall (fun c => forall b c', analyzeState b c = Fulfilled c' -> initialComplete c' = true) states ->
  promiseAll (analyzeStates host cache scopeNode states) = Fulfilled states' ->
  forallb initialComplete states' = true.
Proof.
  intros HF H. apply analyzeStates_children in H.
  induction H as [|c c' r r' (b & Hc) _ IH]; [reflexivity|].
  inversion HF as [|? ? Hhd Htl]; subst. simpl.
  rewrite (Hhd _ _ Hc). now apply IH.
Qed.

(** After a fulfilled analysis every state below has one initial child. *)
Lemma analyzeStateNode_complete stateNode :
  forall markedInitial stateNode',
    analyzeState markedInitial stateNode = Fulfilled stateNode' ->
    initialComplete stateNode' = true.
Proof.
  induction stateNode as [s IH] using StateNode_children_ind.
  intros b s' H. apply analyzeStateNode_Fulfilled in H.
  destruct H as (_ & _ & _ & _ & _ & Hmany & Hall & _).
  assert (Hsub : forallb initialComplete (sn_states s') = true)
    by (eapply analyzeStates_complete; eauto).
  assert (Hcount : sn_states s' = [] \/ initialCount (sn_states s') = 1).
  { destruct (sn_states s) as [|c r] eqn:E.
    - left. apply analyzeStates_length in Hall. now destruct (sn_states s').
    - right. eapply analyzeStates_initialCount; [exact Hmany|discriminate|exact Hall]. }
  destruct s' as [? ? ? states' ? ? ? ? ?]. cbn [sn_states] in *.
  cbn [initialComplete sn_states]. fold initialComplete.
  rewrite Hsub. destruct Hcount as [->|Hc]; [reflexivity|].
  destruct states'; [reflexivity|]. now rewrite Hc.
Qed.

End Facts.
End AnalysisFacts.

(** ** Event normalization and the uniqueness checks *)

Module CheckFacts.
Import DupFacts NodeFacts AnalysisFacts.

(** The guard of line 272 is passed when a transient state has no child. *)
Ltac pass_transient_guard stateNode Hkind :=
  let T := fresh "T" in
  assert (T : StateKind_eqb (sn_stateType stateNode) Transient
              && Nat.ltb 0 (length (sn_states stateNode)) = false)
    by (destruct (sn_stateType stateNode); try reflexivity;
        rewrite (Hkind eq_refl); reflexivity);
  rewrite T.

Section Facts.

Context (host : Host) (cache : option Cache.t) (scopeNode : ScopeNode).

Lemma normalizeProtocolName_eq e : normalizeProtocolName e = normalizeEventName e.
Proof. reflexivity. Qed.

(** A machine with unique state IDs and a repeated transition key. *)
Lemma machine_duplicate_transition machineNode :
  List.NoDup (map sn_id (mn_states machineNode)) ->
  ~ List.NoDup (map transitionKey (mn_transitions machineNode)) ->
  exists pre t post,
    mn_transitions machineNode = pre ++ t :: post /\
    ~ In (transitionKey t) (map transitionKey pre) /\
    In (transitionKey t) (map transitionKey post) /\
    List.NoDup (map transitionKey pre) /\
    (forall m, In m pre -> ~ In (transitionKey m) (map transitionKey (t :: post))) /\
    analyzeMachineNode host cache scopeNode machineNode =
    Rejected (SemanticError (Msg.duplicateTransition (tn_event t))
                (sc_fileName scopeNode) (tn_line t) (tn_column t)).
Proof.
  intros Hids Hdup. rewrite analyzeMachineNode_eq. cbv zeta.
  rewrite (proj2 (duplicateStateError_None scopeNode _) Hids).
  destruct (duplicateError_first transitionKey (mn_transitions machineNode)
              (fun _ n => SemanticError (Msg.duplicateTransition (tn_event n))
                            (sc_fileName scopeNode) (tn_line n) (tn_column n)) Hdup)
    as (pre & t & post & E & Hnot & Hin & Hnd & Hdis & Herr).
  exists pre, t, post. repeat split; try assumption.
  unfold duplicateTransitionError. fold transitionKey.
  change (fun transitionNode => normalizeEventName (tn_event transitionNode)) with transitionKey.
  rewrite Herr. reflexivity.
Qed.

(** A state that passes the transient check, with unique child IDs and a
    repeated transition key. *)
Lemma state_duplicate_transition markedInitial stateNode :
  (sn_stateType stateNode = Transient -> sn_states stateNode = []) ->
  List.NoDup (map sn_id (sn_states stateNode)) ->
  ~ List.NoDup (map transitionKey (sn_transitions stateNode)) ->
  exists pre t post,
    sn_transitions stateNode = pre ++ t :: post /\
    ~ In (transitionKey t) (map transitionKey pre) /\
    In (transitionKey t) (map transitionKey post) /\
    List.NoDup (map transitionKey pre) /\
    (forall m, In m pre -> ~ In (transitionKey m) (map transitionKey (t :: post))) /\
    analyzeStateNode host cache scopeNode markedInitial stateNode =
    Rejected (SemanticError (Msg.duplicateTransition (tn_event t))
                (sc_fileName scopeNode) (tn_line t) (tn_column t)).
Proof.
  intros Hkind Hids Hdup. rewrite analyzeStateNode_eq. cbv zeta.
  pass_transient_guard stateNode Hkind.
  rewrite (proj2 (duplicateStateError_None scopeNode _) Hids).
  destruct (duplicateError_first transitionKey (sn_transitions stateNode)
              (fun _ n => SemanticError (Msg.duplicateTransition (tn_event n))
                            (sc_fileName scopeNode) (tn_line n) (tn_column n)) Hdup)
    as (pre & t & post & E & Hnot & Hin & Hnd & Hdis & Herr).
  exists pre, t, post. repeat split; try assumption.
  unfold duplicateTransitionError.
  change (fun transitionNode => normalizeEventName (tn_event transitionNode)) with transitionKey.
  rewrite Herr. reflexivity.
Qed.

Lemma machine_many_initial machineNode i1 i2 rest :
  List.NoDup (map sn_id (mn_states machineNode)) ->
  List.NoDup (map transitionKey (mn_transitions machineNode)) ->
  List.NoDup (map protocolKey (mn_eventProtocols machineNode)) ->
  forallb (resolveState host) (mn_transitions machineNode) = true ->
  List.filter sn_initial (mn_states machineNode) = i1 :: i2 :: rest ->
  analyzeMachineNode host cache scopeNode machineNode =
  Rejected (SemanticError (Msg.manyInitialInMachine (mn_id machineNode))
              (sc_fileName scopeNode) (sn_line i2) (sn_column i2)).
Proof.
  intros H1 H2 H3 H4 H5. rewrite analyzeMachineNode_eq. cbv zeta.
  rewrite (proj2 (duplicateStateError_None scopeNode _) H1),
          (proj2 (duplicateTransitionError_None scopeNode _) H2),
          (proj2 (duplicateEventProtocolError_None scopeNode _) H3),
          (proj2 (unresolvedTargetError_None host scopeNode _) H4),
          (manyInitialError_second scopeNode _ _ _ _ _ H5).
  reflexivity.
Qed.

Lemma state_many_initial markedInitial stateNode i1 i2 rest :
  (sn_stateType stateNode = Transient -> sn_states stateNode = []) ->
  List.NoDup (map sn_id (sn_states stateNode)) ->
  List.NoDup (map transitionKey (sn_transitions stateNode)) ->
  List.NoDup (map protocolKey (sn_eventProtocols stateNode)) ->
  forallb (resolveState host) (sn_transitions stateNode) = true ->
  List.filter sn_initial (sn_states stateNode) = i1 :: i2 :: rest ->
  analyzeStateNode host cache scopeNode markedInitial stateNode =
  Rejected (SemanticError (Msg.manyInitialInState (sn_id stateNode))
              (sc_fileName scopeNode) (sn_line i2) (sn_column i2)).
Proof.
  intros Hkind H1 H2 H3 H4 H5. rewrite analyzeStateNode_eq. cbv zeta.
  pass_transient_guard stateNode Hkind.
  rewrite (proj2 (duplicateStateError_None scopeNode _) H1),
          (proj2 (duplicateTransitionError_None scopeNode _) H2),
          (proj2 (duplicateEventProtocolError_None scopeNode _) H3),
          (proj2 (unresolvedTargetError_None host scopeNode _) H4),
          (manyInitialError_second scopeNode _ _ _ _ _ H5).
  reflexivity.
Qed.

Lemma machine_fulfilled_initial machineNode machineNode' :
  analyzeMachineNode host cache scopeNode machineNode = Fulfilled machineNode' ->
  (mn_states machineNode <> [] -> initialCount (mn_states machineNode') = 1) /\
  (initialCount (mn_states machineNode) = 0 ->
   forall first rest, mn_states machineNode' = first :: rest -> sn_initial first = true) /\
  forallb initialComplete (mn_states machineNode') = true.
Proof.
  intros H. apply analyzeMachineNode_Fulfilled in H.
  destruct H as (_ & _ & _ & _ & Hmany & Hall). repeat split.
  - intros Hne. eapply analyzeStates_initialCount; eauto.
  - intros Z first rest E. rewrite E in Hall.
    eapply analyzeStates_first_marked; eauto.
  - eapply analyzeStates_complete; [|exact Hall].
    apply List.Forall_forall. intros c _. apply analyzeStateNode_complete.
Qed.

Lemma state_fulfilled_initial markedInitial stateNode stateNode' :
  analyzeStateNode host cache scopeNode markedInitial stateNode = Fulfilled stateNode' ->
  (sn_states stateNode <> [] -> initialCount (sn_states stateNode') = 1) /\
  (initialCount (sn_states stateNode) = 0 ->
   forall first rest, sn_states stateNode' = first :: rest -> sn_initial first = true) /\
  initialComplete stateNode' = true.
Proof.
  intros H. pose proof (analyzeStateNode_complete _ _ _ _ _ _ H) as Hc.
  apply analyzeStateNode_Fulfilled in H.
  destruct H as (_ & _ & _ & _ & _ & Hmany & Hall & _). repeat split.
  - intros Hne. eapply analyzeStates_initialCount; eauto.
  - intros Z first rest E. rewrite E in Hall.
    eapply analyzeStates_first_marked; eauto.
  - exact Hc.
Qed.

End Facts.
End CheckFacts.

Module ScopeFacts.
Import DupFacts.

Lemma scope_duplicate_machine host scopeNode cache dirs :
  ~ List.NoDup (map mn_id (sc_machines scopeNode)) ->
  exists pre n post,
    sc_machines scopeNode = pre ++ n :: post /\
    ~ In (mn_id n) (map mn_id pre) /\
    In (mn_id n) (map mn_id post) /\
    List.NoDup (map mn_id pre) /\
    (forall m, In m pre -> ~ In (mn_id m) (map mn_id (n :: post))) /\
    analyzeScopeNode host scopeNode cache dirs =
    (cache, Rejected (SemanticError (Msg.duplicateMachine (mn_id n))
                        (sc_fileName scopeNode) (mn_line n) (mn_column n))).
Proof.
  intros Hdup.
  destruct (duplicateError_first mn_id (sc_machines scopeNode)
              (fun machineId n => SemanticError (Msg.duplicateMachine machineId)
                                    (sc_fileName scopeNode) (mn_line n) (mn_column n)) Hdup)
    as (pre & n & post & E & Hnot & Hin & Hnd & Hdis & Herr).
  exists pre, n, post. repeat split; try assumption.
  unfold analyzeScopeNode, Open.analyzeScopeNode, Open.duplicateMachineError.
  rewrite Herr. reflexivity.
Qed.

End ScopeFacts.

(** ** The claims on normalization, duplicates, initial states and kinds *)

(** C2.  Normalizing an event (split on the comma, trim, sort, join) twice
    gives what normalizing once gives; "a,b" and "b, a" normalize to the
    same event; a machine or a state holding two transitions whose events
    normalize to the same string is rejected with the duplicate transition
    error (when the checks made before that one pass), and transitions whose
    normalized events differ pass the check; the event protocol check uses
    the same normalization. *)
Theorem normalization_idempotent_and_decides_duplicates :
  (forall s, normalizeEventName (normalizeEventName s) = normalizeEventName s) /\
  normalizeEventName "a,b" = normalizeEventName "b, a" /\
  (forall host cache scopeNode machineNode l1 t1 l2 t2 l3,
      mn_transitions machineNode = l1 ++ t1 :: l2 ++ t2 :: l3 ->
      normalizeEventName (tn_event t1) = normalizeEventName (tn_event t2) ->
      List.NoDup (map sn_id (mn_states machineNode)) ->
      exists t, In t (mn_transitions machineNode) /\
        analyzeMachineNode host cache scopeNode machineNode =
        Rejected (SemanticError (Msg.duplicateTransition (tn_event t))
                    (sc_fileName scopeNode) (tn_line t) (tn_column t))) /\
  (forall host cache scopeNode markedInitial stateNode l1 t1 l2 t2 l3,
      sn_transitions stateNode = l1 ++ t1 :: l2 ++ t2 :: l3 ->
      normalizeEventName (tn_event t1) = normalizeEventName (tn_event t2) ->
      (sn_stateType stateNode = Transient -> sn_states stateNode = []) ->
      List.NoDup (map sn_id (sn_states stateNode)) ->
      exists t, In t (sn_transitions stateNode) /\
        analyzeStateNode host cache scopeNode markedInitial stateNode =
        Rejected (SemanticError (Msg.duplicateTransition (tn_event t))
                    (sc_fileName scopeNode) (tn_line t) (tn_column t))) /\
  (forall scopeNode transitions,
      duplicateTransitionError scopeNode transitions = None <->
      List.NoDup (map (fun t => normalizeEventName (tn_event t)) transitions)) /\
  (forall scopeNode eventProtocols,
      duplicateEventProtocolError scopeNode eventProtocols = None <->
      List.NoDup (map (fun e => normalizeEventName (ep_eventName e)) eventProtocols)).
Proof.
  split; [exact StrFacts.normalizeEventName_idem|].
  split; [reflexivity|]. split; [|split; [|split]].
  - intros host cache scopeNode machineNode l1 t1 l2 t2 l3 E Hn Hids.
    destruct (CheckFacts.machine_duplicate_transition host cache scopeNode machineNode Hids)
      as (pre & t & post & Et & _ & _ & _ & _ & Hr).
    + rewrite E. now apply DupFacts.repeated_not_NoDup.
    + exists t. split; [|exact Hr]. rewrite Et. apply in_or_app. right. now left.
  - intros host cache scopeNode b stateNode l1 t1 l2 t2 l3 E Hn Hkind Hids.
    destruct (CheckFacts.state_duplicate_transition host cache scopeNode b stateNode Hkind Hids)
      as (pre & t & post & Et & _ & _ & _ & _ & Hr).
    + rewrite E. now apply DupFacts.repeated_not_NoDup.
    + exists t. split; [|exact Hr]. rewrite Et. apply in_or_app. right. now left.
  - intros scopeNode transitions.
    apply (AnalysisFacts.duplicateTransitionError_None scopeNode).
  - intros scopeNode eventProtocols.
    apply (AnalysisFacts.duplicateEventProtocolError_None scopeNode).
Qed.

(** The machine of scenario S4: its transitions "a,b" and "b, a" collide. *)
Lemma normalization_idempotent_and_decides_duplicates_witness :
  exists t, In t (mn_transitions Sample.machineS4) /\
    analyzeMachineNode Sample.host None Sample.appScope Sample.machineS4 =
    Rejected (SemanticError (Msg.duplicateTransition (tn_event t))
                (sc_fileName Sample.appScope) (tn_line t) (tn_column t)).
Proof.
  refine (proj1 (proj2 (proj2 normalization_idempotent_and_decides_duplicates))
            Sample.host None Sample.appScope Sample.machineS4
            [] (mkTransitionNode "a,b" "B" 4 1) [] (mkTransitionNode "b, a" "B" 5 1) []
            eq_refl eq_refl _).
  simpl. constructor; [|constructor; [|constructor]]; simpl; intuition discriminate.
Defined.

(** C3, as amended.  A scope in which a machine ID comes twice is rejected
    with a SemanticError located at the first machine whose ID comes again
    later: no machine before it shares its ID with any other machine of the
    scope.  A machine or a state holding two transitions with equal
    normalized events is, when the checks made before pass, rejected with a
    SemanticError located at the first transition whose normalized event
    comes again later.  The location is the one of a first occurrence, not
    of a second; the conditions leave one place (lemma
    [DupFacts.first_again_unique]). *)
Theorem duplicate_reported_at_first_occurrence :
  (forall host scopeNode cache dirs,
      ~ List.NoDup (map mn_id (sc_machines scopeNode)) ->
      exists pre n post,
        sc_machines scopeNode = pre ++ n :: post /\
        ~ In (mn_id n) (map mn_id pre) /\
        In (mn_id n) (map mn_id post) /\
        List.NoDup (map mn_id pre) /\
        (forall m, In m pre -> ~ In (mn_id m) (map mn_id (n :: post))) /\
        analyzeScopeNode host scopeNode cache dirs =
        (cache, Rejected (SemanticError (Msg.duplicateMachine (mn_id n))
                            (sc_fileName scopeNode) (mn_line n) (mn_column n)))) /\
  (forall host cache scopeNode machineNode,
      List.NoDup (map sn_id (mn_states machineNode)) ->
      ~ List.NoDup (map transitionKey (mn_transitions machineNode)) ->
      exists pre t post,
        mn_transitions machineNode = pre ++ t :: post /\
        ~ In (transitionKey t) (map transitionKey pre) /\
        In (transitionKey t) (map transitionKey post) /\
        List.NoDup (map transitionKey pre) /\
        (forall m, In m pre -> ~ In (transitionKey m) (map transitionKey (t :: post))) /\
        analyzeMachineNode host cache scopeNode machineNode =
        Rejected (SemanticError (Msg.duplicateTransition (tn_event t))
                    (sc_fileName scopeNode) (tn_line t) (tn_column t))) /\
  (forall host cache scopeNode markedInitial stateNode,
      (sn_stateType stateNode = Transient -> sn_states stateNode = []) ->
      List.NoDup (map sn_id (sn_states stateNode)) ->
      ~ List.NoDup (map transitionKey (sn_transitions stateNode)) ->
      exists pre t post,
        sn_transitions stateNode = pre ++ t :: post /\
        ~ In (transitionKey t) (map transitionKey pre) /\
        In (transitionKey t) (map transitionKey post) /\
        List.NoDup (map transitionKey pre) /\
        (forall m, In m pre -> ~ In (transitionKey m) (map transitionKey (t :: post))) /\
        analyzeStateNode host cache scopeNode markedInitial stateNode =
        Rejected (SemanticError (Msg.duplicateTransition (tn_event t))
                    (sc_fileName scopeNode) (tn_line t) (tn_column t))).
Proof.
  split; [|split].
  - intros. now apply ScopeFacts.scope_duplicate_machine.
  - intros. now apply CheckFacts.machine_duplicate_transition.
  - intros. now apply CheckFacts.state_duplicate_transition.
Qed.

(** With the machines A, B, B, A the theorem leaves machine A of line 1. *)
Lemma duplicate_reported_at_first_occurrence_witness :
  analyzeScopeNode Sample.host Cases.scopeTwoTwice None [] =
  (None, Rejected (SemanticError (Msg.duplicateMachine "A") "app.state" 1 1)).
Proof.
  destruct (proj1 duplicate_reported_at_first_occurrence Sample.host Cases.scopeTwoTwice None [])
    as (pre & n & post & E & _ & Hin & Hnd & Hdis & Hr).
  - simpl. intros H. inversion H as [|? ? Hnot _]. apply Hnot. simpl. auto.
  - destruct (DupFacts.first_again_unique mn_id pre n post []
                (mkMachineNode "A" [] [] [] 1 1)
                [mkMachineNode "B" [] [] [] 3 1; mkMachineNode "B" [] [] [] 5 1;
                 mkMachineNode "A" [] [] [] 7 1])
      as (_ & -> & _).
    + symmetry. exact E.
    + exact Hin.
    + exact Hnd.
    + exact Hdis.
    + simpl. auto.
    + constructor.
    + intros m [].
    + exact Hr.
Defined.

(** Against C3 as stated: machine M stands on lines 1 and 7 and the error
    names line 1; in scenario S3 the transitions on [x] stand on lines 2 and
    3 and the error names line 2. *)
Lemma duplicate_not_reported_at_second_occurrence :
  snd (analyzeScopeNode Sample.host Sample.scopeTwice None []) =
    Rejected (SemanticError (Msg.duplicateMachine "M") "app.state" 1 1) /\
  (forall message fileName,
      snd (analyzeScopeNode Sample.host Sample.scopeTwice None []) <>
      Rejected (SemanticError message fileName 7 1)) /\
  analyzeStateNode Sample.host None Sample.appScope false Sample.stateS3 =
    Rejected (SemanticError (Msg.duplicateTransition "x") "app.state" 2 3) /\
  (forall message fileName,
      analyzeStateNode Sample.host None Sample.appScope false Sample.stateS3 <>
      Rejected (SemanticError message fileName 3 3)).
Proof.
  split; [reflexivity|]. split; [intros m f; vm_compute; discriminate|].
  split; [reflexivity|]. intros m f; vm_compute; discriminate.
Qed.

(** C4, as amended.  For a machine or a state that passes the checks made
    before the one on initial children: when more than one child is marked
    initial the analysis is rejected with a SemanticError located at the
    second such child.  When the analysis is fulfilled: a node that has
    children has exactly one child marked initial, which is the first child
    when none was marked, and so has every state below it; a machine or a
    state without children has no initial child. *)
Theorem initial_child_rule :
  (forall host cache scopeNode machineNode i1 i2 rest,
      List.NoDup (map sn_id (mn_states machineNode)) ->
      List.NoDup (map transitionKey (mn_transitions machineNode)) ->
      List.NoDup (map protocolKey (mn_eventProtocols machineNode)) ->
      forallb (resolveState host) (mn_transitions machineNode) = true ->
      List.filter sn_initial (mn_states machineNode) = i1 :: i2 :: rest ->
      analyzeMachineNode host cache scopeNode machineNode =
      Rejected (SemanticError (Msg.manyInitialInMachine (mn_id machineNode))
                  (sc_fileName scopeNode) (sn_line i2) (sn_column i2))) /\
  (forall host cache scopeNode markedInitial stateNode i1 i2 rest,
      (sn_stateType stateNode = Transient -> sn_states stateNode = []) ->
      List.NoDup (map sn_id (sn_states stateNode)) ->
      List.NoDup (map transitionKey (sn_transitions stateNode)) ->
      List.NoDup (map protocolKey (sn_eventProtocols stateNode)) ->
      forallb (resolveState host) (sn_transitions stateNode) = true ->
      List.filter sn_initial (sn_states stateNode) = i1 :: i2 :: rest ->
      analyzeStateNode host cache scopeNode markedInitial stateNode =
      Rejected (SemanticError (Msg.manyInitialInState (sn_id stateNode))
                  (sc_fileName scopeNode) (sn_line i2) (sn_column i2))) /\
  (forall host cache scopeNode machineNode machineNode',
      analyzeMachineNode host cache scopeNode machineNode = Fulfilled machineNode' ->
      (mn_states machineNode <> [] -> initialCount (mn_states machineNode') = 1) /\
      (mn_states machineNode = [] -> mn_states machineNode' = []) /\
      (initialCount (mn_states machineNode) = 0 ->
       forall first rest, mn_states machineNode' = first :: rest -> sn_initial first = true) /\
      forallb initialComplete (mn_states machineNode') = true) /\
  (forall host cache scopeNode markedInitial stateNode stateNode',
      analyzeStateNode host cache scopeNode markedInitial stateNode = Fulfilled stateNode' ->
      (sn_states stateNode <> [] -> initialCount (sn_states stateNode') = 1) /\
      (sn_states stateNode = [] -> sn_states stateNode' = []) /\
      (initialCount (sn_states stateNode) = 0 ->
       forall first rest, sn_states stateNode' = first :: rest -> sn_initial first = true) /\
      initialComplete stateNode' = true).
Proof.
  split; [|split; [|split]].
  - intros. eapply CheckFacts.machine_many_initial; eauto.
  - intros. eapply CheckFacts.state_many_initial; eauto.
  - intros host cache scopeNode m m' H.
    destruct (CheckFacts.machine_fulfilled_initial _ _ _ _ _ H) as (H1 & H2 & H3).
    repeat split; try assumption.
    intros E. apply NodeFacts.analyzeMachineNode_Fulfilled in H.
    destruct H as (_ & _ & _ & _ & _ & Hall).
    apply AnalysisFacts.analyzeStates_length in Hall. rewrite E in Hall.
    now destruct (mn_states m').
  - intros host cache scopeNode b s s' H.
    destruct (CheckFacts.state_fulfilled_initial _ _ _ _ _ _ H) as (H1 & H2 & H3).
    repeat split; try assumption.
    intros E. apply NodeFacts.analyzeStateNode_Fulfilled in H.
    destruct H as (_ & _ & _ & _ & _ & _ & Hall & _).
    apply AnalysisFacts.analyzeStates_length in Hall. rewrite E in Hall.
    now destruct (sn_states s').
Qed.

(** Children A*, B, C*: the error stands at C.  Scenario S2: A becomes the
    initial child of the machine and B the initial child of A. *)
Lemma initial_child_rule_witness :
  analyzeMachineNode Sample.host None Sample.appScope Sample.machineTwoInitial =
    Rejected (SemanticError (Msg.manyInitialInMachine "M") "app.state" 4 3) /\
  (exists machineNode',
      analyzeMachineNode Sample.host None Sample.appScope Sample.machineS2 = Fulfilled machineNode' /\
      initialCount (mn_states machineNode') = 1 /\
      (forall first rest, mn_states machineNode' = first :: rest -> sn_id first = "A") /\
      forallb initialComplete (mn_states machineNode') = true).
Proof.
  split.
  - refine (proj1 initial_child_rule Sample.host None Sample.appScope Sample.machineTwoInitial
              (Sample.leaf "A" Atomic true 2 3) (Sample.leaf "C" Atomic true 4 3) []
              _ _ _ eq_refl eq_refl).
    + simpl. repeat constructor; simpl; intuition discriminate.
    + constructor.
    + constructor.
  - eexists. split; [reflexivity|].
    destruct (proj1 (proj2 (proj2 initial_child_rule))
                Sample.host None Sample.appScope Sample.machineS2 _ eq_refl)
      as (H1 & _ & _ & H4).
    split; [apply H1; discriminate|]. split; [|exact H4].
    intros first rest [= <- _]. reflexivity.
Defined.

(** Against C4 as stated.  A machine without states is analyzed without error
    and has no child marked initial, so not exactly one.  Two children that
    are both marked initial and share their ID are rejected by the check on
    state IDs, with an error at the first child (line 2), not at the second
    initial child (line 3). *)
Lemma initial_child_rule_as_stated_fails :
  (exists machineNode',
      analyzeMachineNode Sample.host None Sample.appScope Sample.emptyMachine
        = Fulfilled machineNode' /\
      initialCount (mn_states machineNode') <> 1) /\
  length (List.filter sn_initial (mn_states Sample.machineTwoInitialSameId)) = 2 /\
  analyzeMachineNode Sample.host None Sample.appScope Sample.machineTwoInitialSameId =
    Rejected (SemanticError (Msg.duplicateState "A") "app.state" 2 3) /\
  (forall message fileName,
      analyzeMachineNode Sample.host None Sample.appScope Sample.machineTwoInitialSameId <>
      Rejected (SemanticError message fileName 3 3)).
Proof.
  split; [eexists; split; [reflexivity|vm_compute; discriminate]|].
  split; [reflexivity|]. split; [reflexivity|].
  intros m f; vm_compute; discriminate.
Qed.

(** C5.  A transient state with at least one child is rejected with a
    SemanticError (located at its first child); when the analysis of a state
    is fulfilled, an atomic state with at least one child has become
    compound, and every other state has kept its kind. *)
Theorem state_kind_rule host cache scopeNode markedInitial stateNode :
  (sn_stateType stateNode = Transient ->
   forall first rest, sn_states stateNode = first :: rest ->
     analyzeStateNode host cache scopeNode markedInitial stateNode =
     Rejected (SemanticError (Msg.transientWithChildren (sn_id stateNode))
                 (sc_fileName scopeNode) (sn_line first) (sn_column first))) /\
  (forall stateNode',
      analyzeStateNode host cache scopeNode markedInitial stateNode = Fulfilled stateNode' ->
      (sn_stateType stateNode = Atomic -> sn_states stateNode <> [] ->
       sn_stateType stateNode' = Compound) /\
      (sn_stateType stateNode <> Atomic -> sn_stateType stateNode' = sn_stateType stateNode) /\
      (sn_states stateNode = [] -> sn_stateType stateNode' = sn_stateType stateNode)).
Proof.
  split.
  - intros K first rest E. rewrite NodeFacts.analyzeStateNode_eq. cbv zeta.
    rewrite K, E. reflexivity.
  - intros s' H. apply NodeFacts.analyzeStateNode_Fulfilled in H.
    destruct H as (_ & _ & _ & _ & _ & _ & _ & _ & K). rewrite K. repeat split.
    + intros A Hne. rewrite A. destruct (sn_states stateNode); [congruence|reflexivity].
    + intros A. destruct (sn_stateType stateNode); try reflexivity. congruence.
    + intros E. rewrite E. simpl. now rewrite andb_false_r.
Qed.

(** A transient state with a child is rejected; the atomic state A of
    scenario S2, which has the child B, is analyzed to a compound state. *)
Lemma state_kind_rule_witness :
  analyzeStateNode Sample.host None Sample.appScope false Sample.transientParent =
    Rejected (SemanticError (Msg.transientWithChildren "T") "app.state" 2 3) /\
  (exists stateNode',
      analyzeStateNode Sample.host None Sample.appScope false Sample.stateS2 = Fulfilled stateNode' /\
      sn_stateType stateNode' = Compound).
Proof.
  split.
  - exact (proj1 (state_kind_rule Sample.host None Sample.appScope false Sample.transientParent)
             eq_refl (Sample.leaf "B" Atomic false 2 3) [] eq_refl).
  - eexists. split; [reflexivity|].
    refine (proj1 (proj2 (state_kind_rule Sample.host None Sample.appScope false Sample.stateS2)
                     _ eq_refl) eq_refl _).
    discriminate.
Defined.

(** ** The use directive *)

Module UseFacts.
Import PromiseFacts.

Lemma hasMachine_names machineId scopeNode :
  hasMachine machineId scopeNode <> None <-> namesMachine machineId scopeNode.
Proof.
  unfold hasMachine, namesMachine. split.
  - destruct (find _ (sc_machines scopeNode)) as [m|] eqn:F; [|congruence].
    intros _. apply find_some in F as [Hin E]. apply String.eqb_eq in E. eauto.
  - intros (m & Hin & E) F.
    apply (find_none _ _ F) in Hin. rewrite E, String.eqb_refl in Hin. discriminate.
Qed.

Lemma hasMachine_None machineId scopeNode :
  hasMachine machineId scopeNode = None <-> ~ namesMachine machineId scopeNode.
Proof.
  rewrite <- hasMachine_names. destruct (hasMachine machineId scopeNode); split; try congruence.
  intros H. exfalso. apply H. discriminate.
Qed.

Lemma someImported_all machineId scopes :
  someImported machineId (map Some scopes) =
  inr (match find (fun sc => bool_decide (hasMachine machineId sc <> None)) scopes with
       | Some sc => hasMachine machineId sc
       | None => None
       end).
Proof.
  induction scopes as [|sc r IH]; simpl; [reflexivity|].
  destruct (hasMachine machineId sc) as [m|] eqn:E.
  - rewrite bool_decide_eq_true_2 by discriminate. now rewrite E.
  - rewrite bool_decide_eq_false_2 by congruence. exact IH.
Qed.

Lemma importedScopes_awaited c imports scopes :
  Forall2 (fun importNode imported =>
             Cache.get c (in_file importNode) = Some (Fulfilled imported)) imports scopes ->
  promiseAll (map (fun importNode => awaited (Cache.get c (in_file importNode))) imports)
  = Fulfilled (map Some scopes).
Proof.
  intros H. apply promiseAll_Fulfilled. rewrite map_map.
  induction H as [|i sc r r' Hi _ IH]; simpl; [reflexivity|].
  rewrite Hi, IH. reflexivity.
Qed.

Lemma importedScopes_cache cache scopeNode scopes c :
  importedScopes cache scopeNode scopes -> cache = Some c ->
  Forall2 (fun importNode imported =>
             Cache.get c (in_file importNode) = Some (Fulfilled imported))
          (sc_imports scopeNode) scopes.
Proof.
  unfold importedScopes. intros H ->.
  induction H as [|i sc r r' (c' & [= <-] & Hi) _ IH]; constructor; assumption.
Qed.

(** The directive when its scope holds no such machine and every import has
    a fulfilled entry in the cache. *)
Lemma use_in_imports cache scopeNode scopes u :
  importedScopes cache scopeNode scopes ->
  hasMachine (ud_machineId u) scopeNode = None ->
  analyzeUseDirectiveNode cache scopeNode (Some u) =
  if existsb (fun sc => bool_decide (hasMachine (ud_machineId u) sc <> None)) scopes
  then Fulfilled (Some u)
  else Rejected (SemanticError (Msg.machineNotFound (ud_machineId u))
                   (sc_fileName scopeNode) (ud_line u) (ud_column u)).
Proof.
  intros Himp Hown. unfold analyzeUseDirectiveNode. rewrite Hown.
  destruct (sc_imports scopeNode) as [|i r] eqn:E.
  - unfold importedScopes in Himp. rewrite E in Himp. inversion Himp. reflexivity.
  - assert (Hc : exists c, cache = Some c).
    { unfold importedScopes in Himp. rewrite E in Himp.
      inversion Himp as [|? ? ? ? (c & Hc & _)]. eauto. }
    destruct Hc as (c & ->).
    pose proof (importedScopes_cache _ _ _ c Himp eq_refl) as HF. rewrite E in HF.
    rewrite (importedScopes_awaited _ _ _ HF). cbn [await].
    rewrite someImported_all.
    induction scopes as [|sc rest _]; [inversion HF|]. clear.
    generalize (sc :: rest). intros l. induction l as [|x l IH]; simpl; [reflexivity|].
    destruct (hasMachine (ud_machineId u) x) eqn:Hx.
    + rewrite bool_decide_eq_true_2 by discriminate. simpl. now rewrite Hx.
    + rewrite bool_decide_eq_false_2 by congruence. simpl. exact IH.
Qed.

Lemma existsb_names machineId scopes :
  existsb (fun sc => bool_decide (hasMachine machineId sc <> None)) scopes = true
  <-> Exists (namesMachine machineId) scopes.
Proof.
  rewrite existsb_exists, List.Exists_exists. split.
  - intros (sc & Hin & H). apply bool_decide_eq_true_1 in H.
    exists sc. split; [exact Hin|now apply hasMachine_names].
  - intros (sc & Hin & H). exists sc. split; [exact Hin|].
    apply bool_decide_eq_true_2. now apply hasMachine_names.
Qed.

End UseFacts.

(** C6, as amended.  For a state carrying a use-directive: when the
    directive's machineId names a machine of the state's own scope the
    analysis of the directive is fulfilled; when every import of that scope
    has, under the file it names as written, a fulfilled promise in the
    cache, the analysis is fulfilled if and only if machineId names a machine
    of the own scope or of one of these directly imported scopes, and
    otherwise it is rejected with the SemanticError "Machine not found" at
    the location of the directive.  Scopes imported by imported scopes are
    not searched. *)
Theorem use_directive_resolution cache scopeNode u :
  (namesMachine (ud_machineId u) scopeNode ->
   analyzeUseDirectiveNode cache scopeNode (Some u) = Fulfilled (Some u)) /\
  (forall scopes,
      importedScopes cache scopeNode scopes ->
      (analyzeUseDirectiveNode cache scopeNode (Some u) = Fulfilled (Some u) <->
       namesMachine (ud_machineId u) scopeNode \/
       Exists (namesMachine (ud_machineId u)) scopes) /\
      (~ (namesMachine (ud_machineId u) scopeNode \/
          Exists (namesMachine (ud_machineId u)) scopes) ->
       analyzeUseDirectiveNode cache scopeNode (Some u) =
       Rejected (SemanticError (Msg.machineNotFound (ud_machineId u))
                   (sc_fileName scopeNode) (ud_line u) (ud_column u)))).
Proof.
  assert (Hown : namesMachine (ud_machineId u) scopeNode ->
                 analyzeUseDirectiveNode cache scopeNode (Some u) = Fulfilled (Some u)).
  { intros H. apply UseFacts.hasMachine_names in H. unfold analyzeUseDirectiveNode.
    destruct (hasMachine (ud_machineId u) scopeNode); [reflexivity|congruence]. }
  split; [exact Hown|]. intros scopes Himp.
  destruct (hasMachine (ud_machineId u) scopeNode) as [m|] eqn:E.
  - assert (Hn : namesMachine (ud_machineId u) scopeNode)
      by (apply UseFacts.hasMachine_names; congruence).
    split; [split; auto|]. intros H. exfalso. apply H. now left.
  - rewrite (UseFacts.use_in_imports _ _ _ _ Himp E).
    apply UseFacts.hasMachine_None in E.
    destruct (existsb _ scopes) eqn:X.
    + apply UseFacts.existsb_names in X. split; [split; auto|].
      intros H. exfalso. apply H. now right.
    + assert (Hno : ~ Exists (namesMachine (ud_machineId u)) scopes).
      { intros H. apply UseFacts.existsb_names in H. congruence. }
      split; [|reflexivity]. split; [discriminate|]. intros [H|H]; contradiction.
Qed.

(** The state of a.state that uses Main, a machine of a.state; and the one
    that uses M when a.state includes c.state as well. *)
Lemma use_directive_resolution_witness :
  analyzeUseDirectiveNode (Some Sample.cacheABC) Sample.scopeA (Some Sample.useMain)
    = Fulfilled (Some Sample.useMain) /\
  analyzeUseDirectiveNode (Some Sample.cacheABC) Sample.scopeA' (Some Sample.useM)
    = Fulfilled (Some Sample.useM).
Proof.
  split.
  - apply (proj1 (use_directive_resolution (Some Sample.cacheABC) Sample.scopeA Sample.useMain)).
    exists (mkMachineNode "Main" [] [] [] 2 1). split; [now left|reflexivity].
  - assert (Himp : importedScopes (Some Sample.cacheABC) Sample.scopeA'
                     [Sample.scopeB; Sample.scopeC]).
    { repeat constructor; exists Sample.cacheABC; split; reflexivity. }
    apply (proj1 (proj2 (use_directive_resolution (Some Sample.cacheABC) Sample.scopeA' Sample.useM)
                          [Sample.scopeB; Sample.scopeC] Himp)).
    right. apply List.Exists_cons_tl, List.Exists_cons_hd.
    exists (mkMachineNode "M" [] [] [] 1 1). split; [now left|reflexivity].
Defined.

(** Against C6 as stated: a.state includes b.state, which includes c.state,
    which holds machine M; both are analyzed and in the cache.  M is a
    machine of a transitively imported scope, and the directive [@use M] in
    a.state is rejected with "Machine not found". *)
Lemma use_directive_not_transitive :
  importsTransitively Sample.cacheABC Sample.scopeA Sample.scopeC /\
  namesMachine "M" Sample.scopeC /\
  analyzeUseDirectiveNode (Some Sample.cacheABC) Sample.scopeA (Some Sample.useM) =
  Rejected (SemanticError (Msg.machineNotFound "M") "a.state" 4 3).
Proof.
  split; [|split].
  - apply imports_more with Sample.scopeB; [|apply imports_one].
    + exists (mkImportNode "b.state" (Some "b.state") 1 1). split; [now left|reflexivity].
    + exists (mkImportNode "c.state" (Some "c.state") 1 1). split; [now left|reflexivity].
  - exists (mkMachineNode "M" [] [] [] 1 1). split; [now left|reflexivity].
  - reflexivity.
Qed.

(** ** Looking up an imported file *)

Module RequireFacts.
Import PromiseFacts.

Section Facts.

Context (host : Host).












Lemma firstRejected_In {A : Type} (ps : list (Outcome A)) e :
  In (Rejected e) ps -> exists e', firstRejected ps = Some e'.
Proof.
  induction ps as [|p r IH]; simpl; [tauto|].
  intros [->|H]; [eauto|]. destruct p; eauto.
Qed.


(** Without a cache the call never reaches line 88, whatever the analysis of
    an imported file would be. *)
Lemma requireWireStateFile_without_cache f g wireStateFile dirs :
  Open.requireWireStateFile host f wireStateFile None dirs
  = Open.requireWireStateFile host g wireStateFile None dirs.
Proof.
  unfold Open.requireWireStateFile.
  now destruct (Open.firstMatchedFileName host wireStateFile dirs).
Qed.

Lemma requireWireStateFile_no_cache_result f wireStateFile dirs :
  fst (Open.requireWireStateFile host f wireStateFile None dirs) = None /\
  forall v, snd (Open.requireWireStateFile host f wireStateFile None dirs) <> Fulfilled v.
Proof.
  unfold Open.requireWireStateFile.
  destruct (Open.firstMatchedFileName host wireStateFile dirs); simpl; split;
    try reflexivity; intros v; discriminate.
Qed.

Lemma analyzeImports_without_cache f g parent imports dirs :
  Open.analyzeImports host f parent imports None dirs
  = Open.analyzeImports host g parent imports None dirs /\
  fst (Open.analyzeImports host f parent imports None dirs) = None.
Proof.
  induction imports as [|i r [IH1 IH2]]; simpl; [split; reflexivity|].
  unfold Open.analyzeImportNode.
  rewrite (requireWireStateFile_without_cache f g).
  destruct (requireWireStateFile_no_cache_result g (Open.importedFile host parent i) dirs)
    as [-> _].
  rewrite IH1. split; [reflexivity|].
  rewrite <- IH1. destruct (Open.analyzeImports host f parent r None dirs); simpl in *.
  exact IH2.
Qed.

(** The analysis of an imported file does not depend on how the call of line
    95 is closed: it never gets there. *)
Lemma analyzeScopeNode_without_cache f g scopeNode dirs :
  Open.analyzeScopeNode host f scopeNode None dirs
  = Open.analyzeScopeNode host g scopeNode None dirs.
Proof.
  unfold Open.analyzeScopeNode.
  destruct (Open.duplicateMachineError scopeNode); [reflexivity|].
  now rewrite (proj1 (analyzeImports_without_cache f g scopeNode (sc_imports scopeNode) dirs)).
Qed.

Lemma analyzeImported_eq scopeNode dirs :
  analyzeImported host scopeNode dirs = snd (analyzeScopeNode host scopeNode None dirs).
Proof.
  unfold analyzeImported, analyzeScopeNode.
  now rewrite (analyzeScopeNode_without_cache _ (analyzeImported host)).
Qed.

End Facts.
End RequireFacts.

(** ** The claims on imports, the cache and [analyze] *)




(** C1, at the input that fails.  With the search directory lib and an empty
    cache, the import of m.state registers its promise under the key m.state
    and then reads the cache under lib/m.state: the promise returned carries
    [undefined], not the registered promise.  A second import of m.state finds
    the key m.state ([has] is true) and again reads lib/m.state, with the
    same result.  Without a cache, as in the analysis of an imported file,
    no import is ever registered and the lookup is never fulfilled. *)
Theorem cache_read_under_matched_file_name :
  exists registered,
    requireWireStateFile Sample.host "m.state" (Some ∅) ["lib"]
      = (Some registered, Fulfilled None) /\
    Cache.has registered "m.state" = true /\
    Cache.get registered "m.state" = Some (Fulfilled Sample.scopeM) /\
    Cache.get registered "lib/m.state" = None /\
    requireWireStateFile Sample.host "m.state" (Some registered) ["lib"]
      = (Some registered, Fulfilled None) /\
    (forall host wireStateFile dirs,
        fst (requireWireStateFile host wireStateFile None dirs) = None /\
        forall v, snd (requireWireStateFile host wireStateFile None dirs) <> Fulfilled v).
Proof.
  exists (<["m.state" := Fulfilled Sample.scopeM]> ∅).
  split; [reflexivity|]. split; [reflexivity|]. split; [reflexivity|].
  split; [reflexivity|]. split; [reflexivity|].
  intros host file dirs. apply RequireFacts.requireWireStateFile_no_cache_result.
Qed.

(** C10.  For an argument that is not a ScopeNode object [analyze] throws the
    error "Can only analyzie ScopeNode instances" to its caller, it returns
    no promise, and leaves the objects and the cache as they were.  For a
    ScopeNode object it returns a promise; the objects that existed, the
    argument among them, are unchanged, and a fulfilled promise carries a
    new object holding the analyzed tree. *)
Theorem analyze_guards_and_clones host heap v cache dirs :
  (isScopeNode heap v = false ->
   analyze host heap v cache dirs = (heap, cache, Throws (Error Msg.notAScopeNode None))) /\
  (forall address tree,
      v = VObject address ->
      heap !! address = Some (ScopeNodeObject tree) ->
      exists heap' promise,
        analyze host heap v cache dirs =
          (heap', fst (analyzeScopeNode host tree cache dirs), Returns promise) /\
        (forall other, other ∈ dom heap -> heap' !! other = heap !! other) /\
        heap' !! address = Some (ScopeNodeObject tree) /\
        match snd (analyzeScopeNode host tree cache dirs) with
        | Fulfilled tree' =>
            exists cloned,
              promise = Fulfilled cloned /\ (cloned ∉ dom heap) /\ (cloned <> address) /\
              heap' !! cloned = Some (ScopeNodeObject tree')
        | Rejected e => promise = Rejected e
        | Pending => promise = Pending
        end).
Proof.
  split.
  - unfold isScopeNode, analyze. destruct v; try reflexivity.
    destruct (heap !! address) as [[tree|]|]; [discriminate|reflexivity|reflexivity].
  - intros address tree -> Hobj. unfold analyze, clone. rewrite Hobj.
    pose proof (is_fresh (dom heap)) as Hfresh.
    set (cloned := fresh (dom heap)) in *.
    assert (Hin : address ∈ dom heap) by (apply elem_of_dom; eauto).
    assert (Hne : cloned <> address) by (intros E; rewrite E in Hfresh; contradiction).
    assert (Hold : forall other, other ∈ dom heap -> cloned <> other)
      by (intros other Ho E; rewrite E in Hfresh; contradiction).
    destruct (analyzeScopeNode host tree cache dirs) as [cache' [tree'|e|]]; simpl.
    + eexists _, _. split; [reflexivity|]. split; [|split].
      * intros other Ho. rewrite !lookup_insert_ne by (now apply Hold). reflexivity.
      * rewrite !lookup_insert_ne by exact Hne. exact Hobj.
      * exists cloned. repeat split; try assumption. apply lookup_insert_eq.
    + eexists _, _. split; [reflexivity|]. split; [|split; [|reflexivity]].
      * intros other Ho. rewrite lookup_insert_ne by (now apply Hold). reflexivity.
      * rewrite lookup_insert_ne by exact Hne. exact Hobj.
    + eexists _, _. split; [reflexivity|]. split; [|split; [|reflexivity]].
      * intros other Ho. rewrite lookup_insert_ne by (now apply Hold). reflexivity.
      * rewrite lookup_insert_ne by exact Hne. exact Hobj.
Qed.

(** A string is not a ScopeNode: [analyze] throws.  The object at address 0
    is the scope of scenario S2 within one machine: [analyze] returns. *)
Lemma analyze_guards_and_clones_witness :
  analyze Sample.host ∅ (VString "Home*") (Some ∅) [] =
    (∅, Some ∅, Throws (Error "Can only analyzie ScopeNode instances" None)) /\
  (exists heap' promise,
      analyze Sample.host {[0 := ScopeNodeObject Sample.scopeA]} (VObject 0) None [] =
        (heap', fst (analyzeScopeNode Sample.host Sample.scopeA None []), Returns promise) /\
      heap' !! 0 = Some (ScopeNodeObject Sample.scopeA)).
Proof.
  split.
  - exact (proj1 (analyze_guards_and_clones Sample.host ∅ (VString "Home*") (Some ∅) []) eq_refl).
  - assert (Hobj : ({[0 := ScopeNodeObject Sample.scopeA]} : gmap nat JsObject) !! 0
                   = Some (ScopeNodeObject Sample.scopeA)) by apply lookup_singleton_eq.
    destruct (proj2 (analyze_guards_and_clones Sample.host
                       {[0 := ScopeNodeObject Sample.scopeA]} (VObject 0) None [])
                0 Sample.scopeA eq_refl Hobj)
      as (heap' & promise & H1 & _ & H3 & _).
    exists heap', promise. split; assumption.
Defined.

(** ** The generator dispatcher *)

(** C8, as amended.  [generate] hands the cache to the json backend when the
    generator name is left out or is "json" and to the xstate backend when
    it is "xstate"; for the empty name it is rejected with the error
    "Generator name must be provided", and for every other name with the
    error that the generator is not found; in both failures the cache is
    the one it was given. *)
Theorem generate_dispatch {C : Type} (backends : Generator.Backends C) (cache : C)
  (disableCallbacks : option bool) :
  Generator.generate backends cache None disableCallbacks
    = Generator.jsonGenerator backends cache /\
  Generator.generate backends cache (Some "json") disableCallbacks
    = Generator.jsonGenerator backends cache /\
  Generator.generate backends cache (Some "xstate") disableCallbacks
    = Generator.xstateGenerator backends cache (default false disableCallbacks) /\
  Generator.generate backends cache (Some "") disableCallbacks
    = (cache, Rejected (Error "Generator name must be provided" None)) /\
  (forall generatorName,
      generatorName <> "json" -> generatorName <> "xstate" -> generatorName <> "" ->
      Generator.generate backends cache (Some generatorName) disableCallbacks
      = (cache, Rejected (Error ("Generator " +:+ dq +:+ generatorName +:+ dq +:+ " not found") None))).
Proof.
  repeat split; try reflexivity.
  intros name H1 H2 H3. unfold Generator.generate. cbn [default from_option id].
  apply String.eqb_neq in H1, H2, H3. now rewrite H3, H1, H2.
Qed.

Lemma generate_dispatch_witness :
  Generator.generate Sample.backends ∅ (Some "xstate-machine-esm") None
  = (∅, Rejected (Error ("Generator " +:+ dq +:+ "xstate-machine-esm" +:+ dq +:+ " not found") None)).
Proof.
  apply (proj2 (proj2 (proj2 (proj2
           (generate_dispatch Sample.backends ∅ None)))) "xstate-machine-esm");
    discriminate.
Defined.

(** Against C8 as stated: the empty generator name is neither "json" nor
    "xstate", and it is rejected by the guard of line 14 with "Generator name
    must be provided", not with the error that the generator is not found. *)
Lemma generate_empty_name_not_unknown :
  Generator.generate Sample.backends ∅ (Some "") None
    = (∅, Rejected Generator.nameMissing) /\
  Generator.nameMissing <> Generator.notFound "".
Proof. split; [reflexivity|discriminate]. Qed.

(** ** The command line *)

Module CliFacts.

Lemma findIndex_None {A : Type} (p : A -> bool) (l : list A) :
  (forall x, In x l -> p x = false) -> Arr.findIndex p l = None.
Proof.
  induction l as [|x r IH]; simpl; [reflexivity|]. intros H.
  rewrite (H x) by now left. rewrite IH; [reflexivity|]. intros y Hy. apply H. now right.
Qed.

(** An option whose name starts no argument and whose default is a string is
    not given its default: [readOption] throws. *)
Lemma readOption_absent name args defaultValue :
  (forall arg, In arg args -> Str.startsWith arg name = false) ->
  Cli.readOption [name] args (Cli.Str defaultValue) = Throws (Cli.onlyOneValue [name]).
Proof.
  intros H. unfold Cli.readOption. cbn [Cli.readNames].
  now rewrite (findIndex_None _ _ H).
Qed.

End CliFacts.

(** C9, where the code fails.  The script reads the option [--dir], not
    [--srcDir]; when no argument starts with [--dir] (and none asks for help)
    [main] throws "Option --dir only allows one value": it neither takes the
    directory given with [--srcDir] nor falls back to a default. *)
Theorem srcDir_option_is_not_read args :
  existsb Cli.isHelp args = false ->
  (forall arg, In arg args -> Str.startsWith arg "--dir" = false) ->
  Cli.main args = Cli.Thrown (Error "Option --dir only allows one value" None).
Proof.
  intros Hhelp Hdir. unfold Cli.main. rewrite Hhelp.
  now rewrite (CliFacts.readOption_absent "--dir" args "" Hdir).
Qed.

(** The command lines with [--srcDir statechart], with
    [--srcDir=statechart] and with no directory option. *)
Lemma srcDir_option_is_not_read_witness :
  Cli.main ["App.wirestate"; "--srcDir"; "statechart"; "--generator"; "json"; "--cacheDir"; ".wirestate"]
    = Cli.Thrown (Error "Option --dir only allows one value" None) /\
  Cli.main ["App.wirestate"; "--srcDir=statechart"; "--generator"; "json"; "--cacheDir"; ".wirestate"]
    = Cli.Thrown (Error "Option --dir only allows one value" None) /\
  Cli.main ["App.wirestate"; "--generator"; "json"; "--cacheDir"; ".wirestate"]
    = Cli.Thrown (Error "Option --dir only allows one value" None).
Proof.
  split; [|split]; apply srcDir_option_is_not_read; try reflexivity;
    intros arg Hin; simpl in Hin;
    repeat (destruct Hin as [<-|Hin]; [reflexivity|]); destruct Hin.
Defined.

(** ** Further properties of the node checks *)

Module MoreCheckFacts.
Import DupFacts PromiseFacts NodeFacts AnalysisFacts CheckFacts.

Lemma distinct_NoDup keys : distinct keys = true <-> List.NoDup keys.
Proof.
  induction keys as [|k r IH]; simpl; [split; [constructor|reflexivity]|].
  rewrite andb_true_iff, negb_true_iff, existsb_eqb_not_In, IH. split.
  - intros [H1 H2]. now constructor.
  - intros H. inversion H. auto.
Qed.

Section Facts.

Context (host : Host) (cache : option Cache.t) (scopeNode : ScopeNode).


Lemma checksPass_iff states transitions eventProtocols :
  checksPass host states transitions eventProtocols = true <->
  duplicateStateError scopeNode states = None /\
  duplicateTransitionError scopeNode transitions = None /\
  duplicateEventProtocolError scopeNode eventProtocols = None /\
  unresolvedTargetError host scopeNode transitions = None /\
  (forall message, manyInitialError scopeNode message states = None).
Proof.
  unfold checksPass. rewrite !andb_true_iff, !distinct_NoDup, Nat.leb_le.
  rewrite (duplicateStateError_None scopeNode), (duplicateTransitionError_None scopeNode),
    (duplicateEventProtocolError_None scopeNode), (unresolvedTargetError_None host scopeNode).
  split.
  - intros ((((H1 & H2) & H3) & H4) & H5). repeat split; try assumption.
    intros message. now apply manyInitialError_None.
  - intros (H1 & H2 & H3 & H4 & H5). repeat split; try assumption.
    now apply (manyInitialError_None scopeNode EmptyString).
Qed.

End Facts.
End MoreCheckFacts.

Module MoreNodeFacts.
Import DupFacts PromiseFacts NodeFacts AnalysisFacts CheckFacts MoreCheckFacts.

Section Facts.

Context (host : Host) (cache : option Cache.t) (scopeNode : ScopeNode).

Lemma machine_duplicate_state machineNode :
  ~ List.NoDup (map sn_id (mn_states machineNode)) ->
  exists pre n post,
    mn_states machineNode = pre ++ n :: post /\
    ~ In (sn_id n) (map sn_id pre) /\
    In (sn_id n) (map sn_id post) /\
    List.NoDup (map sn_id pre) /\
    (forall m, In m pre -> ~ In (sn_id m) (map sn_id (n :: post))) /\
    analyzeMachineNode host cache scopeNode machineNode =
    Rejected (SemanticError (Msg.duplicateState (sn_id n))
                (sc_fileName scopeNode) (sn_line n) (sn_column n)).
Proof.
  intros Hdup. rewrite analyzeMachineNode_eq. cbv zeta.
  destruct (duplicateError_first sn_id (mn_states machineNode)
              (fun stateId n => SemanticError (Msg.duplicateState stateId)
                                  (sc_fileName scopeNode) (sn_line n) (sn_column n)) Hdup)
    as (pre & n & post & E & Hnot & Hin & Hnd & Hdis & Herr).
  exists pre, n, post. repeat split; try assumption.
  unfold duplicateStateError. rewrite Herr. reflexivity.
Qed.

Lemma state_duplicate_state markedInitial stateNode :
  (sn_stateType stateNode = Transient -> sn_states stateNode = []) ->
  ~ List.NoDup (map sn_id (sn_states stateNode)) ->
  exists pre n post,
    sn_states stateNode = pre ++ n :: post /\
    ~ In (sn_id n) (map sn_id pre) /\
    In (sn_id n) (map sn_id post) /\
    List.NoDup (map sn_id pre) /\
    (forall m, In m pre -> ~ In (sn_id m) (map sn_id (n :: post))) /\
    analyzeStateNode host cache scopeNode markedInitial stateNode =
    Rejected (SemanticError (Msg.duplicateState (sn_id n))
                (sc_fileName scopeNode) (sn_line n) (sn_column n)).
Proof.
  intros Hkind Hdup. rewrite analyzeStateNode_eq. cbv zeta.
  pass_transient_guard stateNode Hkind.
  destruct (duplicateError_first sn_id (sn_states stateNode)
              (fun stateId n => SemanticError (Msg.duplicateState stateId)
                                  (sc_fileName scopeNode) (sn_line n) (sn_column n)) Hdup)
    as (pre & n & post & E & Hnot & Hin & Hnd & Hdis & Herr).
  exists pre, n, post. repeat split; try assumption.
  unfold duplicateStateError. rewrite Herr. reflexivity.
Qed.

Lemma protocol_error_first eventProtocols :
  ~ List.NoDup (map protocolKey eventProtocols) ->
  exists pre p post,
    eventProtocols = pre ++ p :: post /\
    ~ In (protocolKey p) (map protocolKey pre) /\
    In (protocolKey p) (map protocolKey post) /\
    List.NoDup (map protocolKey pre) /\
    (forall m, In m pre -> ~ In (protocolKey m) (map protocolKey (p :: post))) /\
    duplicateEventProtocolError scopeNode eventProtocols =
    Some (SemanticError (Msg.duplicateEventProtocol (ep_eventName p))
            (sc_fileName scopeNode) (ep_line p) (ep_column p)).
Proof.
  intros Hdup.
  destruct (duplicateError_first protocolKey eventProtocols
              (fun _ n => SemanticError (Msg.duplicateEventProtocol (ep_eventName n))
                            (sc_fileName scopeNode) (ep_line n) (ep_column n)) Hdup)
    as (pre & n & post & E & Hnot & Hin & Hnd & Hdis & Herr).
  exists pre, n, post. repeat split; assumption.
Qed.

Lemma machine_duplicate_protocol machineNode :
  List.NoDup (map sn_id (mn_states machineNode)) ->
  List.NoDup (map transitionKey (mn_transitions machineNode)) ->
  ~ List.NoDup (map protocolKey (mn_eventProtocols machineNode)) ->
  exists pre p post,
    mn_eventProtocols machineNode = pre ++ p :: post /\
    ~ In (protocolKey p) (map protocolKey pre) /\
    In (protocolKey p) (map protocolKey post) /\
    List.NoDup (map protocolKey pre) /\
    (forall m, In m pre -> ~ In (protocolKey m) (map protocolKey (p :: post))) /\
    analyzeMachineNode host cache scopeNode machineNode =
    Rejected (SemanticError (Msg.duplicateEventProtocol (ep_eventName p))
                (sc_fileName scopeNode) (ep_line p) (ep_column p)).
Proof.
  intros H1 H2 Hdup. rewrite analyzeMachineNode_eq. cbv zeta.
  rewrite (proj2 (duplicateStateError_None scopeNode _) H1),
          (proj2 (duplicateTransitionError_None scopeNode _) H2).
  destruct (protocol_error_first _ Hdup) as (pre & p & post & E & Hnot & Hin & Hnd & Hdis & Herr).
  exists pre, p, post. repeat split; try assumption. now rewrite Herr.
Qed.

Lemma state_duplicate_protocol markedInitial stateNode :
  (sn_stateType stateNode = Transient -> sn_states stateNode = []) ->
  List.NoDup (map sn_id (sn_states stateNode)) ->
  List.NoDup (map transitionKey (sn_transitions stateNode)) ->
  ~ List.NoDup (map protocolKey (sn_eventProtocols stateNode)) ->
  exists pre p post,
    sn_eventProtocols stateNode = pre ++ p :: post /\
    ~ In (protocolKey p) (map protocolKey pre) /\
    In (protocolKey p) (map protocolKey post) /\
    List.NoDup (map protocolKey pre) /\
    (forall m, In m pre -> ~ In (protocolKey m) (map protocolKey (p :: post))) /\
    analyzeStateNode host cache scopeNode markedInitial stateNode =
    Rejected (SemanticError (Msg.duplicateEventProtocol (ep_eventName p))
                (sc_fileName scopeNode) (ep_line p) (ep_column p)).
Proof.
  intros Hkind H1 H2 Hdup. rewrite analyzeStateNode_eq. cbv zeta.
  pass_transient_guard stateNode Hkind.
  rewrite (proj2 (duplicateStateError_None scopeNode _) H1),
          (proj2 (duplicateTransitionError_None scopeNode _) H2).
  destruct (protocol_error_first _ Hdup) as (pre & p & post & E & Hnot & Hin & Hnd & Hdis & Herr).
  exists pre, p, post. repeat split; try assumption. now rewrite Herr.
Qed.



End Facts.
End MoreNodeFacts.

(** X1.  A machine two of whose states share an ID is rejected with the
    SemanticError "Duplicate state", located at the first state whose ID
    comes again later (no state before it shares its ID with any other
    child); so is a state, once it has passed the check on transient
    states. *)
Theorem duplicate_state_id_rule :
  (forall host cache scopeNode machineNode,
      ~ List.NoDup (map sn_id (mn_states machineNode)) ->
      exists pre n post,
        mn_states machineNode = pre ++ n :: post /\
        ~ In (sn_id n) (map sn_id pre) /\
        In (sn_id n) (map sn_id post) /\
        List.NoDup (map sn_id pre) /\
        (forall m, In m pre -> ~ In (sn_id m) (map sn_id (n :: post))) /\
        analyzeMachineNode host cache scopeNode machineNode =
        Rejected (SemanticError (Msg.duplicateState (sn_id n))
                    (sc_fileName scopeNode) (sn_line n) (sn_column n))) /\
  (forall host cache scopeNode markedInitial stateNode,
      (sn_stateType stateNode = Transient -> sn_states stateNode = []) ->
      ~ List.NoDup (map sn_id (sn_states stateNode)) ->
      exists pre n post,
        sn_states stateNode = pre ++ n :: post /\
        ~ In (sn_id n) (map sn_id pre) /\
        In (sn_id n) (map sn_id post) /\
        List.NoDup (map sn_id pre) /\
        (forall m, In m pre -> ~ In (sn_id m) (map sn_id (n :: post))) /\
        analyzeStateNode host cache scopeNode markedInitial stateNode =
        Rejected (SemanticError (Msg.duplicateState (sn_id n))
                    (sc_fileName scopeNode) (sn_line n) (sn_column n))).
Proof.
  split; intros.
  - now apply MoreNodeFacts.machine_duplicate_state.
  - now apply MoreNodeFacts.state_duplicate_state.
Qed.

Lemma duplicate_state_id_rule_witness :
  exists pre n post,
    mn_states Cases.machineStateTwice = pre ++ n :: post /\
    ~ In (sn_id n) (map sn_id pre) /\
    In (sn_id n) (map sn_id post) /\
    List.NoDup (map sn_id pre) /\
    (forall m, In m pre -> ~ In (sn_id m) (map sn_id (n :: post))) /\
    analyzeMachineNode Sample.host None Sample.appScope Cases.machineStateTwice =
    Rejected (SemanticError (Msg.duplicateState (sn_id n))
                (sc_fileName Sample.appScope) (sn_line n) (sn_column n)).
Proof.
  apply (proj1 duplicate_state_id_rule Sample.host None Sample.appScope Cases.machineStateTwice).
  simpl. intros H. inversion H as [|? ? Hnot _]. apply Hnot. simpl. auto.
Defined.

(** X2.  A machine or a state that passes the checks made before (for a
    state the one on transient states, then unique state IDs and unique
    transitions) and holds two event protocols whose names normalize to the
    same string is rejected with the SemanticError "Duplicate event
    protocol", located at the first protocol whose normalized name comes
    again later (no protocol before it shares its normalized name with any
    other) and quoting its name as written. *)
Theorem duplicate_event_protocol_rule :
  (forall host cache scopeNode machineNode,
      List.NoDup (map sn_id (mn_states machineNode)) ->
      List.NoDup (map transitionKey (mn_transitions machineNode)) ->
      ~ List.NoDup (map protocolKey (mn_eventProtocols machineNode)) ->
      exists pre p post,
        mn_eventProtocols machineNode = pre ++ p :: post /\
        ~ In (protocolKey p) (map protocolKey pre) /\
        In (protocolKey p) (map protocolKey post) /\
        List.NoDup (map protocolKey pre) /\
        (forall m, In m pre -> ~ In (protocolKey m) (map protocolKey (p :: post))) /\
        analyzeMachineNode host cache scopeNode machineNode =
        Rejected (SemanticError (Msg.duplicateEventProtocol (ep_eventName p))
                    (sc_fileName scopeNode) (ep_line p) (ep_column p))) /\
  (forall host cache scopeNode markedInitial stateNode,
      (sn_stateType stateNode = Transient -> sn_states stateNode = []) ->
      List.NoDup (map sn_id (sn_states stateNode)) ->
      List.NoDup (map transitionKey (sn_transitions stateNode)) ->
      ~ List.NoDup (map protocolKey (sn_eventProtocols stateNode)) ->
      exists pre p post,
        sn_eventProtocols stateNode = pre ++ p :: post /\
        ~ In (protocolKey p) (map protocolKey pre) /\
        In (protocolKey p) (map protocolKey post) /\
        List.NoDup (map protocolKey pre) /\
        (forall m, In m pre -> ~ In (protocolKey m) (map protocolKey (p :: post))) /\
        analyzeStateNode host cache scopeNode markedInitial stateNode =
        Rejected (SemanticError (Msg.duplicateEventProtocol (ep_eventName p))
                    (sc_fileName scopeNode) (ep_line p) (ep_column p))).
Proof.
  split; intros.
  - now apply MoreNodeFacts.machine_duplicate_protocol.
  - now apply MoreNodeFacts.state_duplicate_protocol.
Qed.

Lemma duplicate_event_protocol_rule_witness :
  exists pre p post,
    mn_eventProtocols Cases.machineProtocolTwice = pre ++ p :: post /\
    ~ In (protocolKey p) (map protocolKey pre) /\
    In (protocolKey p) (map protocolKey post) /\
    List.NoDup (map protocolKey pre) /\
    (forall m, In m pre -> ~ In (protocolKey m) (map protocolKey (p :: post))) /\
    analyzeMachineNode Sample.host None Sample.appScope Cases.machineProtocolTwice =
    Rejected (SemanticError (Msg.duplicateEventProtocol (ep_eventName p))
                (sc_fileName Sample.appScope) (ep_line p) (ep_column p)).
Proof.
  apply (proj1 duplicate_event_protocol_rule Sample.host None Sample.appScope
           Cases.machineProtocolTwice).
  - simpl. repeat constructor. simpl. tauto.
  - constructor.
  - intros H. inversion H as [|? ? Hnot _]. apply Hnot. now left.
Defined.



(** ** What the analysis accepts, and what it returns *)

Module AcceptFacts.
Import DupFacts PromiseFacts NodeFacts AnalysisFacts CheckFacts MoreCheckFacts.

Lemma completed_eq markedInitial stateNode :
  completed markedInitial stateNode =
  mkStateNode (sn_id stateNode)
    (if StateKind_eqb (sn_stateType stateNode) Atomic
        && Nat.ltb 0 (length (sn_states stateNode))
     then Compound else sn_stateType stateNode)
    (markedInitial || sn_initial stateNode)
    (completedStates (sn_states stateNode))
    (sn_transitions stateNode) (sn_eventProtocols stateNode)
    (sn_useDirective stateNode) (sn_line stateNode) (sn_column stateNode).
Proof. destruct stateNode; reflexivity. Qed.

Lemma accepted_eq host cache scopeNode stateNode :
  accepted host cache scopeNode stateNode =
  negb (StateKind_eqb (sn_stateType stateNode) Transient
        && Nat.ltb 0 (length (sn_states stateNode)))
  && checksPass host (sn_states stateNode) (sn_transitions stateNode)
       (sn_eventProtocols stateNode)
  && isFulfilled (analyzeUseDirectiveNode cache scopeNode (sn_useDirective stateNode))
  && forallb (accepted host cache scopeNode) (sn_states stateNode).
Proof. destruct stateNode; reflexivity. Qed.

(** A use-directive that is analyzed without error is returned as it was. *)
Lemma analyzeUseDirectiveNode_Fulfilled cache scopeNode useDirectiveNode v :
  analyzeUseDirectiveNode cache scopeNode useDirectiveNode = Fulfilled v ->
  v = useDirectiveNode.
Proof.
  unfold analyzeUseDirectiveNode. destruct useDirectiveNode as [u|]; [|now intros [= <-]].
  destruct (hasMachine (ud_machineId u) scopeNode); [now intros [= <-]|].
  destruct (sc_imports scopeNode) as [|i r]; [discriminate|].
  destruct cache as [c|]; [|discriminate].
  destruct (promiseAll _) as [scopes| |]; cbn [await]; try discriminate.
  destruct (someImported _ scopes) as [e|[m|]]; try discriminate. now intros [= <-].
Qed.

Section Facts.

Context (host : Host) (cache : option Cache.t) (scopeNode : ScopeNode).

Local Abbreviation analyzeState := (analyzeStateNode host cache scopeNode).
Local Abbreviation acceptedState := (accepted host cache scopeNode).

Local Abbreviation specified := (specified host cache scopeNode).

Lemma rest_specified rest rest' :
  Forall specified rest ->
  (map (analyzeState false) rest = map Fulfilled rest' <->
   forallb acceptedState rest = true /\ rest' = map (completed false) rest).
Proof.
  intros HF. revert rest'. induction HF as [|c r Hc _ IH]; intros rest'.
  - simpl. split.
    + destruct rest'; [auto|discriminate].
    + now intros [_ ->].
  - destruct rest' as [|c' r']; simpl.
    + split; [discriminate|intros [_ H]; discriminate].
    + rewrite andb_true_iff. split.
      * intros [= H1 H2]. apply Hc in H1 as [A ->]. apply IH in H2 as [B ->]. auto.
      * intros [[A B] [= -> ->]]. f_equal.
        -- now apply Hc.
        -- now apply IH.
Qed.

Lemma states_specified states states' :
  Forall specified states ->
  (promiseAll (analyzeStates host cache scopeNode states) = Fulfilled states' <->
   forallb acceptedState states = true /\ states' = completedStates states).
Proof.
  intros HF. rewrite promiseAll_Fulfilled. destruct states as [|first rest].
  - simpl. split.
    + destruct states'; [auto|discriminate].
    + now intros [_ ->].
  - inversion HF as [|? ? Hfirst Hrest]; subst.
    cbn [analyzeStates completedStates forallb]. rewrite andb_true_iff.
    destruct states' as [|first' rest']; cbn [map].
    + split; [discriminate|intros [_ H]; discriminate].
    + split.
      * intros [= H1 H2]. apply Hfirst in H1 as [A ->].
        apply (rest_specified _ _ Hrest) in H2 as [B ->]. auto.
      * intros [[A B] [= -> ->]]. f_equal.
        -- now apply Hfirst.
        -- now apply (rest_specified _ _ Hrest).
Qed.

Lemma analyzeStateNode_specified stateNode : specified stateNode.
Proof.
  induction stateNode as [s IH] using StateNode_children_ind.
  intros b s'. rewrite accepted_eq, !andb_true_iff, negb_true_iff. split.
  - intros H. pose proof (analyzeStateNode_Fulfilled _ _ _ _ _ _ H)
      as (T & H1 & H2 & H3 & H4 & H5 & Hall & _).
    rewrite analyzeStateNode_eq in H. cbv zeta in H.
    rewrite T, H1, H2, H3, H4, H5, Hall in H. cbn [check await] in H.
    destruct (analyzeUseDirectiveNode cache scopeNode (sn_useDirective s)) as [v| |] eqn:U;
      cbn [await] in H; try discriminate.
    apply analyzeUseDirectiveNode_Fulfilled in U as Hv. subst v.
    apply (states_specified _ _ IH) in Hall as [Hacc Hst].
    split.
    + repeat split; try assumption.
      apply (checksPass_iff host scopeNode). repeat split; try assumption.
      intros message. apply (manyInitialError_None scopeNode).
      now apply (manyInitialError_None scopeNode) in H5.
    + injection H as <-. rewrite Hst. symmetry. apply completed_eq.
  - intros [[[[T C] U] Hacc] ->].
    apply (checksPass_iff host scopeNode) in C as (H1 & H2 & H3 & H4 & H5).
    rewrite analyzeStateNode_eq. cbv zeta.
    rewrite T, H1, H2, H3, H4, H5. cbn [check].
    rewrite (proj2 (states_specified _ (completedStates (sn_states s)) IH) (conj Hacc eq_refl)).
    cbn [await].
    destruct (analyzeUseDirectiveNode cache scopeNode (sn_useDirective s)) as [v| |] eqn:Hu;
      try discriminate.
    apply analyzeUseDirectiveNode_Fulfilled in Hu. subst v. cbn [await].
    now rewrite completed_eq.
Qed.

Lemma analyzeMachineNode_specified machineNode machineNode' :
  analyzeMachineNode host cache scopeNode machineNode = Fulfilled machineNode' <->
  acceptedMachine host cache scopeNode machineNode = true /\
  machineNode' = completedMachine machineNode.
Proof.
  unfold acceptedMachine. rewrite andb_true_iff.
  assert (IH : Forall specified (mn_states machineNode))
    by (apply List.Forall_forall; intros c _; apply analyzeStateNode_specified).
  split.
  - intros H. pose proof (analyzeMachineNode_Fulfilled _ _ _ _ _ H)
      as (H1 & H2 & H3 & H4 & H5 & Hall).
    rewrite analyzeMachineNode_eq in H. cbv zeta in H.
    rewrite H1, H2, H3, H4, H5, Hall in H. cbn [check await] in H.
    apply (states_specified _ _ IH) in Hall as [Hacc Hst]. split.
    + split; [|assumption].
      apply (checksPass_iff host scopeNode). repeat split; try assumption.
      intros message. apply (manyInitialError_None scopeNode).
      now apply (manyInitialError_None scopeNode) in H5.
    + injection H as <-. now rewrite Hst.
  - intros [[C Hacc] ->].
    apply (checksPass_iff host scopeNode) in C as (H1 & H2 & H3 & H4 & H5).
    rewrite analyzeMachineNode_eq. cbv zeta.
    rewrite H1, H2, H3, H4, H5. cbn [check].
    now rewrite (proj2 (states_specified _ (completedStates (mn_states machineNode)) IH)
                   (conj Hacc eq_refl)).
Qed.

End Facts.
End AcceptFacts.

Module IdemFacts.
Import DupFacts PromiseFacts NodeFacts AnalysisFacts CheckFacts MoreCheckFacts AcceptFacts.

Lemma completedStates_length states : length (completedStates states) = length states.
Proof. destruct states; simpl; [reflexivity|now rewrite length_map]. Qed.

Lemma completedStates_ids states : map sn_id (completedStates states) = map sn_id states.
Proof.
  destruct states as [|f r]; simpl; [reflexivity|]. rewrite completed_eq. simpl. f_equal.
  rewrite map_map. apply map_ext. intros c. now rewrite completed_eq.
Qed.

Lemma completedStates_flags states :
  map sn_initial (completedStates states) =
  match states with
  | [] => []
  | first :: rest => (marksFirst states || sn_initial first) :: map sn_initial rest
  end.
Proof.
  destruct states as [|f r]; [reflexivity|]. cbn [completedStates map].
  rewrite completed_eq. cbn [sn_initial]. f_equal.
  rewrite map_map. apply map_ext. intros c. now rewrite completed_eq.
Qed.

Lemma existsb_flags states :
  existsb sn_initial states = existsb (fun b : bool => b) (map sn_initial states).
Proof. induction states as [|s r IH]; simpl; congruence. Qed.

(** After completion some child is marked whenever there is a child. *)
Lemma completedStates_marks states : marksFirst (completedStates states) = false.
Proof.
  unfold marksFirst at 1. rewrite completedStates_length, existsb_flags, completedStates_flags.
  destruct states as [|f r]; [reflexivity|]. cbn [length Nat.eqb negb andb].
  unfold marksFirst. cbn [length Nat.eqb negb andb existsb].
  rewrite <- existsb_flags.
  destruct (sn_initial f); simpl; [reflexivity|].
  now destruct (existsb sn_initial r).
Qed.

Lemma completed_idem stateNode :
  forall markedInitial,
    completed false (completed markedInitial stateNode) = completed markedInitial stateNode.
Proof.
  induction stateNode as [s IH] using StateNode_children_ind. intros b.
  rewrite (completed_eq false), (completed_eq b). cbn [sn_id sn_stateType sn_initial sn_states
    sn_transitions sn_eventProtocols sn_useDirective sn_line sn_column].
  rewrite completedStates_length. f_equal.
  - destruct (sn_stateType s), (Nat.ltb 0 (length (sn_states s))); reflexivity.
  - destruct (sn_states s) as [|f r] eqn:E; [reflexivity|].
    pose proof (completedStates_marks (f :: r)) as Hm.
    inversion IH as [|? ? Hf Hr]; subst.
    cbn [completedStates map] in *. rewrite Hm, Hf. f_equal.
    rewrite map_map. apply map_ext_in. intros c Hc.
    exact (proj1 (List.Forall_forall _ _) Hr c Hc false).
Qed.

Section Facts.

Context (host : Host) (cache : option Cache.t) (scopeNode : ScopeNode).

Lemma checksPass_completed states transitions eventProtocols :
  checksPass host states transitions eventProtocols = true ->
  checksPass host (completedStates states) transitions eventProtocols = true.
Proof.
  unfold checksPass. rewrite !andb_true_iff, completedStates_ids, !Nat.leb_le.
  intros ((((H1 & H2) & H3) & H4) & H5). repeat split; try assumption.
  rewrite initialCount_flags, completedStates_flags.
  destruct states as [|f r]; [simpl; lia|].
  rewrite initialCount_flags in H5. unfold marksFirst.
  cbn [length Nat.eqb negb andb map] in *. rewrite existsb_flags. cbn [map existsb].
  destruct (sn_initial f); simpl in *; [exact H5|].
  destruct (existsb (fun b : bool => b) (map sn_initial r)) eqn:X; simpl; [exact H5|].
  assert (Z : List.filter (fun b : bool => b) (map sn_initial r) = []).
  { clear -X. induction (map sn_initial r) as [|x l IHl]; [reflexivity|].
    simpl in *. destruct x; [discriminate|auto]. }
  rewrite Z. simpl. lia.
Qed.

(** A completed state that was accepted is accepted again. *)
Lemma accepted_completed stateNode :
  forall markedInitial,
    accepted host cache scopeNode stateNode = true ->
    accepted host cache scopeNode (completed markedInitial stateNode) = true.
Proof.
  induction stateNode as [s IH] using StateNode_children_ind. intros b.
  rewrite (accepted_eq _ _ _ s), (accepted_eq _ _ _ (completed b s)), completed_eq.
  cbn [sn_id sn_stateType sn_initial sn_states sn_transitions sn_eventProtocols
       sn_useDirective sn_line sn_column].
  rewrite !andb_true_iff, !negb_true_iff, completedStates_length.
  intros (((T & C) & U) & A). repeat split.
  - destruct (sn_stateType s), (Nat.ltb 0 (length (sn_states s))); try reflexivity; discriminate.
  - now apply checksPass_completed.
  - exact U.
  - destruct (sn_states s) as [|f r]; [reflexivity|].
    inversion IH as [|? ? Hf Hr]; subst. cbn [forallb completedStates] in *.
    apply andb_true_iff in A as [Af Ar]. rewrite (Hf _ Af). cbn [andb].
    rewrite forallb_forall in *. intros c' Hc'. apply in_map_iff in Hc' as (c & <- & Hc).
    apply (proj1 (List.Forall_forall _ _) Hr c Hc). now apply Ar.
Qed.

Lemma analyzeStateNode_again markedInitial stateNode stateNode' :
  analyzeStateNode host cache scopeNode markedInitial stateNode = Fulfilled stateNode' ->
  analyzeStateNode host cache scopeNode false stateNode' = Fulfilled stateNode'.
Proof.
  intros H. apply analyzeStateNode_specified in H as [A ->].
  apply analyzeStateNode_specified. split.
  - now apply accepted_completed.
  - symmetry. apply completed_idem.
Qed.

Lemma completedStates_idem states :
  completedStates (completedStates states) = completedStates states.
Proof.
  destruct states as [|f r] eqn:E; [reflexivity|].
  pose proof (completedStates_marks (f :: r)) as Hm.
  cbn [completedStates map] in *. rewrite Hm, completed_idem. f_equal.
  rewrite map_map. apply map_ext. intros c. apply completed_idem.
Qed.

Lemma analyzeMachineNode_again machineNode machineNode' :
  analyzeMachineNode host cache scopeNode machineNode = Fulfilled machineNode' ->
  analyzeMachineNode host cache scopeNode machineNode' = Fulfilled machineNode'.
Proof.
  intros H. apply analyzeMachineNode_specified in H as [A ->].
  apply analyzeMachineNode_specified. unfold acceptedMachine, completedMachine in *.
  cbn [mn_id mn_states mn_transitions mn_eventProtocols mn_line mn_column].
  apply andb_true_iff in A as [C A]. split.
  - apply andb_true_iff. split; [now apply checksPass_completed|].
    destruct (mn_states machineNode) as [|f r]; [reflexivity|].
    cbn [forallb completedStates] in *. apply andb_true_iff in A as [Af Ar].
    rewrite (accepted_completed _ _ Af). cbn [andb].
    rewrite forallb_forall in *. intros c' Hc'. apply in_map_iff in Hc' as (c & <- & Hc).
    apply accepted_completed. now apply Ar.
  - now rewrite completedStates_idem.
Qed.

End Facts.
End IdemFacts.

(** X4.  The analysis of a state, and of a machine, is fulfilled exactly when
    every check passes on it and on every state below it (no transient state
    with children, unique child IDs, transitions and event protocols,
    resolving targets, at most one initial child, a use-directive that
    resolves); the tree it is fulfilled with is the given tree with atomic
    parents made compound and the initial flags completed: IDs,
    transitions, event protocols, use-directives, positions and the order
    of the children are the ones given. *)
Theorem analysis_accepts_and_completes :
  (forall host cache scopeNode markedInitial stateNode stateNode',
      analyzeStateNode host cache scopeNode markedInitial stateNode = Fulfilled stateNode' <->
      accepted host cache scopeNode stateNode = true /\
      stateNode' = completed markedInitial stateNode) /\
  (forall host cache scopeNode machineNode machineNode',
      analyzeMachineNode host cache scopeNode machineNode = Fulfilled machineNode' <->
      acceptedMachine host cache scopeNode machineNode = true /\
      machineNode' = completedMachine machineNode).
Proof.
  split.
  - intros host cache scopeNode b s s'. apply AcceptFacts.analyzeStateNode_specified.
  - intros. apply AcceptFacts.analyzeMachineNode_specified.
Qed.

(** X5.  Analyzing the tree a fulfilled analysis returned is fulfilled again
    and returns that tree unchanged, for a state and for a machine. *)
Theorem analysis_of_analyzed_tree :
  (forall host cache scopeNode markedInitial stateNode stateNode',
      analyzeStateNode host cache scopeNode markedInitial stateNode = Fulfilled stateNode' ->
      analyzeStateNode host cache scopeNode false stateNode' = Fulfilled stateNode') /\
  (forall host cache scopeNode machineNode machineNode',
      analyzeMachineNode host cache scopeNode machineNode = Fulfilled machineNode' ->
      analyzeMachineNode host cache scopeNode machineNode' = Fulfilled machineNode').
Proof.
  split.
  - intros host cache scopeNode b s s' H.
    exact (IdemFacts.analyzeStateNode_again host cache scopeNode b s s' H).
  - intros host cache scopeNode m m' H.
    exact (IdemFacts.analyzeMachineNode_again host cache scopeNode m m' H).
Qed.

(** The machine of scenario S2, analyzed twice. *)
Lemma analysis_of_analyzed_tree_witness :
  exists machineNode',
    analyzeMachineNode Sample.host None Sample.appScope Sample.machineS2 = Fulfilled machineNode' /\
    machineNode' <> Sample.machineS2 /\
    analyzeMachineNode Sample.host None Sample.appScope machineNode' = Fulfilled machineNode'.
Proof.
  eexists. split; [reflexivity|]. split; [discriminate|].
  exact (proj2 analysis_of_analyzed_tree Sample.host None Sample.appScope Sample.machineS2 _ eq_refl).
Defined.

(** ** The promise of an imported file *)

Module SettleFacts.
Import PromiseFacts NodeFacts RequireFacts.

Lemma promiseAll_Pending {A : Type} (ps : list (Outcome A)) :
  promiseAll ps = Pending -> In Pending ps.
Proof.
  unfold promiseAll. destruct (firstRejected ps) eqn:R; [discriminate|].
  destruct (allFulfilled ps) eqn:F; [discriminate|]. intros _.
  induction ps as [|p r IH]; simpl in *; [discriminate|].
  destruct p as [a|e|]; [|discriminate|now left].
  right. apply IH; [exact R|]. now destruct (allFulfilled r).
Qed.

Lemma analyzeUseDirectiveNode_settles scopeNode useDirectiveNode :
  analyzeUseDirectiveNode None scopeNode useDirectiveNode <> Pending.
Proof.
  unfold analyzeUseDirectiveNode. destruct useDirectiveNode as [u|]; [|discriminate].
  destruct (hasMachine _ scopeNode); [discriminate|].
  destruct (sc_imports scopeNode); discriminate.
Qed.

Section Facts.

Context (host : Host) (scopeNode : ScopeNode).

Lemma analyzeStateNode_settles stateNode :
  forall markedInitial, analyzeStateNode host None scopeNode markedInitial stateNode <> Pending.
Proof.
  induction stateNode as [s IH] using StateNode_children_ind. intros b.
  rewrite analyzeStateNode_eq. cbv zeta.
  destruct (StateKind_eqb _ _ && _); [discriminate|].
  destruct (duplicateStateError _ _); [discriminate|].
  destruct (duplicateTransitionError _ _); [discriminate|].
  destruct (duplicateEventProtocolError _ _); [discriminate|].
  destruct (unresolvedTargetError _ _ _); [discriminate|].
  destruct (manyInitialError _ _ _); [discriminate|]. cbn [check].
  destruct (promiseAll (analyzeStates host None scopeNode (sn_states s))) as [l|e|] eqn:P;
    cbn [await]; [|discriminate|].
  - pose proof (analyzeUseDirectiveNode_settles scopeNode (sn_useDirective s)) as U.
    destruct (analyzeUseDirectiveNode None scopeNode (sn_useDirective s));
      cbn [await]; congruence.
  - exfalso. apply promiseAll_Pending in P.
    destruct (sn_states s) as [|f r]; [destruct P|].
    inversion IH as [|? ? Hf Hr]; subst. destruct P as [P|P].
    + now apply Hf in P.
    + apply in_map_iff in P as (c & P & Hc).
      exact (proj1 (List.Forall_forall _ _) Hr c Hc false P).
Qed.

Lemma analyzeMachineNode_settles machineNode :
  analyzeMachineNode host None scopeNode machineNode <> Pending.
Proof.
  rewrite analyzeMachineNode_eq. cbv zeta.
  destruct (duplicateStateError _ _); [discriminate|].
  destruct (duplicateTransitionError _ _); [discriminate|].
  destruct (duplicateEventProtocolError _ _); [discriminate|].
  destruct (unresolvedTargetError _ _ _); [discriminate|].
  destruct (manyInitialError _ _ _); [discriminate|]. cbn [check].
  destruct (promiseAll (analyzeStates host None scopeNode (mn_states machineNode)))
    as [l|e|] eqn:P; cbn [await]; [discriminate|discriminate|].
  exfalso. apply promiseAll_Pending in P.
  destruct (mn_states machineNode) as [|f r]; [destruct P|]. destruct P as [P|P].
  - now apply analyzeStateNode_settles in P.
  - apply in_map_iff in P as (c & P & Hc). now apply analyzeStateNode_settles in P.
Qed.

End Facts.

(** Without a cache the analysis of a scope always settles. *)
Lemma analyzeScopeNode_settles host scopeNode dirs :
  snd (analyzeScopeNode host scopeNode None dirs) <> Pending.
Proof.
  unfold analyzeScopeNode, Open.analyzeScopeNode.
  destruct (Open.duplicateMachineError scopeNode); [discriminate|].
  pose proof (proj2 (analyzeImports_without_cache host (analyzeImported host)
                       (analyzeImported host) scopeNode (sc_imports scopeNode) dirs)) as Hc.
  destruct (Open.analyzeImports host (analyzeImported host) scopeNode
              (sc_imports scopeNode) None dirs) as [cache' imports']. simpl in Hc. subst cache'.
  cbn [snd].
  destruct (promiseAll _) as [l|e|] eqn:P; cbn [await]; [discriminate|discriminate|].
  exfalso. apply promiseAll_Pending in P. apply in_map_iff in P as (m & P & _).
  now apply analyzeMachineNode_settles in P.
Qed.

Lemma analyzeImported_settles host scopeNode dirs :
  analyzeImported host scopeNode dirs <> Pending.
Proof. rewrite analyzeImported_eq. apply analyzeScopeNode_settles. Qed.

End SettleFacts.

(** X6.  The promise registered for an imported file stays pending for ever
    exactly when the file is read and the tokenizer or the parser throws on
    its text (the exception is raised inside the [then] callback, where
    nothing rejects the promise); an error of [readFile] rejects it, and
    otherwise it settles the way the analysis of the parsed scope, which
    is made without a cache, settles. *)
Theorem imported_file_promise host firstMatchedFileName dirs :
  (Open.readAndAnalyze host (analyzeImported host) firstMatchedFileName dirs = Pending <->
   exists text e,
     fs_readFile host firstMatchedFileName = inr text /\
     parseSource host firstMatchedFileName text = inl e) /\
  (forall e,
      fs_readFile host firstMatchedFileName = inl e ->
      Open.readAndAnalyze host (analyzeImported host) firstMatchedFileName dirs = Rejected e) /\
  (forall text scopeNode,
      fs_readFile host firstMatchedFileName = inr text ->
      parseSource host firstMatchedFileName text = inr scopeNode ->
      Open.readAndAnalyze host (analyzeImported host) firstMatchedFileName dirs
      = snd (analyzeScopeNode host scopeNode None dirs) /\
      snd (analyzeScopeNode host scopeNode None dirs) <> Pending).
Proof.
  unfold Open.readAndAnalyze. split; [|split].
  - destruct (fs_readFile host firstMatchedFileName) as [e|text].
    + split; [discriminate|]. intros (t & e' & H & _). discriminate.
    + destruct (parseSource host firstMatchedFileName text) as [e|scopeNode] eqn:P.
      * split; [eauto|reflexivity].
      * split.
        -- intros H. now apply SettleFacts.analyzeImported_settles in H.
        -- intros (t & e & [= <-] & H). congruence.
  - intros e H. now rewrite H.
  - intros text scopeNode H P. rewrite H, P. split.
    + apply RequireFacts.analyzeImported_eq.
    + apply SettleFacts.analyzeScopeNode_settles.
Qed.

(** With a parser that throws, the promise of lib/m.state is pending. *)
Lemma imported_file_promise_witness :
  Open.readAndAnalyze Cases.brokenHost (analyzeImported Cases.brokenHost) "lib/m.state" ["lib"]
  = Pending.
Proof.
  apply (proj1 (imported_file_promise Cases.brokenHost "lib/m.state" ["lib"])).
  exists "@machine M", (SyntaxError "Unexpected token" "lib/m.state" 1 1).
  split; reflexivity.
Defined.

(** ** What the lookups do to the cache *)

Module CacheFacts.

#[local] Set Warnings "-clear-no-such-hyp".

Section Facts.

Context (host : Host).

Lemma has_true (c : gmap string (Outcome ScopeNode)) key :
  Cache.has c key = true <-> is_Some (c !! key).
Proof. unfold Cache.has. apply bool_decide_eq_true. Qed.

Lemma has_false (c : gmap string (Outcome ScopeNode)) key :
  Cache.has c key = false <-> c !! key = None.
Proof.
  unfold Cache.has. rewrite bool_decide_eq_false, <- eq_None_not_Some. reflexivity.
Qed.

(** One lookup: the cache it leaves. *)
Lemma requireWireStateFile_cache wireStateFile (c : gmap string (Outcome ScopeNode)) dirs :
  exists c' : gmap string (Outcome ScopeNode),
    fst (requireWireStateFile host wireStateFile (Some c) dirs) = Some c' /\
    c ⊆ c' /\
    dom c' ⊆ dom c ∪ {[wireStateFile]} /\
    ((forall f, Open.firstMatchedFileName host wireStateFile dirs <> Fulfilled f) -> c' = c) /\
    (is_Some (c !! wireStateFile) -> c' = c) /\
    (forall f,
        c !! wireStateFile = None ->
        Open.firstMatchedFileName host wireStateFile dirs = Fulfilled f ->
        c' = <[wireStateFile :=
                 Open.readAndAnalyze host (analyzeImported host) f (Open.searchDirs dirs)]> c).
Proof.
  unfold requireWireStateFile, Open.requireWireStateFile.
  destruct (Open.firstMatchedFileName host wireStateFile dirs) as [f|e|] eqn:M.
  - destruct (Cache.has c wireStateFile) eqn:H.
    + exists c. cbn [fst]. repeat split; try reflexivity; [set_solver|].
      intros f' Hn _. apply has_true in H. rewrite Hn in H. now destruct H.
    + apply has_false in H. eexists. cbn [fst]. split; [reflexivity|].
      unfold Cache.set. split; [now apply insert_subseteq|]. split; [|split; [|split]].
      * rewrite dom_insert_L. set_solver.
      * intros Hno. now specialize (Hno f).
      * intros [v Hv]. congruence.
      * now intros f' _ [= <-].
  - exists c. cbn [fst]. repeat split; try reflexivity; [set_solver|]. intros; discriminate.
  - exists c. cbn [fst]. repeat split; try reflexivity; [set_solver|]. intros; discriminate.
Qed.

Lemma analyzeImports_cache parent imports (c : gmap string (Outcome ScopeNode)) dirs :
  exists c' : gmap string (Outcome ScopeNode),
    fst (Open.analyzeImports host (analyzeImported host) parent imports (Some c) dirs) = Some c' /\
    c ⊆ c' /\
    dom c' ⊆ dom c ∪ list_to_set (map (Open.importedFile host parent) imports).
Proof.
  revert c. induction imports as [|i r IH]; intros c.
  - exists c. simpl. repeat split; [reflexivity|set_solver].
  - cbn [Open.analyzeImports]. unfold Open.analyzeImportNode.
    destruct (requireWireStateFile_cache (Open.importedFile host parent i) c dirs)
      as (c1 & E1 & S1 & D1 & _).
    unfold requireWireStateFile in E1. rewrite E1.
    destruct (IH c1) as (c2 & E2 & S2 & D2).
    destruct (Open.analyzeImports host (analyzeImported host) parent r (Some c1) dirs)
      as [cache2 rest'] eqn:A. cbn [fst] in *. subst cache2.
    exists c2. repeat split.
    + now transitivity c1.
    + cbn [map list_to_set]. set_solver.
Qed.


Lemma analyzeScopeNode_cache scopeNode (c : gmap string (Outcome ScopeNode)) dirs :
  exists c' : gmap string (Outcome ScopeNode),
    fst (analyzeScopeNode host scopeNode (Some c) dirs) = Some c' /\
    c ⊆ c' /\
    dom c' ⊆ dom c ∪ list_to_set (map (Open.importedFile host scopeNode) (sc_imports scopeNode)).
Proof.
  unfold analyzeScopeNode, Open.analyzeScopeNode.
  destruct (Open.duplicateMachineError scopeNode).
  - exists c. repeat split; [reflexivity|set_solver].
  - destruct (analyzeImports_cache scopeNode (sc_imports scopeNode) c dirs)
      as (c' & E & S & D).
    destruct (Open.analyzeImports host (analyzeImported host) scopeNode
                (sc_imports scopeNode) (Some c) dirs) as [cache' imports'].
    cbn [fst] in *. subst cache'. exists c'. auto.
Qed.

End Facts.
End CacheFacts.

(** X7.  A lookup, the analysis of a scope and [analyze] only add to the
    cache they are given: every entry it held is still there with the same
    promise.  One lookup adds at most the entry of the file it was asked
    for; it adds nothing when the file is not found or [FS.stat] fails, or
    when the file has an entry already.  The analysis of a scope adds at most
    entries for the files of its imports. *)
Theorem cache_only_grows host (c : gmap string (Outcome ScopeNode)) dirs :
  (forall wireStateFile,
      exists c' : gmap string (Outcome ScopeNode),
        fst (requireWireStateFile host wireStateFile (Some c) dirs) = Some c' /\
        c ⊆ c' /\
        dom c' ⊆ dom c ∪ {[wireStateFile]} /\
        ((forall f, Open.firstMatchedFileName host wireStateFile dirs <> Fulfilled f) -> c' = c) /\
        (is_Some (c !! wireStateFile) -> c' = c)) /\
  (forall scopeNode,
      exists c' : gmap string (Outcome ScopeNode),
        fst (analyzeScopeNode host scopeNode (Some c) dirs) = Some c' /\
        c ⊆ c' /\
        dom c' ⊆ dom c ∪ list_to_set (map (Open.importedFile host scopeNode)
                                        (sc_imports scopeNode))) /\
  (forall heap v,
      exists c' : gmap string (Outcome ScopeNode),
        snd (fst (analyze host heap v (Some c) dirs)) = Some c' /\ c ⊆ c').
Proof.
  split; [|split].
  - intros file.
    destruct (CacheFacts.requireWireStateFile_cache host file c dirs)
      as (c' & H1 & H2 & H3 & H4 & H5 & _).
    exists c'. auto.
  - intros scopeNode. apply CacheFacts.analyzeScopeNode_cache.
  - intros heap v. unfold analyze.
    destruct v; try (exists c; split; [reflexivity|done]).
    destruct (heap !! address) as [[tree|]|]; try (exists c; split; [reflexivity|done]).
    unfold clone.
    destruct (CacheFacts.analyzeScopeNode_cache host tree c dirs) as (c' & E & S & _).
    destruct (analyzeScopeNode host tree (Some c) dirs) as [cache' [t|e|]];
      cbn [fst snd] in *; subst cache'; exists c'; auto.
Qed.

(** X8.  When the file found is the key itself (the search directory does not
    change the path) the cache memoizes: the first lookup registers the
    promise of the file under the key and returns that promise; a second
    lookup returns the same promise and leaves the cache as it is, so the
    file is read once. *)
Theorem lookup_memoized_when_key_is_matched_file host wireStateFile
  (c : gmap string (Outcome ScopeNode)) dirs :
  Open.firstMatchedFileName host wireStateFile dirs = Fulfilled wireStateFile ->
  c !! wireStateFile = None ->
  let promise :=
    Open.readAndAnalyze host (analyzeImported host) wireStateFile (Open.searchDirs dirs) in
  requireWireStateFile host wireStateFile (Some c) dirs
    = (Some (<[wireStateFile := promise]> c), Fulfilled (Some promise)) /\
  requireWireStateFile host wireStateFile (Some (<[wireStateFile := promise]> c)) dirs
    = (Some (<[wireStateFile := promise]> c), Fulfilled (Some promise)).
Proof.
  intros M Hnone promise. unfold requireWireStateFile, Open.requireWireStateFile.
  rewrite M. apply CacheFacts.has_false in Hnone. rewrite Hnone.
  assert (Hhas : Cache.has (<[wireStateFile := promise]> c) wireStateFile = true).
  { apply CacheFacts.has_true. rewrite lookup_insert_eq. eauto. }
  rewrite Hhas. unfold Cache.set, Cache.get. fold promise.
  rewrite lookup_insert_eq. split; reflexivity.
Qed.

(** The file lib/m.state asked for by that name with no search directory. *)
Lemma lookup_memoized_when_key_is_matched_file_witness :
  requireWireStateFile Sample.host "lib/m.state" (Some ∅) []
    = (Some (<["lib/m.state" := Fulfilled Sample.scopeM]> ∅),
       Fulfilled (Some (Fulfilled Sample.scopeM))) /\
  requireWireStateFile Sample.host "lib/m.state"
      (Some (<["lib/m.state" := Fulfilled Sample.scopeM]> ∅)) []
    = (Some (<["lib/m.state" := Fulfilled Sample.scopeM]> ∅),
       Fulfilled (Some (Fulfilled Sample.scopeM))).
Proof.
  exact (lookup_memoized_when_key_is_matched_file Sample.host "lib/m.state" ∅ []
           eq_refl (lookup_empty _)).
Defined.

(** ** The use-directive and the promises of the imports *)

Module MoreUseFacts.
Import PromiseFacts UseFacts RequireFacts SettleFacts.

Lemma firstRejected_None {A : Type} (ps : list (Outcome A)) :
  (forall e, ~ In (Rejected e) ps) -> firstRejected ps = None.
Proof.
  induction ps as [|p r IH]; simpl; [reflexivity|]. intros H.
  destruct p as [a|e|].
  - apply IH. intros e He. apply (H e). now right.
  - exfalso. apply (H e). now left.
  - apply IH. intros e He. apply (H e). now right.
Qed.

Lemma allFulfilled_None {A : Type} (ps : list (Outcome A)) :
  In Pending ps -> allFulfilled ps = None.
Proof.
  induction ps as [|p r IH]; simpl; [tauto|].
  intros [->|H]; [reflexivity|]. destruct p; [|reflexivity|reflexivity].
  now rewrite (IH H).
Qed.

Lemma awaited_Rejected entry e :
  awaited entry = Rejected e <-> entry = Some (Rejected e).
Proof.
  destruct entry as [[sc|e'|]|]; simpl; split; try discriminate; congruence.
Qed.

Lemma awaited_Pending entry : awaited entry = Pending <-> entry = Some Pending.
Proof. destruct entry as [[sc|e'|]|]; simpl; split; try discriminate; congruence. Qed.

Section Facts.

Context (c : gmap string (Outcome ScopeNode)) (scopeNode : ScopeNode) (u : UseDirectiveNode).

Local Abbreviation entries :=
  (map (fun importNode => awaited (Cache.get c (in_file importNode))) (sc_imports scopeNode)).

Lemma use_unfold :
  hasMachine (ud_machineId u) scopeNode = None ->
  sc_imports scopeNode <> [] ->
  analyzeUseDirectiveNode (Some c) scopeNode (Some u) =
  await (promiseAll entries) (fun importedScopeNodes =>
    match someImported (ud_machineId u) importedScopeNodes with
    | inl e => Rejected e
    | inr (Some _) => Fulfilled (Some u)
    | inr None =>
        Rejected (SemanticError (Msg.machineNotFound (ud_machineId u))
                    (sc_fileName scopeNode) (ud_line u) (ud_column u))
    end).
Proof.
  intros Hown Hne. unfold analyzeUseDirectiveNode. rewrite Hown.
  destruct (sc_imports scopeNode); [congruence|reflexivity].
Qed.

Lemma use_import_rejected importNode e0 :
  hasMachine (ud_machineId u) scopeNode = None ->
  In importNode (sc_imports scopeNode) ->
  Cache.get c (in_file importNode) = Some (Rejected e0) ->
  exists failed e,
    In failed (sc_imports scopeNode) /\
    Cache.get c (in_file failed) = Some (Rejected e) /\
    analyzeUseDirectiveNode (Some c) scopeNode (Some u) = Rejected e.
Proof.
  intros Hown Hin He. rewrite use_unfold; [|exact Hown|intros E; rewrite E in Hin; destruct Hin].
  assert (Hr : In (Rejected e0) entries).
  { apply in_map_iff. exists importNode. split; [|exact Hin]. now apply awaited_Rejected. }
  destruct (firstRejected_In _ _ Hr) as (e & Hf).
  assert (Hall : promiseAll entries = Rejected e) by (unfold promiseAll; now rewrite Hf).
  pose proof (promiseAll_Rejected_In _ _ Hall) as Hmem.
  apply in_map_iff in Hmem as (failed & Hfailed & Hin').
  exists failed, e. split; [exact Hin'|]. split; [now apply awaited_Rejected|].
  now rewrite Hall.
Qed.

Lemma use_import_pending importNode :
  hasMachine (ud_machineId u) scopeNode = None ->
  In importNode (sc_imports scopeNode) ->
  Cache.get c (in_file importNode) = Some Pending ->
  (forall other e, In other (sc_imports scopeNode) ->
                   Cache.get c (in_file other) <> Some (Rejected e)) ->
  analyzeUseDirectiveNode (Some c) scopeNode (Some u) = Pending.
Proof.
  intros Hown Hin Hp Hno. rewrite use_unfold; [|exact Hown|intros E; rewrite E in Hin; destruct Hin].
  unfold promiseAll. rewrite firstRejected_None.
  - rewrite allFulfilled_None; [reflexivity|].
    apply in_map_iff. exists importNode. split; [now apply awaited_Pending|exact Hin].
  - intros e He. apply in_map_iff in He as (other & Ho & Hin').
    apply awaited_Rejected in Ho. now apply (Hno other e).
Qed.

Lemma someImported_missing machineId scopes rest :
  Forall (fun sc => hasMachine machineId sc = None) scopes ->
  someImported machineId (map Some scopes ++ None :: rest) = inl (TypeError "machines").
Proof.
  induction 1 as [|sc r Hsc _ IH]; simpl; [reflexivity|]. now rewrite Hsc.
Qed.

Lemma use_import_missing pre scopes importNode post :
  hasMachine (ud_machineId u) scopeNode = None ->
  sc_imports scopeNode = pre ++ importNode :: post ->
  Forall2 (fun i sc => Cache.get c (in_file i) = Some (Fulfilled sc)) pre scopes ->
  Forall (fun sc => ~ namesMachine (ud_machineId u) sc) scopes ->
  Cache.get c (in_file importNode) = None ->
  Forall (fun i => Cache.get c (in_file i) = None \/
                   exists sc, Cache.get c (in_file i) = Some (Fulfilled sc)) post ->
  analyzeUseDirectiveNode (Some c) scopeNode (Some u) = Rejected (TypeError "machines").
Proof.
  intros Hown E Hpre Hnames Hmiss Hpost.
  rewrite use_unfold; [|exact Hown|rewrite E; now destruct pre].
  assert (Hposts : exists values,
             map (fun i => awaited (Cache.get c (in_file i))) post = map Fulfilled values).
  { clear -Hpost. induction Hpost as [|i r Hi _ (values & IH)]; [now exists []|].
    destruct Hi as [Hi|(sc & Hi)].
    - exists (None :: values). simpl. now rewrite Hi, IH.
    - exists (Some sc :: values). simpl. now rewrite Hi, IH. }
  destruct Hposts as (values & Hvalues).
  assert (Hall : promiseAll entries = Fulfilled (map Some scopes ++ None :: values)).
  { apply promiseAll_Fulfilled. rewrite E, !List.map_app. cbn [map].
    rewrite Hmiss, Hvalues. cbn [awaited]. f_equal.
    clear -Hpre. induction Hpre as [|i sc r r' Hi _ IH]; [reflexivity|].
    simpl. now rewrite Hi, IH. }
  rewrite Hall. cbn [await]. rewrite someImported_missing; [reflexivity|].
  eapply List.Forall_impl; [|exact Hnames]. intros sc Hsc. now apply hasMachine_None.
Qed.

End Facts.

Lemma use_without_cache scopeNode u :
  (namesMachine (ud_machineId u) scopeNode ->
   analyzeUseDirectiveNode None scopeNode (Some u) = Fulfilled (Some u)) /\
  (~ namesMachine (ud_machineId u) scopeNode -> sc_imports scopeNode = [] ->
   analyzeUseDirectiveNode None scopeNode (Some u) =
   Rejected (SemanticError (Msg.machineNotFound (ud_machineId u))
               (sc_fileName scopeNode) (ud_line u) (ud_column u))) /\
  (~ namesMachine (ud_machineId u) scopeNode -> sc_imports scopeNode <> [] ->
   analyzeUseDirectiveNode None scopeNode (Some u) = Rejected (TypeError "get")).
Proof.
  unfold analyzeUseDirectiveNode. split; [|split].
  - intros H. apply hasMachine_names in H.
    destruct (hasMachine _ scopeNode); [reflexivity|congruence].
  - intros H E. apply hasMachine_None in H. now rewrite H, E.
  - intros H E. apply hasMachine_None in H. rewrite H.
    destruct (sc_imports scopeNode); [congruence|reflexivity].
Qed.

End MoreUseFacts.

(** X9.  When no cache is passed, as in the analysis of an imported file (line
    95), a use-directive resolves against the machines of its own scope
    only: it is fulfilled exactly when its machineId names one of them;
    otherwise it is rejected with the SemanticError "Machine not found" when
    the scope has no import, and with a TypeError (the read of [cache.get])
    when it has one.  It never stays pending. *)
Theorem use_directive_without_cache scopeNode u :
  (analyzeUseDirectiveNode None scopeNode (Some u) = Fulfilled (Some u) <->
   namesMachine (ud_machineId u) scopeNode) /\
  (~ namesMachine (ud_machineId u) scopeNode -> sc_imports scopeNode = [] ->
   analyzeUseDirectiveNode None scopeNode (Some u) =
   Rejected (SemanticError (Msg.machineNotFound (ud_machineId u))
               (sc_fileName scopeNode) (ud_line u) (ud_column u))) /\
  (~ namesMachine (ud_machineId u) scopeNode -> sc_imports scopeNode <> [] ->
   analyzeUseDirectiveNode None scopeNode (Some u) = Rejected (TypeError "get")) /\
  analyzeUseDirectiveNode None scopeNode (Some u) <> Pending.
Proof.
  destruct (MoreUseFacts.use_without_cache scopeNode u) as (H1 & H2 & H3).
  split; [|split; [exact H2|split; [exact H3|apply SettleFacts.analyzeUseDirectiveNode_settles]]].
  split; [|exact H1]. intros H.
  destruct (hasMachine (ud_machineId u) scopeNode) as [m|] eqn:E.
  - apply UseFacts.hasMachine_names. congruence.
  - apply UseFacts.hasMachine_None in E. exfalso.
    destruct (sc_imports scopeNode) as [|i r] eqn:I.
    + rewrite (H2 E eq_refl) in H. discriminate.
    + rewrite H3 in H; [discriminate|exact E|discriminate].
Qed.

(** In a.state, which includes b.state: [@use Main] is fulfilled and
    [@use M] is rejected with the TypeError. *)
Lemma use_directive_without_cache_witness :
  analyzeUseDirectiveNode None Sample.scopeA (Some Sample.useMain) = Fulfilled (Some Sample.useMain) /\
  analyzeUseDirectiveNode None Sample.scopeA (Some Sample.useM) = Rejected (TypeError "get").
Proof.
  split.
  - apply (proj1 (use_directive_without_cache Sample.scopeA Sample.useMain)).
    exists (mkMachineNode "Main" [] [] [] 2 1). split; [now left|reflexivity].
  - apply (proj1 (proj2 (proj2 (use_directive_without_cache Sample.scopeA Sample.useM)))).
    + intros (m & [<-|[]] & E). discriminate.
    + discriminate.
Defined.

(** X10.  For a use-directive whose machineId names no machine of its own
    scope, with a cache: when the promise of some import is rejected the
    directive is rejected with the error of a rejected import, whatever the
    other imports hold; when none is rejected and one is pending the
    directive stays pending; when the imports before some import have
    fulfilled promises of scopes without the machine, that import has no
    entry in the cache and the later ones have no entry or a fulfilled one,
    the directive is rejected with a TypeError (the read of [machines] of
    [undefined]), also when a later import holds the machine. *)
Theorem use_directive_import_outcomes (c : gmap string (Outcome ScopeNode)) scopeNode u :
  ~ namesMachine (ud_machineId u) scopeNode ->
  (forall importNode e0,
      In importNode (sc_imports scopeNode) ->
      Cache.get c (in_file importNode) = Some (Rejected e0) ->
      exists failed e,
        In failed (sc_imports scopeNode) /\
        Cache.get c (in_file failed) = Some (Rejected e) /\
        analyzeUseDirectiveNode (Some c) scopeNode (Some u) = Rejected e) /\
  (forall importNode,
      In importNode (sc_imports scopeNode) ->
      Cache.get c (in_file importNode) = Some Pending ->
      (forall other e, In other (sc_imports scopeNode) ->
                       Cache.get c (in_file other) <> Some (Rejected e)) ->
      analyzeUseDirectiveNode (Some c) scopeNode (Some u) = Pending) /\
  (forall pre scopes importNode post,
      sc_imports scopeNode = pre ++ importNode :: post ->
      Forall2 (fun i sc => Cache.get c (in_file i) = Some (Fulfilled sc)) pre scopes ->
      Forall (fun sc => ~ namesMachine (ud_machineId u) sc) scopes ->
      Cache.get c (in_file importNode) = None ->
      Forall (fun i => Cache.get c (in_file i) = None \/
                       exists sc, Cache.get c (in_file i) = Some (Fulfilled sc)) post ->
      analyzeUseDirectiveNode (Some c) scopeNode (Some u) = Rejected (TypeError "machines")).
Proof.
  intros Hown. apply UseFacts.hasMachine_None in Hown. split; [|split].
  - intros. eapply MoreUseFacts.use_import_rejected; eauto.
  - intros. eapply MoreUseFacts.use_import_pending; eauto.
  - intros. eapply MoreUseFacts.use_import_missing; eauto.
Qed.

(** a.state includes b.state and c.state and uses M of c.state: with a
    rejected b.state the directive is rejected with that syntax error; with
    no entry for b.state it is rejected with the TypeError. *)
Lemma use_directive_import_outcomes_witness :
  (exists failed e,
      In failed (sc_imports Sample.scopeA') /\
      Cache.get Cases.cacheBroken (in_file failed) = Some (Rejected e) /\
      analyzeUseDirectiveNode (Some Cases.cacheBroken) Sample.scopeA' (Some Sample.useM)
      = Rejected e) /\
  analyzeUseDirectiveNode (Some Cases.cacheOnlyC) Sample.scopeA' (Some Sample.useM)
    = Rejected (TypeError "machines").
Proof.
  assert (Hown : ~ namesMachine (ud_machineId Sample.useM) Sample.scopeA').
  { intros (m & [<-|[]] & E). discriminate. }
  split.
  - apply (proj1 (use_directive_import_outcomes Cases.cacheBroken Sample.scopeA' Sample.useM Hown)
             (mkImportNode "b.state" (Some "b.state") 1 1)
             (SyntaxError "Unexpected token" "b.state" 3 1)).
    + now left.
    + reflexivity.
  - apply (proj2 (proj2 (use_directive_import_outcomes Cases.cacheOnlyC Sample.scopeA'
                           Sample.useM Hown))
             [] [] (mkImportNode "b.state" (Some "b.state") 1 1)
             [mkImportNode "c.state" (Some "c.state") 2 1]).
    + reflexivity.
    + constructor.
    + constructor.
    + reflexivity.
    + constructor; [|constructor]. right. exists Sample.scopeC. reflexivity.
Defined.

(** ** The analysis of a scope *)

Module MoreScopeFacts.
Import PromiseFacts DupFacts.



End MoreScopeFacts.



(** ** When two events normalize to the same string *)

Module OrderFacts.
Import Str StrFacts.

Lemma leb_cons c1 s1 c2 s2 :
  String.leb (String c1 s1) (String c2 s2) = true <->
  (N_of_ascii c1 < N_of_ascii c2)%N \/
  (N_of_ascii c1 = N_of_ascii c2 /\ String.leb s1 s2 = true).
Proof.
  unfold String.leb. cbn [String.compare]. unfold Ascii.compare.
  destruct (N.compare_spec (N_of_ascii c1) (N_of_ascii c2)) as [E|L|G].
  - split; [auto|]. intros [H|[_ H]]; [lia|exact H].
  - split; [auto|reflexivity].
  - split; [discriminate|]. intros [H|[H _]]; lia.
Qed.

Lemma leb_trans a : forall b c,
  String.leb a b = true -> String.leb b c = true -> String.leb a c = true.
Proof.
  induction a as [|ca a IH]; intros [|cb b] [|cc c]; try reflexivity; try discriminate.
  rewrite !leb_cons. intros [H1|[H1 H1']] [H2|[H2 H2']].
  - left. lia.
  - left. lia.
  - left. lia.
  - right. split; [lia|]. eapply IH; eauto.
Qed.

Lemma insertSorted_Permutation x l : Permutation (insertSorted x l) (x :: l).
Proof.
  induction l as [|y r IH]; simpl; [reflexivity|].
  destruct (String.leb x y); [reflexivity|].
  rewrite IH. apply perm_swap.
Qed.

Lemma sort_Permutation l : Permutation (sort l) l.
Proof.
  induction l as [|x r IH]; simpl; [reflexivity|].
  rewrite insertSorted_Permutation. now constructor.
Qed.

Lemma Sorted_head_least x l y :
  Sorted leS (x :: l) -> In y (x :: l) -> leS x y.
Proof.
  revert x. induction l as [|z r IH]; intros x Hs [->|Hin].
  - unfold leS. destruct (String.leb_total y y); assumption.
  - destruct Hin.
  - unfold leS. destruct (String.leb_total y y); assumption.
  - inversion Hs as [|? ? Hs' Hhd]; subst. inversion Hhd; subst.
    unfold leS in *. eapply leb_trans; [eassumption|]. now apply IH.
Qed.

(** A list has one sorted arrangement. *)
Lemma Sorted_unique l1 : forall l2,
  Sorted leS l1 -> Sorted leS l2 -> Permutation l1 l2 -> l1 = l2.
Proof.
  induction l1 as [|a r1 IH]; intros l2 S1 S2 P.
  - apply Permutation_nil in P. now subst.
  - destruct l2 as [|b r2]; [apply Permutation_sym, Permutation_nil in P; discriminate|].
    assert (Hab : a = b).
    { apply String.leb_antisym.
      - apply (Sorted_head_least a r1 b S1).
        apply (Permutation_in _ (Permutation_sym P)). now left.
      - apply (Sorted_head_least b r2 a S2).
        apply (Permutation_in _ P). now left. }
    subst b. f_equal. apply IH.
    + now inversion S1.
    + now inversion S2.
    + now apply Permutation_cons_inv in P.
Qed.

Lemma sort_of_Permutation l1 l2 : Permutation l1 l2 -> sort l1 = sort l2.
Proof.
  intros P. apply Sorted_unique; try apply sort_Sorted.
  now rewrite !sort_Permutation.
Qed.

Lemma join_parts_inj parts1 parts2 :
  parts1 <> [] -> parts2 <> [] ->
  Forall (fun p => contains "," p = false) parts1 ->
  Forall (fun p => contains "," p = false) parts2 ->
  join "," parts1 = join "," parts2 -> parts1 = parts2.
Proof.
  intros N1 N2 F1 F2 E.
  rewrite <- (split_join "," parts1 N1 F1), <- (split_join "," parts2 N2 F2).
  now rewrite E.
Qed.

Lemma normalizeEventName_eq_iff s t :
  normalizeEventName s = normalizeEventName t <->
  Permutation (eventParts s) (eventParts t).
Proof.
  unfold normalizeEventName, eventParts. split.
  - intros E.
    destruct (normalize_parts_fixed s) as (N1 & F1 & _).
    destruct (normalize_parts_fixed t) as (N2 & F2 & _).
    apply (join_parts_inj _ _ N1 N2 F1 F2) in E.
    rewrite <- (sort_Permutation (map trim (split "," s))), E.
    apply sort_Permutation.
  - intros P. now rewrite (sort_of_Permutation _ _ P).
Qed.

End OrderFacts.

(** X12.  Two event names normalize to the same string exactly when their
    comma-separated parts, trimmed, are the same up to their order: the
    spaces around a part and the order of the parts do not count, how often
    a part occurs and every character inside it do. *)
Theorem normalized_events_equal_iff s t :
  normalizeEventName s = normalizeEventName t <->
  Permutation (eventParts s) (eventParts t).
Proof. apply OrderFacts.normalizeEventName_eq_iff. Qed.

(** " save ,load" and "load,save" collide; "save" and "save,save" do not,
    nor do "save" and "Save". *)
Lemma normalized_events_equal_iff_witness :
  normalizeEventName " save ,load" = normalizeEventName "load,save" /\
  normalizeEventName "save" <> normalizeEventName "save,save" /\
  normalizeEventName "save" <> normalizeEventName "Save".
Proof.
  split; [|split].
  - apply (proj2 (normalized_events_equal_iff " save ,load" "load,save")).
    apply perm_swap.
  - intros E. apply (proj1 (normalized_events_equal_iff "save" "save,save")) in E.
    apply Permutation_length in E. discriminate.
  - intros E. apply (proj1 (normalized_events_equal_iff "save" "Save")) in E.
    apply Permutation_length_1 in E. discriminate.
Defined.

(** ** Reading the options of the command line *)

Module MoreCliFacts.
Import Str StrFacts.

Lemma concat_cons_char sep c h t :
  String.concat sep (String c h :: t) = String c (String.concat sep (h :: t)).
Proof. destruct t; reflexivity. Qed.

(** Joining undoes splitting. *)
Lemma join_split sep s : join (String sep EmptyString) (split sep s) = s.
Proof.
  unfold join. induction s as [|c r IH]; [reflexivity|]. cbn [split].
  destruct (Ascii.eqb c sep) eqn:E.
  - apply Ascii.eqb_eq in E. subst c.
    pose proof (split_nonempty sep r) as Hne.
    destruct (split sep r) as [|h t]; [congruence|].
    change (String.concat (String sep EmptyString) (EmptyString :: h :: t))
      with (String sep (String.concat (String sep EmptyString) (h :: t))).
    now rewrite IH.
  - pose proof (split_nonempty sep r) as Hne.
    destruct (split sep r) as [|h t]; [congruence|].
    now rewrite concat_cons_char, IH.
Qed.

Lemma contains_app c p s :
  contains c (String.append p s) = contains c p || contains c s.
Proof. induction p as [|d r IH]; simpl; [reflexivity|]. now rewrite IH, orb_assoc. Qed.

(** The value of [--name=value]: what follows the first equals sign. *)
Lemma value_after_equals p v :
  contains "=" p = false ->
  hasChar (p +:+ "=" +:+ v) "=" = true /\
  join "=" (tail (split "=" (p +:+ "=" +:+ v))) = v.
Proof.
  intros Hp. split.
  - unfold hasChar. rewrite contains_app. simpl. now rewrite orb_true_r.
  - change (p +:+ "=" +:+ v) with (String.append p (String "=" v)).
    rewrite (split_app_no_sep "=" p v Hp). cbn [tail]. apply join_split.
Qed.

Lemma findIndex_first {A : Type} (p : A -> bool) pre x post :
  (forall a, In a pre -> p a = false) -> p x = true ->
  Arr.findIndex p (pre ++ x :: post) = Some (length pre).
Proof.
  intros Hpre Hx. induction pre as [|a r IH]; simpl.
  - now rewrite Hx.
  - rewrite (Hpre a) by now left. rewrite IH; [reflexivity|].
    intros b Hb. apply Hpre. now right.
Qed.

Lemma nth_middle_arg (pre : list string) x post :
  nth (length pre) (pre ++ x :: post) EmptyString = x.
Proof. induction pre; simpl; auto. Qed.

Lemma nth_error_next (pre : list string) x post :
  nth_error (pre ++ x :: post) (S (length pre)) = head post.
Proof. induction pre; simpl; [now destruct post|auto]. Qed.

(** [readOption] for one name. *)
Lemma readOption_single name args defaultValue :
  Cli.readOption [name] args defaultValue =
  match Arr.findIndex (fun arg => startsWith arg name) args with
  | None =>
      match defaultValue with
      | Cli.Arr items => Returns (Cli.Arr items)
      | Cli.Null | Cli.Undefined => Throws (Cli.isRequired [name])
      | _ => Throws (Cli.onlyOneValue [name])
      end
  | Some index =>
      match Cli.optionValue name args index defaultValue with
      | Throws e => Throws e
      | Returns value =>
          match defaultValue with
          | Cli.Arr _ => Returns (Cli.Arr [value])
          | _ => Returns value
          end
      end
  end.
Proof.
  unfold Cli.readOption. cbn [Cli.readNames].
  destruct (Arr.findIndex _ args) as [index|].
  - destruct (Cli.optionValue name args index defaultValue) as [value|e]; [|reflexivity].
    cbn [Nat.eqb]. now destruct defaultValue.
  - destruct defaultValue; reflexivity.
Qed.

Lemma optionValue_spaced name pre arg v post defaultValue :
  (forall b, defaultValue <> Cli.Bool b) ->
  hasChar arg "=" = false -> v <> EmptyString -> startsWith v "-" = false ->
  Cli.optionValue name (pre ++ arg :: v :: post) (length pre) defaultValue
  = Returns (Cli.Str v).
Proof.
  intros Hb He Hv Hd. unfold Cli.optionValue.
  rewrite nth_middle_arg, He, nth_error_next. cbn [head].
  destruct defaultValue; try (destruct v; [congruence|now rewrite Hd]).
  now specialize (Hb b).
Qed.

Lemma optionValue_equals name pre p v post defaultValue :
  (forall b, defaultValue <> Cli.Bool b) ->
  contains "=" p = false -> v <> EmptyString -> startsWith v "-" = false ->
  Cli.optionValue name (pre ++ (p +:+ "=" +:+ v) :: post) (length pre) defaultValue
  = Returns (Cli.Str v).
Proof.
  intros Hb Hp Hv Hd. unfold Cli.optionValue.
  destruct (value_after_equals p v Hp) as [H1 H2].
  rewrite nth_middle_arg, H1, H2.
  destruct defaultValue; try (destruct v; [congruence|now rewrite Hd]).
  now specialize (Hb b).
Qed.

Lemma optionValue_missing name args index defaultValue :
  (forall b, defaultValue <> Cli.Bool b) ->
  (let arg := nth index args EmptyString in
   if hasChar arg "="
   then join "=" (tail (split "=" arg)) = EmptyString \/
        startsWith (join "=" (tail (split "=" arg))) "-" = true
   else nth_error args (S index) = None \/
        exists w, nth_error args (S index) = Some w /\
                  (w = EmptyString \/ startsWith w "-" = true)) ->
  Cli.optionValue name args index defaultValue = Throws (Cli.mustHaveValue name).
Proof.
  intros Hb H. cbv zeta in H. unfold Cli.optionValue.
  destruct (hasChar (nth index args EmptyString) "=").
  - destruct defaultValue; try (now specialize (Hb b));
      (destruct H as [->|H]; [reflexivity|];
       destruct (join "=" _); [reflexivity|now rewrite H]).
  - destruct defaultValue; try (now specialize (Hb b));
      (destruct H as [->|(w & -> & [->|H])]; [reflexivity|reflexivity|];
       destruct w; [reflexivity|now rewrite H]).
Qed.

Lemma readOption_value name pre arg post defaultValue v :
  (forall b, defaultValue <> Cli.Bool b) ->
  (forall a, In a pre -> Str.startsWith a name = false) ->
  Str.startsWith arg name = true ->
  v <> EmptyString ->
  Str.startsWith v "-" = false ->
  (Str.hasChar arg "=" = false /\ head post = Some v) \/
  (exists p, arg = p +:+ "=" +:+ v /\ Str.contains "=" p = false) ->
  Cli.readOption [name] (pre ++ arg :: post) defaultValue =
  Returns match defaultValue with
          | Cli.Arr _ => Cli.Arr [Cli.Str v]
          | _ => Cli.Str v
          end.
Proof.
  intros Hb Hpre Harg Hv Hd Hform. rewrite readOption_single.
  rewrite (findIndex_first _ pre arg post Hpre Harg).
  destruct Hform as [[He Hpost]|(p & -> & Hp)].
  - destruct post as [|w post']; [discriminate|]. injection Hpost as ->.
    rewrite (optionValue_spaced name pre arg v post' defaultValue Hb He Hv Hd).
    now destruct defaultValue.
  - rewrite (optionValue_equals name pre p v post defaultValue Hb Hp Hv Hd).
    now destruct defaultValue.
Qed.

Lemma readOption_no_value name pre arg post defaultValue :
  (forall b, defaultValue <> Cli.Bool b) ->
  (forall a, In a pre -> Str.startsWith a name = false) ->
  Str.startsWith arg name = true ->
  (Str.hasChar arg "=" = false /\
   (post = [] \/
    exists w post', post = w :: post' /\ (w = EmptyString \/ Str.startsWith w "-" = true))) \/
  (exists p w, arg = p +:+ "=" +:+ w /\ Str.contains "=" p = false /\
               (w = EmptyString \/ Str.startsWith w "-" = true)) ->
  Cli.readOption [name] (pre ++ arg :: post) defaultValue
  = Throws (Error ("Option " +:+ name +:+ " must have a value") None).
Proof.
  intros Hb Hpre Harg Hform. rewrite readOption_single.
  rewrite (findIndex_first _ pre arg post Hpre Harg).
  rewrite (optionValue_missing name _ (length pre) defaultValue Hb);
    [reflexivity|].
  cbv zeta. rewrite nth_middle_arg, nth_error_next.
  destruct Hform as [[He Hpost]|(p & w & -> & Hp & Hw)].
  - rewrite He. destruct Hpost as [->|(w & post' & -> & Hw)]; [now left|].
    right. exists w. split; [reflexivity|exact Hw].
  - destruct (value_after_equals p w Hp) as [H1 H2]. rewrite H1, H2. exact Hw.
Qed.

End MoreCliFacts.

(** X13.  For an option read under one name that is no flag: when the first
    argument starting with the name has no equals sign and is followed by a
    value, or is the name, an equals sign and a value, [readOption] returns
    that value (all that follows the first equals sign, further equals signs
    included), provided the value is not empty and does not start with a
    dash.  With a list as default it returns the list of that one value:
    the items of the default and later occurrences of the option are left
    out. *)
Theorem option_value_forms name pre arg post defaultValue v :
  (forall b, defaultValue <> Cli.Bool b) ->
  (forall a, In a pre -> Str.startsWith a name = false) ->
  Str.startsWith arg name = true ->
  v <> EmptyString ->
  Str.startsWith v "-" = false ->
  (Str.hasChar arg "=" = false /\ head post = Some v) \/
  (exists p, arg = p +:+ "=" +:+ v /\ Str.contains "=" p = false) ->
  Cli.readOption [name] (pre ++ arg :: post) defaultValue =
  Returns match defaultValue with
          | Cli.Arr _ => Cli.Arr [Cli.Str v]
          | _ => Cli.Str v
          end.
Proof. exact (MoreCliFacts.readOption_value name pre arg post defaultValue v). Qed.

(** [--generator xstate], [--generator=xstate], a value with an equals sign,
    and a list option given twice. *)
Lemma option_value_forms_witness :
  Cli.readOption ["--generator"] ["App.wirestate"; "--generator"; "xstate"] (Cli.Str "json")
    = Returns (Cli.Str "xstate") /\
  Cli.readOption ["--generator"] ["App.wirestate"; "--generator=xstate"] (Cli.Str "json")
    = Returns (Cli.Str "xstate") /\
  Cli.readOption ["--define"] ["--define=mode=fast"] Cli.Null
    = Returns (Cli.Str "mode=fast") /\
  Cli.readOption ["--flavor"] ["--flavor"; "sweet"; "--flavor"; "sour"] (Cli.Arr [Cli.Str "plain"])
    = Returns (Cli.Arr [Cli.Str "sweet"]).
Proof.
  split; [|split; [|split]].
  - apply (option_value_forms "--generator" ["App.wirestate"] "--generator" ["xstate"]
             (Cli.Str "json") "xstate"); try discriminate; try reflexivity.
    + intros a [<-|[]]. reflexivity.
    + left. split; reflexivity.
  - apply (option_value_forms "--generator" ["App.wirestate"] "--generator=xstate" []
             (Cli.Str "json") "xstate"); try discriminate; try reflexivity.
    + intros a [<-|[]]. reflexivity.
    + right. exists "--generator". split; reflexivity.
  - apply (option_value_forms "--define" [] "--define=mode=fast" [] Cli.Null "mode=fast");
      try discriminate; try reflexivity.
    + intros a [].
    + right. exists "--define". split; reflexivity.
  - apply (option_value_forms "--flavor" [] "--flavor" ["sweet"; "--flavor"; "sour"]
             (Cli.Arr [Cli.Str "plain"]) "sweet"); try discriminate; try reflexivity.
    + intros a [].
    + left. split; reflexivity.
Defined.

(** X14.  For an option that is no flag, when the first argument starting
    with its name carries no value, [readOption] throws "Option <name> must
    have a value": the argument is the last one, or is followed by an empty
    argument or by one starting with a dash, or ends right after its equals
    sign, or has a dash right after it. *)
Theorem option_without_value name pre arg post defaultValue :
  (forall b, defaultValue <> Cli.Bool b) ->
  (forall a, In a pre -> Str.startsWith a name = false) ->
  Str.startsWith arg name = true ->
  (Str.hasChar arg "=" = false /\
   (post = [] \/
    exists w post', post = w :: post' /\ (w = EmptyString \/ Str.startsWith w "-" = true))) \/
  (exists p w, arg = p +:+ "=" +:+ w /\ Str.contains "=" p = false /\
               (w = EmptyString \/ Str.startsWith w "-" = true)) ->
  Cli.readOption [name] (pre ++ arg :: post) defaultValue
  = Throws (Error ("Option " +:+ name +:+ " must have a value") None).
Proof. exact (MoreCliFacts.readOption_no_value name pre arg post defaultValue). Qed.

(** [--dir] as the last argument, before another option, and [--dir=]. *)
Lemma option_without_value_witness :
  Cli.readOption ["--dir"] ["App.wirestate"; "--dir"] (Cli.Str "")
    = Throws (Error "Option --dir must have a value" None) /\
  Cli.readOption ["--dir"] ["--dir"; "--generator"; "json"] (Cli.Str "")
    = Throws (Error "Option --dir must have a value" None) /\
  Cli.readOption ["--dir"] ["--dir="; "statechart"] (Cli.Str "")
    = Throws (Error "Option --dir must have a value" None).
Proof.
  split; [|split].
  - apply (option_without_value "--dir" ["App.wirestate"] "--dir" [] (Cli.Str ""));
      try discriminate; try reflexivity.
    + intros a [<-|[]]. reflexivity.
    + left. split; [reflexivity|now left].
  - apply (option_without_value "--dir" [] "--dir" ["--generator"; "json"] (Cli.Str ""));
      try discriminate; try reflexivity.
    + intros a [].
    + left. split; [reflexivity|]. right. exists "--generator", ["json"].
      split; [reflexivity|now right].
  - apply (option_without_value "--dir" [] "--dir=" ["statechart"] (Cli.Str ""));
      try discriminate; try reflexivity.
    + intros a [].
    + right. exists "--dir", "". split; [reflexivity|]. split; [reflexivity|now left].
Defined.

(** X15.  When no argument starts with the name of an option, [readOption]
    returns the default only when it is a list; with no default ([null] or
    [undefined]) it throws "Option <name> is required", and with a string or
    a boolean as default it throws "Option <name> only allows one value". *)
Theorem option_absent name args defaultValue :
  (forall arg, In arg args -> Str.startsWith arg name = false) ->
  Cli.readOption [name] args defaultValue =
  match defaultValue with
  | Cli.Arr items => Returns (Cli.Arr items)
  | Cli.Null | Cli.Undefined => Throws (Error ("Option " +:+ name +:+ " is required") None)
  | _ => Throws (Error ("Option " +:+ name +:+ " only allows one value") None)
  end.
Proof.
  intros H. rewrite MoreCliFacts.readOption_single, (CliFacts.findIndex_None _ _ H).
  destruct defaultValue; reflexivity.
Qed.

Lemma option_absent_witness :
  Cli.readOption ["--flavor"] ["App.wirestate"] (Cli.Arr [Cli.Str "plain"])
    = Returns (Cli.Arr [Cli.Str "plain"]) /\
  Cli.readOption ["--name"] ["App.wirestate"] Cli.Null
    = Throws (Error "Option --name is required" None) /\
  Cli.readOption ["--flg"] ["App.wirestate"] (Cli.Bool false)
    = Throws (Error "Option --flg only allows one value" None).
Proof.
  split; [|split].
  - apply (option_absent "--flavor" ["App.wirestate"] (Cli.Arr [Cli.Str "plain"])).
    intros a [<-|[]]. reflexivity.
  - apply (option_absent "--name" ["App.wirestate"] Cli.Null).
    intros a [<-|[]]. reflexivity.
  - apply (option_absent "--flg" ["App.wirestate"] (Cli.Bool false)).
    intros a [<-|[]]. reflexivity.
Defined.

(** X16.  A flag (an option with a boolean default) read under one name is
    [true] as soon as an argument starts with its name, whatever follows;
    [readOption] never returns anything but [true] for it: when the flag
    is absent it throws. *)
Theorem flag_option name args b :
  (forall pre arg post,
      args = pre ++ arg :: post ->
      (forall a, In a pre -> Str.startsWith a name = false) ->
      Str.startsWith arg name = true ->
      Cli.readOption [name] args (Cli.Bool b) = Returns (Cli.Bool true)) /\
  (forall value, Cli.readOption [name] args (Cli.Bool b) = Returns value -> value = Cli.Bool true).
Proof.
  split.
  - intros pre arg post -> Hpre Harg. rewrite MoreCliFacts.readOption_single.
    now rewrite (MoreCliFacts.findIndex_first _ pre arg post Hpre Harg).
  - intros value. rewrite MoreCliFacts.readOption_single.
    destruct (Arr.findIndex _ args); [|discriminate]. cbn. now intros [= <-].
Qed.

Lemma flag_option_witness :
  Cli.readOption ["--disableCallbacks"] ["App.wirestate"; "--disableCallbacks"] (Cli.Bool false)
  = Returns (Cli.Bool true).
Proof.
  apply (proj1 (flag_option "--disableCallbacks" ["App.wirestate"; "--disableCallbacks"] false)
           ["App.wirestate"] "--disableCallbacks" []); try reflexivity.
  intros a [<-|[]]. reflexivity.
Defined.

Module MainFacts.
Import Str.

Lemma findIndex_Some_In {A : Type} (p : A -> bool) (l : list A) i :
  Arr.findIndex p l = Some i -> exists x, In x l /\ p x = true.
Proof.
  revert i. induction l as [|x r IH]; intros i; simpl; [discriminate|].
  destruct (p x) eqn:E; [eauto|].
  destruct (Arr.findIndex p r) as [j|]; [|discriminate].
  intros _. destruct (IH j eq_refl) as (y & Hy & Py). eauto.
Qed.

(** An option with a string as default gives a value only when an argument
    starts with its name. *)
Lemma readOption_present name args defaultValue value :
  Cli.readOption [name] args (Cli.Str defaultValue) = Returns value ->
  exists arg, In arg args /\ startsWith arg name = true.
Proof.
  rewrite MoreCliFacts.readOption_single.
  destruct (Arr.findIndex _ args) as [i|] eqn:F; [|discriminate].
  intros _. exact (findIndex_Some_In _ _ _ F).
Qed.

Lemma main_not_help args :
  existsb Cli.isHelp args = false ->
  Cli.main args =
  match Cli.readOption ["--dir"] args (Cli.Str "") with
  | Throws e => Cli.Thrown e
  | Returns dir =>
      match Cli.readOption ["--generator"] args (Cli.Str "json") with
      | Throws e => Cli.Thrown e
      | Returns generatorName =>
          match Cli.readOption ["--cacheDir"] args (Cli.Str ".wirestate") with
          | Throws e => Cli.Thrown e
          | Returns cacheDir =>
              match find (fun arg => negb (startsWith arg "-")) args with
              | None | Some EmptyString => Cli.Exit 20
              | Some file => Cli.Compile file dir generatorName cacheDir
              end
          end
      end
  end.
Proof. intros H. unfold Cli.main. now rewrite H. Qed.

Lemma main_compile args file dir generatorName cacheDir :
  Cli.main args = Cli.Compile file dir generatorName cacheDir ->
  find (fun arg => negb (Str.startsWith arg "-")) args = Some file /\
  file <> EmptyString /\
  Cli.readOption ["--dir"] args (Cli.Str "") = Returns dir /\
  Cli.readOption ["--generator"] args (Cli.Str "json") = Returns generatorName /\
  Cli.readOption ["--cacheDir"] args (Cli.Str ".wirestate") = Returns cacheDir.
Proof.
  intros Hm.
  destruct (existsb Cli.isHelp args) eqn:Hh.
  { unfold Cli.main in Hm. rewrite Hh in Hm. discriminate. }
  rewrite (main_not_help args Hh) in Hm.
  destruct (Cli.readOption ["--dir"] args (Cli.Str "")) as [d|e]; [|discriminate].
  destruct (Cli.readOption ["--generator"] args (Cli.Str "json")) as [g|e]; [|discriminate].
  destruct (Cli.readOption ["--cacheDir"] args (Cli.Str ".wirestate")) as [c|e]; [|discriminate].
  destruct (find _ args) as [[|ch f]|]; try discriminate.
  injection Hm as <- <- <- <-. repeat split; try reflexivity. discriminate.
Qed.

End MainFacts.

(** X17.  [main] prints the usage and exits with 0 as soon as an argument is
    [--help] or [-h].  It reaches the compilation, or the exit with 20 for a
    missing input file, only when [--dir], [--generator] and [--cacheDir]
    are all given with a value: the three are read before the input file is
    looked at, and none of them falls back to a default.  The input file
    it compiles is the first argument that does not start with a dash. *)
Theorem main_outcomes args :
  (existsb Cli.isHelp args = true -> Cli.main args = Cli.Exit 0) /\
  (forall outcome,
      Cli.main args = outcome ->
      (outcome = Cli.Exit 20 \/
       exists file dir generatorName cacheDir,
         outcome = Cli.Compile file dir generatorName cacheDir) ->
      existsb Cli.isHelp args = false /\
      (exists arg, In arg args /\ Str.startsWith arg "--dir" = true) /\
      (exists arg, In arg args /\ Str.startsWith arg "--generator" = true) /\
      (exists arg, In arg args /\ Str.startsWith arg "--cacheDir" = true)) /\
  (forall file dir generatorName cacheDir,
      Cli.main args = Cli.Compile file dir generatorName cacheDir ->
      find (fun arg => negb (Str.startsWith arg "-")) args = Some file /\
      file <> EmptyString /\
      Cli.readOption ["--dir"] args (Cli.Str "") = Returns dir /\
      Cli.readOption ["--generator"] args (Cli.Str "json") = Returns generatorName /\
      Cli.readOption ["--cacheDir"] args (Cli.Str ".wirestate") = Returns cacheDir).
Proof.
  split; [|split].
  - intros H. unfold Cli.main. now rewrite H.
  - intros outcome Hm Hout.
    destruct (existsb Cli.isHelp args) eqn:Hh.
    { unfold Cli.main in Hm. rewrite Hh in Hm. subst outcome.
      destruct Hout as [H|(f & d & g & c & H)]; discriminate. }
    rewrite (MainFacts.main_not_help args Hh) in Hm.
    destruct (Cli.readOption ["--dir"] args (Cli.Str "")) as [d|e] eqn:D;
      [|subst outcome; destruct Hout as [H|(f & d' & g & c & H)]; discriminate].
    destruct (Cli.readOption ["--generator"] args (Cli.Str "json")) as [g|e] eqn:G;
      [|subst outcome; destruct Hout as [H|(f & d' & g' & c & H)]; discriminate].
    destruct (Cli.readOption ["--cacheDir"] args (Cli.Str ".wirestate")) as [c|e] eqn:C;
      [|subst outcome; destruct Hout as [H|(f & d' & g' & c' & H)]; discriminate].
    split; [reflexivity|]. split; [|split].
    + exact (MainFacts.readOption_present _ _ _ _ D).
    + exact (MainFacts.readOption_present _ _ _ _ G).
    + exact (MainFacts.readOption_present _ _ _ _ C).
  - exact (MainFacts.main_compile args).
Qed.

(** The command line of docs/CLI.md with [--dir] in the place of
    [--srcDir] and a cache directory. *)
Lemma main_outcomes_witness :
  Cli.main ["statechart/App.wirestate"; "--generator"; "xstate"; "--dir"; "statechart";
            "--cacheDir"; ".wirestate"]
    = Cli.Compile "statechart/App.wirestate" (Cli.Str "statechart") (Cli.Str "xstate")
        (Cli.Str ".wirestate") /\
  Cli.main ["App.wirestate"; "-h"] = Cli.Exit 0 /\
  (exists arg,
      In arg ["statechart/App.wirestate"; "--generator"; "xstate"; "--dir"; "statechart";
              "--cacheDir"; ".wirestate"] /\
      Str.startsWith arg "--cacheDir" = true).
Proof.
  split; [reflexivity|]. split.
  - exact (proj1 (main_outcomes ["App.wirestate"; "-h"]) eq_refl).
  - refine (proj2 (proj2 (proj2 (proj1 (proj2 (main_outcomes _)) _ eq_refl _)))).
    right. eexists _, _, _, _. reflexivity.
Defined.

(** X18.  When the command line starts with [--dir] and its value, that value
    is at once the directory and the input file [main] compiles: the input
    file is the first argument without a leading dash, and the values of
    options are not skipped. *)
Theorem option_value_taken_as_input_file dirValue rest file dir generatorName cacheDir :
  Cli.main ("--dir" :: dirValue :: rest) = Cli.Compile file dir generatorName cacheDir ->
  file = dirValue /\ dir = Cli.Str dirValue.
Proof.
  intros Hm. destruct (MainFacts.main_compile _ _ _ _ _ Hm) as (Hf & _ & Hd & _).
  assert (Hdash : Str.startsWith "--dir" "-" = true) by reflexivity.
  assert (Hname : Str.startsWith "--dir" "--dir" = true) by reflexivity.
  assert (Hplain : Str.hasChar "--dir" "=" = false) by reflexivity.
  assert (Hnone : forall a : string, In a [] -> Str.startsWith a "--dir" = false)
    by (intros a []).
  assert (Hstr : forall b, Cli.Str "" <> Cli.Bool b) by discriminate.
  cbn [find] in Hf. rewrite Hdash in Hf. cbn [negb] in Hf.
  destruct (String.eqb dirValue EmptyString) eqn:E.
  - apply String.eqb_eq in E. subst dirValue.
    pose proof (MoreCliFacts.readOption_no_value "--dir" [] "--dir" (EmptyString :: rest) (Cli.Str "")
                  Hstr Hnone Hname) as K.
    cbn [app] in K. rewrite K in Hd; [discriminate|].
    left. split; [exact Hplain|]. right. exists EmptyString, rest. auto.
  - apply String.eqb_neq in E. destruct (Str.startsWith dirValue "-") eqn:S.
    + pose proof (MoreCliFacts.readOption_no_value "--dir" [] "--dir" (dirValue :: rest) (Cli.Str "")
                    Hstr Hnone Hname) as K.
      cbn [app] in K. rewrite K in Hd; [discriminate|].
      left. split; [exact Hplain|]. right. exists dirValue, rest. auto.
    + pose proof (MoreCliFacts.readOption_value "--dir" [] "--dir" (dirValue :: rest) (Cli.Str "") dirValue
                    Hstr Hnone Hname E S) as K.
      cbn [app] in K. rewrite K in Hd by (left; split; [exact Hplain|reflexivity]).
      cbn [negb] in Hf. split; congruence.
Qed.

(** [--dir statechart App.wirestate ...] compiles the file [statechart]. *)
Lemma option_value_taken_as_input_file_witness :
  Cli.main ["--dir"; "statechart"; "App.wirestate"; "--generator"; "json";
            "--cacheDir"; ".wirestate"]
    = Cli.Compile "statechart" (Cli.Str "statechart") (Cli.Str "json") (Cli.Str ".wirestate") /\
  ("statechart" = "statechart" /\ Cli.Str "statechart" = Cli.Str "statechart").
Proof.
  split; [reflexivity|].
  exact (option_value_taken_as_input_file "statechart"
           ["App.wirestate"; "--generator"; "json"; "--cacheDir"; ".wirestate"]
           "statechart" (Cli.Str "statechart") (Cli.Str "json") (Cli.Str ".wirestate") eq_refl).
Defined.
